(** * Alliance synchronisation: cipher codec and sync state machine

    A shallow embedding of [crypt.js] and of the synchronisation classes of
    [allianceManager.js], followed by the properties established about them.

    JavaScript numbers that pass through the 32-bit operators are integers
    of [Z]; the conversions [ToInt32] / [ToUint32] that the operators and the
    typed arrays perform are written out.  Strings are sequences of UTF-16
    code units.  A [Uint32Array] is a [list Z] of words; reading outside of
    it gives [undefined], writing outside of it does nothing. *)

From Equations Require Import Equations.
From stdpp Require Import base numbers option list strings gmap.
From Stdlib Require Import ZArith Lia Bool.

Local Open Scope Z_scope.

(** ** JavaScript integer operators *)

Module JS.

(** [ToInt32]: reduce modulo 2^32 into the signed range. *)
Definition ToInt32 (x : Z) : Z := (x + 2 ^ 31) `mod` 2 ^ 32 - 2 ^ 31.

(** [ToUint32]: reduce modulo 2^32 into the unsigned range; this is also
    what a store into a [Uint32Array] does. *)
Definition ToUint32 (x : Z) : Z := x `mod` 2 ^ 32.

(** [ToUint16], used by [String.fromCharCode]. *)
Definition ToUint16 (x : Z) : Z := x `mod` 2 ^ 16.

(** [a & b], [a | b], [a ^ b]: both operands go through [ToInt32]. *)
Definition band (a b : Z) : Z := Z.land (ToInt32 a) (ToInt32 b).
Definition bor (a b : Z) : Z := Z.lor (ToInt32 a) (ToInt32 b).
Definition bxor (a b : Z) : Z := Z.lxor (ToInt32 a) (ToInt32 b).

(** [a << n], [a >> n], [a >>> n] for a shift count [0 <= n < 32]. *)
Definition shl (a n : Z) : Z := ToInt32 (Z.shiftl (ToInt32 a) n).
Definition sar (a n : Z) : Z := Z.shiftr (ToInt32 a) n.
Definition shr (a n : Z) : Z := Z.shiftr (ToUint32 a) n.

(** A JavaScript string: its UTF-16 code units. *)
Abbreviation jsstring := (list Z) (only parsing).

Definition is_code_unit (c : Z) : Prop := 0 <= c < 65536.

(** A value that may be [undefined] coerces to 0 under the bitwise
    operators ([ToInt32 (ToNumber undefined) = 0]). *)
Definition num (o : option Z) : Z := default 0 o.

(** [s.charCodeAt(i)]; out of range the result is [NaN]. *)
Definition charCodeAt (s : jsstring) (i : nat) : option Z := s !! i.

(** [s.codePointAt(i)]: a leading surrogate followed by a trailing one is
    read as one supplementary code point, anything else as the unit. *)
Definition codePointAt (s : jsstring) (i : nat) : option Z :=
  match s !! i with
  | None => None
  | Some first =>
      if (0xD800 <=? first) && (first <=? 0xDBFF) then
        match s !! S i with
        | Some second =>
            if (0xDC00 <=? second) && (second <=? 0xDFFF)
            then Some ((first - 0xD800) * 0x400 + (second - 0xDC00) + 0x10000)
            else Some first
        | None => Some first
        end
      else Some first
  end.

(** [String.fromCharCode(x)]. *)
Definition fromCharCode (x : Z) : jsstring := [ToUint16 x].

(** [String.fromCodePoint(c)] for [0 <= c <= 0x10FFFF] (beyond that the
    host raises a [RangeError]; the codec stays below [0x10820]). *)
Definition fromCodePoint (c : Z) : jsstring :=
  if c <=? 0xFFFF then [c]
  else [(c - 0x10000) / 0x400 + 0xD800; (c - 0x10000) `mod` 0x400 + 0xDC00].

(** [s.slice(a, b)] for [0 <= a <= b]. *)
Definition slice (s : jsstring) (a b : nat) : jsstring := take (b - a) (drop a s).

(** White space and line terminators skipped by [parseInt]. *)
Definition isWhiteSpace (c : Z) : bool :=
  bool_decide (c ∈ [0x9; 0xA; 0xB; 0xC; 0xD; 0x20; 0xA0; 0x1680; 0x2028;
                     0x2029; 0x202F; 0x205F; 0x3000; 0xFEFF])
  || ((0x2000 <=? c) && (c <=? 0x200A)).

Definition hexDigit (c : Z) : option Z :=
  if (48 <=? c) && (c <=? 57) then Some (c - 48)
  else if (97 <=? c) && (c <=? 102) then Some (c - 87)
  else if (65 <=? c) && (c <=? 70) then Some (c - 55)
  else None.

Fixpoint trimStart (s : jsstring) : jsstring :=
  match s with
  | c :: r => if isWhiteSpace c then trimStart r else s
  | [] => []
  end.

(** The longest prefix of hexadecimal digits, as digit values. *)
Fixpoint hexPrefix (s : jsstring) : list Z :=
  match s with
  | c :: r => match hexDigit c with Some d => d :: hexPrefix r | None => [] end
  | [] => []
  end.

Definition hexValue (ds : list Z) : Z := foldl (fun acc d => acc * 16 + d) 0 ds.

(** [Number.parseInt(s, 16)]; [None] is [NaN].  The strings parsed here
    have at most eight code units, so the value is an exact integer. *)
Definition parseInt16 (s : jsstring) : option Z :=
  let s := trimStart s in
  let '(sign, s) :=
    match s with
    | 45 :: r => (-1, r)
    | 43 :: r => (1, r)
    | _ => (1, s)
    end in
  let s :=
    match s with
    | 48 :: x :: r => if bool_decide (x = 120 ∨ x = 88) then r else s
    | _ => s
    end in
  match hexPrefix s with
  | [] => None
  | ds => Some (sign * hexValue ds)
  end.

End JS.

Import JS.

(** ** crypt.js *)

Definition DELTA : Z := 0x9E3779B9.

(** [mx(sum, y, z, p, e, k)].  [k[p & 3 ^ e]] is [undefined] when the key
    array is shorter than four words. *)
Definition mx (sum y z : Z) (p : nat) (e : Z) (k : list Z) : Z :=
  bxor (bxor (shr z 5) (shl y 2) + bxor (shr y 3) (shl z 4))
       (bxor sum y + bxor (num (k !! Z.to_nat (bxor (band (Z.of_nat p) 3) e))) z).

(** One assignment [z = v[p] = (v[p] + mx(sum, y, z, p, e, k)) & 0xffffffff]
    with [y = v[next]].  The variable [z] keeps the signed value of the
    expression, the array stores it as an unsigned word. *)
Definition enc_assign (sum e : Z) (k : list Z) (next : nat)
    (st : list Z * Z) (p : nat) : list Z * Z :=
  let '(v, z) := st in
  let y := num (v !! next) in
  let x := band (num (v !! p) + mx sum y z p e k) 0xffffffff in
  (<[p := ToUint32 x]> v, x).

(** The body of the round loop of [encryptUint32Array]. *)
Definition enc_round (k : list Z) (n : nat) (sum : Z) (st : list Z * Z) : list Z * Z :=
  let e := band (shr sum 2) 3 in
  let st := foldl (fun st p => enc_assign sum e k (p + 1) st p) st (seq 0 n) in
  enc_assign sum e k 0 st n.

(** [for (let q = ...; q > 0; q--)]: [q] rounds; the list collects the value
    of [sum] of every round that runs, in order. *)
Fixpoint enc_rounds (q : nat) (k : list Z) (n : nat) (sum : Z)
    (st : list Z * Z) (ran : list Z) : list Z * list Z :=
  match q with
  | O => (st.1, ran)
  | S q' =>
      let sum := band (sum + DELTA) 0xffffffff in
      enc_rounds q' k n sum (enc_round k n sum st) (ran ++ [sum])
  end.

(** [Math.floor(16 + 52 / length)]; [None] is [Infinity] (division by a
    length of zero).  For [length >= 1] the double-precision quotient
    [52 / length] is exact when it is an integer and otherwise lies strictly
    between two integers, by more than the rounding error of the addition,
    so the floor is the integer quotient. *)
Definition floor_16_52 (length : nat) : option Z :=
  if decide (length = 0%nat) then None else Some (16 + 52 / Z.of_nat length).

(** [encryptUint32Array(v, k)], with the sums of the rounds it ran. *)
Definition encryptUint32Array_rounds (v k : list Z) : list Z * list Z :=
  let length := length v in
  let n := (length - 1)%nat in
  let z := num (v !! n) in
  (* [Infinity | 0] is 0 *)
  let q := match floor_16_52 length with Some q => bor q 0 | None => 0 end in
  enc_rounds (Z.to_nat q) k n 0 (v, z) [].

Definition encryptUint32Array (v k : list Z) : list Z :=
  (encryptUint32Array_rounds v k).1.

(** One assignment [y = v[p] = (v[p] - mx(sum, y, z, p, e, k)) & 0xffffffff]
    with [z = v[prev]]. *)
Definition dec_assign (sum e : Z) (k : list Z) (prev : nat)
    (st : list Z * Z) (p : nat) : list Z * Z :=
  let '(v, y) := st in
  let z := num (v !! prev) in
  let x := band (num (v !! p) - mx sum y z p e k) 0xffffffff in
  (<[p := ToUint32 x]> v, x).

(** The body of the round loop of [decryptUint32Array]:
    [for (let p = n; p > 0; p--)], then the assignment to [v[0]]. *)
Definition dec_round (k : list Z) (n : nat) (sum : Z) (st : list Z * Z) : list Z * Z :=
  let e := band (shr sum 2) 3 in
  let st := foldl (fun st p => dec_assign sum e k (p - 1) st p) st (reverse (seq 1 n)) in
  dec_assign sum e k n st 0%nat.

(** The inverse of [DELTA] modulo 2^32 ([DELTA] is odd). *)
Definition DELTA_INV : Z := 0x144CBC89.

(** How many times [DELTA] has to be subtracted from [sum] (modulo 2^32)
    to reach zero: the variant of the loop of [decryptUint32Array]. *)
Definition rounds_left (sum : Z) : nat :=
  if decide (- 2 ^ 31 <= sum < 2 ^ 31)
  then Z.to_nat ((sum * DELTA_INV) `mod` 2 ^ 32)
  else Z.to_nat (2 ^ 32).

(** [for (let sum = ...; sum !== 0; sum = (sum - DELTA) & 0xffffffff)]: the
    loop runs until [sum] comes back to zero; the list collects the value of
    [sum] of every round that runs, in order. *)
Equations dec_rounds (k : list Z) (n : nat) (sum : Z)
    (st : list Z * Z) (ran : list Z) : list Z * list Z by wf (rounds_left sum) lt :=
  dec_rounds k n sum st ran with decide (sum = 0) := {
    | left _ => (st.1, ran)
    | right Hne =>
        dec_rounds k n (band (sum - DELTA) 0xffffffff)
          (dec_round k n sum st) (ran ++ [sum]) }.
Next Obligation.
  intros k n sum Hne st ran rec. unfold rounds_left.
  assert (Hb : band (sum - DELTA) 0xffffffff = ToInt32 (sum - DELTA)).
  { unfold band. change (ToInt32 0xffffffff) with (-1). apply Z.land_m1_r. }
  rewrite Hb.
  assert (Hr : - 2 ^ 31 <= ToInt32 (sum - DELTA) < 2 ^ 31).
  { unfold ToInt32. pose proof (Z.mod_pos_bound (sum - DELTA + 2 ^ 31) (2 ^ 32)). lia. }
  rewrite (decide_True _ _ Hr).
  assert (Hm : (ToInt32 (sum - DELTA) * DELTA_INV) `mod` 2 ^ 32
               = (sum * DELTA_INV - 1) `mod` 2 ^ 32).
  { unfold ToInt32.
    replace ((sum - DELTA + 2 ^ 31) `mod` 2 ^ 32 - 2 ^ 31)
      with (sum - DELTA + 2 ^ 32 * (- ((sum - DELTA + 2 ^ 31) / 2 ^ 32)))
      by (pose proof (Z.div_mod (sum - DELTA + 2 ^ 31) (2 ^ 32)); lia).
    replace ((sum - DELTA + 2 ^ 32 * - ((sum - DELTA + 2 ^ 31) / 2 ^ 32)) * DELTA_INV)
      with (sum * DELTA_INV - 1
            + (- ((sum - DELTA + 2 ^ 31) / 2 ^ 32) * DELTA_INV - 210485888) * 2 ^ 32)
      by (unfold DELTA, DELTA_INV; lia).
    apply Z.mod_add. lia. }
  rewrite Hm.
  destruct (decide (- 2 ^ 31 <= sum < 2 ^ 31)) as [Hs|Hs].
  - assert (Hnz : (sum * DELTA_INV) `mod` 2 ^ 32 ≠ 0).
    { intros H0.
      assert (Hs0 : (sum * DELTA_INV * DELTA) `mod` 2 ^ 32 = 0).
      { rewrite <- Z.mul_mod_idemp_l by lia. rewrite H0. reflexivity. }
      replace (sum * DELTA_INV * DELTA) with (sum + sum * 210485888 * 2 ^ 32) in Hs0
        by (unfold DELTA, DELTA_INV; lia).
      rewrite Z.mod_add in Hs0 by lia.
      apply Z.mod_divide in Hs0; [|lia]. destruct Hs0 as [c Hc]. lia. }
    pose proof (Z.mod_pos_bound (sum * DELTA_INV) (2 ^ 32)).
    pose proof (Z.div_mod (sum * DELTA_INV) (2 ^ 32)).
    replace (sum * DELTA_INV - 1)
      with ((sum * DELTA_INV) `mod` 2 ^ 32 - 1 + (sum * DELTA_INV / 2 ^ 32) * 2 ^ 32) by lia.
    rewrite Z.mod_add by lia. rewrite Z.mod_small by lia. lia.
  - pose proof (Z.mod_pos_bound (sum * DELTA_INV - 1) (2 ^ 32)). lia.
Qed.

(** [decryptUint32Array(v, k)], with the sums of the rounds it ran.
    [Infinity * DELTA] is [Infinity], and [Infinity & 0xffffffff] is 0. *)
Definition decryptUint32Array_rounds (v k : list Z) : list Z * list Z :=
  let length := length v in
  let n := (length - 1)%nat in
  let y := num (v !! 0%nat) in
  let sum := match floor_16_52 length with
             | Some q => band (q * DELTA) 0xffffffff
             | None => 0
             end in
  dec_rounds k n sum (v, y) [].

Definition decryptUint32Array (v k : list Z) : list Z :=
  (decryptUint32Array_rounds v k).1.


(** [hexStringToUint32Array(s)]: one word per eight code units; a slice that
    does not parse ([NaN]) is stored as 0. *)
Definition hexStringToUint32Array (s : jsstring) : list Z :=
  let count := Z.to_nat (sar (Z.of_nat (length s)) 3) in
  (fun i : nat =>
     ToUint32 (num (parseInt16
       (slice s (Z.to_nat (shl (Z.of_nat i) 3)) (Z.to_nat (shl (Z.of_nat i + 1) 3))))))
  <$> seq 0 count.

(** The two branches that undo the shift of [uint32ArrayToSafeString]; the
    second component tells whether [i++] ran.  The comparisons are false on
    [undefined]. *)
Definition unshift (c : option Z) : option Z * nat :=
  match c with
  | Some h =>
      if 0x10800 <=? h then (Some (h - 0x10800), 1%nat)
      else if 0x10000 <=? h then (Some (h + 0xD800 - 0x10000), 1%nat)
      else (Some h, 0%nat)
  | None => (None, 0%nat)
  end.

(** The loop of [safeStringToUint32Array]:
    [for (let i = 0; i < length; i += 2)] with the [i++] of its body. *)
Equations safe_words (s : jsstring) (i : nat) (v : list Z) : list Z
    by wf (length s - i)%nat lt :=
  safe_words s i v with decide (i < length s)%nat := {
    | left _ =>
        safe_words s
          (i + (unshift (codePointAt s i)).2
             + (unshift (codePointAt s (i + (unshift (codePointAt s i)).2 + 1))).2 + 2)
          (v ++ [bor (num (unshift (codePointAt s (i + (unshift (codePointAt s i)).2 + 1))).1)
                     (shl (num (unshift (codePointAt s i)).1) 16)])
    | right _ => v }.
Next Obligation. intros. lia. Qed.

(** [safeStringToUint32Array(s)]; [new Uint32Array(v)] stores every pushed
    number as an unsigned word. *)
Definition safeStringToUint32Array (s : jsstring) : list Z :=
  ToUint32 <$> safe_words s 0 [].

(** The shift of one half word into the printable range. *)
Definition shift (h : Z) : Z :=
  if h <? 32 then h + 0x10800
  else if (0xD800 <=? h) && (h <=? 0xDFFF) then h + 0x10000 - 0xD800
  else h.

(** [uint32ArrayToSafeString(data)]. *)
Definition uint32ArrayToSafeString (data : list Z) : jsstring :=
  foldl (fun result (i : nat) =>
           let high := shift (band (shr (num (data !! i)) 16) 0xffff) in
           let low := shift (band (num (data !! i)) 0xffff) in
           result ++ (fromCodePoint high ++ fromCodePoint low))
        [] (seq 0 (length data)).

(** [stringToUint32Array(s)]. *)
Definition stringToUint32Array (s : jsstring) : list Z :=
  let s := if decide (Z.of_nat (length s) `mod` 2 > 0) then s ++ [32] else s in
  let count := Z.to_nat (sar (Z.of_nat (length s)) 1) in
  (fun i : nat =>
     ToUint32 (bor (num (charCodeAt s (i * 2 + 1)))
                   (shl (num (charCodeAt s (i * 2))) 16)))
  <$> seq 0 count.

(** [uint32ArrayToString(data)]. *)
Definition uint32ArrayToString (data : list Z) : jsstring :=
  let length := Z.of_nat (length data) - 1 in
  if decide (length < 0) then []
  else
    let last := Z.to_nat length in
    let result :=
      foldl (fun result (i : nat) =>
               result ++ (fromCharCode (band (shr (num (data !! i)) 16) 0xffff)
                          ++ fromCharCode (band (num (data !! i)) 0xffff)))
            [] (seq 0 last) in
    let result := result ++ fromCharCode (band (shr (num (data !! last)) 16) 0xffff) in
    let q := fromCharCode (band (num (data !! last)) 0xffff) in
    if decide (q ≠ [32]) then result ++ q else result.

(** [target.set(source, offset)] on typed arrays: [None] is the
    [RangeError] raised when the source does not fit. *)
Definition typed_set (target source : list Z) (offset : nat) : option (list Z) :=
  if decide (offset + length source ≤ length target)%nat
  then Some (take offset target ++ (ToUint32 <$> source)
             ++ drop (offset + length source) target)
  else None.

(** [sign(s, k)]. *)
Definition sign (s k : list Z) : option (list Z) :=
  let v := replicate (length s + 4) 0 in
  v ← typed_set v k 0;
  typed_set v s 4.

(** [k.some((x, i) => x !== s[i])]. *)
Definition tag_differs (s k : list Z) : bool :=
  existsb (fun '(i, x) => bool_decide (s !! i ≠ Some x)) (imap pair k).

(** [checkSign(s, k)]. *)
Definition checkSign (s k : list Z) : list Z :=
  if tag_differs s k then [] else drop 4 s.

(** [encrypt(s, k)]; [None] when [sign] raises. *)
Definition encrypt (s k : jsstring) : option jsstring :=
  let k2 := hexStringToUint32Array k in
  v ← sign (stringToUint32Array s) (drop 4 k2);
  let d := encryptUint32Array v k2 in
  Some (uint32ArrayToSafeString d).

(** [decrypt(s, k)]. *)
Definition decrypt (s k : jsstring) : jsstring :=
  let k2 := hexStringToUint32Array k in
  let v := decryptUint32Array (safeStringToUint32Array s) k2 in
  let d := checkSign v (drop 4 k2) in
  uint32ArrayToString d.


(** Code units of an ASCII literal. *)
Definition lit (s : string) : jsstring :=
  (fun a => Z.of_nat (Ascii.nat_of_ascii a)) <$> String.list_ascii_of_string s.

(** ** allianceManager.js *)

(** A property or variable that may be [undefined] or [null]. *)
Inductive maybe (A : Type) : Type :=
  | undefined
  | null
  | val (a : A).
Arguments undefined {A}.
Arguments null {A}.
Arguments val {A} a.

Global Instance maybe_eq_dec {A} `{EqDecision A} : EqDecision (maybe A).
Proof. solve_decision. Defined.

(** Truthiness of a string and of a number that may be missing. *)
Definition truthy_str (m : maybe jsstring) : bool :=
  match m with val (_ :: _) => true | _ => false end.
Definition truthy_num (m : maybe Z) : bool :=
  match m with val z => negb (z =? 0) | _ => false end.

(** The string or number inside, for uses guarded by the truthiness test. *)
Definition str_of (m : maybe jsstring) : jsstring :=
  match m with val s => s | _ => [] end.
Definition num_of (m : maybe Z) : Z :=
  match m with val z => z | _ => 0 end.

(** [t < m] for a number [t]: [undefined] converts to [NaN], [null] to 0. *)
Definition lt_maybe (t : Z) (m : maybe Z) : bool :=
  match m with val z => t <? z | null => t <? 0 | undefined => false end.

(** The property key a value is converted to in [object[value]]. *)
Definition prop_key (m : maybe jsstring) : jsstring :=
  match m with val s => s | undefined => lit "undefined" | null => lit "null" end.

Definition COUNCIL : jsstring := lit "council".
Definition MEMBER : jsstring := lit "member".
Definition RESOURCE_ENERGY : jsstring := lit "energy".
Definition OK : Z := 0.

Definition ERR_DECRYPTION_FAILED : Z := -1.
Definition ERR_JSON_PARSE_FAILED : Z := -2.

(** The results of the read methods: the symbol [NEXT_TICK], [undefined],
    one of the error numbers (of type [E]) or a value. *)
Inductive Polled (E A : Type) : Type :=
  | NEXT_TICK
  | Undefined
  | Failed (code : E)
  | Value (a : A).
Arguments NEXT_TICK {E A}.
Arguments Undefined {E A}.
Arguments Failed {E A} code.
Arguments Value {E A} a.

Inductive Error : Type := TypeError | SyntaxError.

Inductive outcome (R : Type) : Type :=
  | Returns (r : R)
  | Throws (e : Error).
Arguments Returns {R} r.
Arguments Throws {R} e.

(** [RawMemory.foreignSegment]. *)
Record ForeignSegment : Type := {
  fs_username : jsstring;
  fs_id : Z;
  fs_data : jsstring;
}.

(** An entry of [Game.market.incomingTransactions]; [tx_sender] is
    [sender.username] when the entry has a sender. *)
Record Transaction : Type := {
  tx_time : Z;
  tx_sender : option jsstring;
  tx_resourceType : jsstring;
  tx_amount : Z;
  tx_description : maybe jsstring;
}.

(** A terminal, with the code the host answers to
    [send(RESOURCE_ENERGY, 3, room)] in this tick. *)
Record Terminal : Type := {
  terminal_my : bool;
  terminal_cooldown : Z;
  terminal_energy : Z;
  terminal_send : Z;
}.

(** A room of [Game.rooms]; [room_controller_my] is
    [room.controller && room.controller.my]. *)
Record Room : Type := {
  room_controller_my : bool;
  room_terminal : option Terminal;
}.

Inductive LogLine : Type :=
  | LogParseFailed (playerName : maybe jsstring) (segmentId : Z)
  | LogLeaderRoomUndefined
  | LogLeaderRoomHint
  | LogNoValidTerminal.

(** The persisted key record. *)
Record KeyData : Type := {
  key : maybe jsstring;
  newKey : maybe jsstring;
  expire : maybe Z;
  leaderRoom : maybe jsstring;
}.

(** The host: [Game], [RawMemory] and the console.  [activeForeignSegment]
    and [activeSegments] hold the arguments of the last call of
    [RawMemory.setActiveForeignSegment] and [RawMemory.setActiveSegments];
    [sent] lists the calls of [terminal.send] (room index, destination). *)
Record Host : Type := {
  Game_time : Z;
  foreignSegment : option ForeignSegment;
  segments : gmap Z jsstring;
  activeForeignSegment : option (maybe jsstring * Z);
  activeSegments : option (list Z);
  incomingTransactions : list Transaction;
  rooms : list Room;
  sent : list (nat * jsstring);
  console : list LogLine;
}.

Section State.

(** A value produced by [JSON.parse]. *)
Context {Json : Type}.

(** [ForeignSegmentProvider]. *)
Record Provider : Type := {
  requestedPlayerName : maybe jsstring;
  requestedSegmentId : maybe Z;
  dataRaw : maybe jsstring;
  data : maybe Json;
}.

(** The fields of [AllianceManager] used by the peer-data round robin.
    [allies] and [alliesData] are objects keyed by player name, [allies]
    in the order [Object.keys] enumerates it.  Once
    [Memory.alliesData = this.alliesData] ran, the host's [Memory] slot is
    the very object of [alliesData]. *)
Record Manager : Type := {
  allies : list (jsstring * jsstring);
  alliesData : gmap (list Z) (maybe Json);
  Memory_alliesData_bound : bool;
  myUserName : maybe jsstring;
  syncDataAllies : list jsstring;
  syncDataIndex : nat;
  nextDataSync : maybe Z;
}.

(** The whole state: host, provider, the key record of [AllianceDataSync]
    ([None] while [this.keyData] is [undefined]) and the manager. *)
Record World : Type := {
  host : Host;
  provider : Provider;
  keyData : option KeyData;
  manager : Manager;
}.

(** Methods: state passing with exceptions. *)
Definition M (R : Type) : Type := World → World * outcome R.

Definition ret {R} (r : R) : M R := fun w => (w, Returns r).
Definition throw {R} (e : Error) : M R := fun w => (w, Throws e).
Definition bind {A B} (m : M A) (k : A → M B) : M B :=
  fun w => match m w with
           | (w', Returns a) => k a w'
           | (w', Throws e) => (w', Throws e)
           end.
Definition get : M World := fun w => (w, Returns w).
Definition modify (f : World → World) : M unit := fun w => (f w, Returns tt).

Definition set_host (f : Host → Host) (w : World) : World :=
  {| host := f (host w); provider := provider w;
     keyData := keyData w; manager := manager w |}.
Definition set_provider (p : Provider) (w : World) : World :=
  {| host := host w; provider := p; keyData := keyData w; manager := manager w |}.
Definition set_keyData (r : option KeyData) (w : World) : World :=
  {| host := host w; provider := provider w; keyData := r; manager := manager w |}.
Definition set_manager (m : Manager) (w : World) : World :=
  {| host := host w; provider := provider w; keyData := keyData w; manager := m |}.

End State.

Arguments Provider : clear implicits.
Arguments Manager : clear implicits.
Arguments World : clear implicits.
Arguments M : clear implicits.

(** What the host's [JSON] gives, and the options the objects are
    constructed with. *)
Class Env (Json : Type) : Type := {
  (** [JSON.parse]; [None] when it raises a [SyntaxError]. *)
  JSON_parse : jsstring → option Json;
  (** The literal [{}]. *)
  empty_object : Json;
  (** [data.keyExpireTime], [data.room], [Object.keys(data)]. *)
  keyExpireTime : Json → maybe Z;
  room : Json → maybe jsstring;
  Object_keys : Json → list jsstring;
  (** [data.attack = undefined; data.player = undefined]. *)
  clear_attack_player : Json → Json;
  (** [JSON.parse] of the key segment: [None] when it raises, [Some None]
      for a falsy value, [Some (Some r)] for a record; and
      [JSON.stringify] of a key record. *)
  JSON_parse_keyData : jsstring → option (option KeyData);
  JSON_stringify_keyData : KeyData → jsstring;
  (** [options.playerName], the segment ids and [options.interval]. *)
  leaderPlayerName : maybe jsstring;
  keySegmentId : Z;
  segmentId : Z;
  dataSegmentId : Z;
  interval : Z;
  (** The notification passed to the constructor of [AllianceDataSync]. *)
  onKeyChanged : option (M Json unit);
}.

Definition console_log (l : LogLine) (h : Host) : Host :=
  {| Game_time := Game_time h; foreignSegment := foreignSegment h;
     segments := segments h; activeForeignSegment := activeForeignSegment h;
     activeSegments := activeSegments h;
     incomingTransactions := incomingTransactions h; rooms := rooms h;
     sent := sent h; console := console h ++ [l] |}.
Definition write_segment (id : Z) (s : option jsstring) (h : Host) : Host :=
  {| Game_time := Game_time h; foreignSegment := foreignSegment h;
     segments := (match s with
                  | Some s => <[id := s]> (segments h)
                  | None => delete id (segments h)
                  end);
     activeForeignSegment := activeForeignSegment h;
     activeSegments := activeSegments h;
     incomingTransactions := incomingTransactions h; rooms := rooms h;
     sent := sent h; console := console h |}.
Definition setActiveForeignSegment (p : maybe jsstring) (id : Z) (h : Host) : Host :=
  {| Game_time := Game_time h; foreignSegment := foreignSegment h;
     segments := segments h; activeForeignSegment := Some (p, id);
     activeSegments := activeSegments h;
     incomingTransactions := incomingTransactions h; rooms := rooms h;
     sent := sent h; console := console h |}.
Definition setActiveSegments (ids : list Z) (h : Host) : Host :=
  {| Game_time := Game_time h; foreignSegment := foreignSegment h;
     segments := segments h; activeForeignSegment := activeForeignSegment h;
     activeSegments := Some ids;
     incomingTransactions := incomingTransactions h; rooms := rooms h;
     sent := sent h; console := console h |}.
Definition terminal_sent (i : nat) (dest : jsstring) (h : Host) : Host :=
  {| Game_time := Game_time h; foreignSegment := foreignSegment h;
     segments := segments h; activeForeignSegment := activeForeignSegment h;
     activeSegments := activeSegments h;
     incomingTransactions := incomingTransactions h; rooms := rooms h;
     sent := sent h ++ [(i, dest)]; console := console h |}.

Section Sync.

Context {Json : Type} `{!Env Json}.

Abbreviation Provider := (Provider Json).
Abbreviation Manager := (Manager Json).
Abbreviation World := (World Json).
Abbreviation M := (M Json).
Notation "'do' x <- m ; k" := (bind m (fun x => k))
  (at level 10, x name, m at level 100, k at level 200).

(** *** ForeignSegmentProvider *)

(** What [read] and [readSegment] return: with [raw] the stored string,
    and no error number; without, the parsed value or
    [ERR_JSON_PARSE_FAILED]. *)
Definition ReadResult (raw : bool) : Type :=
  if raw then Polled Empty_set jsstring else Polled Z Json.

(** The guard of [read]: the data of the foreign segment when it passes. *)
Definition settled (w : World) : option jsstring :=
  let '(username, id, data) :=
    match foreignSegment (host w) with
    | Some fs => (val (fs_username fs), val (fs_id fs), val (fs_data fs))
    | None => (undefined, undefined, undefined)
    end in
  if bool_decide (username ≠ requestedPlayerName (provider w))
     || bool_decide (id ≠ requestedSegmentId (provider w))
     || negb (truthy_str data)
  then None else Some (str_of data).

(** [read(raw)]. *)
Definition read (raw : bool) : M (ReadResult raw) :=
  do w <- get;
  match settled w with
  | None => ret (if raw return ReadResult raw then Undefined else Undefined)
  | Some d =>
      match raw return M (ReadResult raw) with
      | true =>
          do _ <- modify (set_provider
                {| requestedPlayerName := requestedPlayerName (provider w);
                   requestedSegmentId := requestedSegmentId (provider w);
                   dataRaw := val d; data := undefined |});
          ret (Value d)
      | false =>
          match JSON_parse d with
          | Some j =>
              do _ <- modify (set_provider
                    {| requestedPlayerName := requestedPlayerName (provider w);
                       requestedSegmentId := requestedSegmentId (provider w);
                       dataRaw := val d; data := val j |});
              ret (Value j)
          | None =>
              do _ <- modify (set_host (console_log
                    (LogParseFailed (requestedPlayerName (provider w))
                                    (num_of (requestedSegmentId (provider w))))));
              ret (Failed ERR_JSON_PARSE_FAILED)
          end
      end
  end.

(** [requestSegment(playerName, segmentId)]. *)
Definition requestSegment (playerName : maybe jsstring) (id : Z) : M unit :=
  do _ <- modify (set_provider
        {| requestedPlayerName := playerName; requestedSegmentId := val id;
           dataRaw := undefined; data := undefined |});
  modify (set_host (setActiveForeignSegment playerName id)).

(** [readSegment(playerName, segmentId, raw)]. *)
Definition readSegment (playerName : maybe jsstring) (id : Z) (raw : bool)
    : M (ReadResult raw) :=
  do w <- get;
  if bool_decide (requestedPlayerName (provider w) ≠ playerName)
     || bool_decide (requestedSegmentId (provider w) ≠ val id)
  then
    do _ <- requestSegment playerName id;
    ret (if raw return ReadResult raw then NEXT_TICK else NEXT_TICK)
  else read raw.

(** [s.charAt(0) !== '{']. *)
Definition not_brace (s : jsstring) : bool :=
  bool_decide (take 1 s ≠ lit "{").

(** [readEncryptedSegment(playerName, segmentId, key)].  A text whose
    first character is ['{'] parses to an object or not at all. *)
Definition readEncryptedSegment (playerName : maybe jsstring) (id : Z)
    (k : jsstring) : M (Polled Z Json) :=
  do data <- (readSegment playerName id true : M (Polled Empty_set jsstring));
  match data with
  | Value [] => ret (Value empty_object)
  | NEXT_TICK => ret NEXT_TICK
  | Undefined => ret Undefined
  | Failed e => match e : Empty_set with end
  | Value d =>
      let s := decrypt d k in
      if not_brace s then ret (Failed ERR_DECRYPTION_FAILED)
      else match JSON_parse s with
           | Some j => ret (Value j)
           | None =>
               do _ <- modify (set_host (console_log (LogParseFailed playerName id)));
               ret (Failed ERR_JSON_PARSE_FAILED)
           end
  end.

(** *** AllianceDataSync *)

(** [this.keyData] where a property of it is read or written: a
    [TypeError] while it is [undefined]. *)
Definition the_keyData : M KeyData :=
  do w <- get;
  match keyData w with
  | Some r => ret r
  | None => throw TypeError
  end.

(** [saveKeyData()]; [JSON.stringify(undefined)] is [undefined]. *)
Definition saveKeyData : M unit :=
  do w <- get;
  modify (set_host (write_segment keySegmentId
                      (JSON_stringify_keyData <$> keyData w))).

(** The body of the loop of [readKeyFromTransactions]; [i] counts the
    entries passed over. *)
Fixpoint scan_transactions (txs : list Transaction) (i : Z) : M bool :=
  match txs with
  | [] => ret false
  | transaction :: rest =>
      do w <- get;
      if Game_time (host w) >? tx_time transaction + 1000 then ret false
      else
        let next : M bool :=
          if i + 1 >=? 30 then ret false else scan_transactions rest (i + 1) in
        if bool_decide (val <$> tx_sender transaction = Some leaderPlayerName)
           && bool_decide (tx_resourceType transaction = RESOURCE_ENERGY)
           && (tx_amount transaction =? 3)
        then
          match tx_description transaction with
          | val description =>
              if bool_decide (length description = 66%nat) then
                do r <- the_keyData;
                do _ <- modify (set_keyData (Some
                      {| key := key r; newKey := val (drop 2 description);
                         expire := expire r; leaderRoom := leaderRoom r |}));
                do _ <- saveKeyData;
                ret true
              else if bool_decide (length description = 64%nat) then
                do r <- the_keyData;
                do _ <- modify (set_keyData (Some
                      {| key := val description; newKey := newKey r;
                         expire := expire r; leaderRoom := leaderRoom r |}));
                do _ <- saveKeyData;
                ret true
              else next
          | _ => throw TypeError
          end
        else next
  end.

(** [readKeyFromTransactions()]. *)
Definition readKeyFromTransactions : M bool :=
  do w <- get;
  scan_transactions (incomingTransactions (host w)) 0.

(** [readKeyFromLocalSegment()]. *)
Definition readKeyFromLocalSegment : M bool :=
  do w <- get;
  match segments (host w) !! keySegmentId with
  | None =>
      do _ <- modify (set_host (setActiveSegments [keySegmentId]));
      ret false
  | Some d =>
      let default := {| key := undefined; newKey := undefined;
                        expire := null; leaderRoom := undefined |} in
      match d with
      | [] => do _ <- modify (set_keyData (Some default)); ret true
      | _ =>
          match JSON_parse_keyData d with
          | None => throw SyntaxError
          | Some None => do _ <- modify (set_keyData (Some default)); ret true
          | Some (Some r) => do _ <- modify (set_keyData (Some r)); ret true
          end
      end
  end.

(** [getValidTerminal(room)]. *)
Definition getValidTerminal (r : Room) : option Terminal :=
  match room_terminal r with
  | Some t => if room_controller_my r && terminal_my t then Some t else None
  | None => None
  end.

(** [setKeyData(expire, leaderRoom)]. *)
Definition setKeyData (e : maybe Z) (l : maybe jsstring) : M unit :=
  do r <- the_keyData;
  if bool_decide (e = expire r) && bool_decide (l = leaderRoom r) then ret tt
  else
    do _ <- modify (set_keyData (Some
          {| key := key r; newKey := newKey r; expire := e; leaderRoom := l |}));
    saveKeyData.

(** [clearKey()]. *)
Definition clearKey : M unit :=
  do r <- the_keyData;
  do _ <- modify (set_keyData (Some
        {| key := undefined; newKey := newKey r;
           expire := expire r; leaderRoom := leaderRoom r |}));
  saveKeyData.

(** [updateExpiredKey()]. *)
Definition updateExpiredKey : M bool :=
  do r <- the_keyData;
  do w <- get;
  if truthy_str (key r) && truthy_num (expire r)
     && (Game_time (host w) >=? num_of (expire r))
  then
    do _ <- modify (set_keyData (Some
          {| key := newKey r; newKey := undefined;
             expire := null; leaderRoom := leaderRoom r |}));
    do _ <- saveKeyData;
    do _ <- (if truthy_str (newKey r)
         then match onKeyChanged with Some notify => notify | None => ret tt end
         else ret tt);
    ret true
  else ret false.

(** The loop of [requestKey] over [Game.rooms]; the result is
    [hasValidTerminal]. *)
Fixpoint send_request (dest : jsstring) (rs : list (nat * Room))
    (hasValidTerminal : bool) : M bool :=
  match rs with
  | [] => ret hasValidTerminal
  | (i, r) :: rest =>
      match getValidTerminal r with
      | Some terminal =>
          if (terminal_cooldown terminal =? 0) && (terminal_energy terminal >=? 10)
          then
            do _ <- modify (set_host (terminal_sent i dest));
            if terminal_send terminal =? OK then ret true
            else send_request dest rest true
          else send_request dest rest true
      | None => send_request dest rest hasValidTerminal
      end
  end.

(** [requestKey()]: [NEXT_TICK] or [undefined]. *)
Definition requestKey : M (Polled Z Json) :=
  do r <- the_keyData;
  if truthy_str (newKey r) then ret Undefined
  else
    do found <- readKeyFromTransactions;
    if found then ret NEXT_TICK
    else
      do r <- the_keyData;
      if negb (truthy_str (leaderRoom r)) then
        do _ <- modify (set_host (console_log LogLeaderRoomUndefined));
        do _ <- modify (set_host (console_log LogLeaderRoomHint));
        ret NEXT_TICK
      else
        do w <- get;
        do hasValidTerminal <- send_request (str_of (leaderRoom r))
                             (imap pair (rooms (host w))) false;
        if negb hasValidTerminal then
          do _ <- modify (set_host (console_log LogNoValidTerminal));
          ret NEXT_TICK
        else ret Undefined.

(** [readAllyData(playerName)].  [Object.keys] of an error number is the
    empty array, so the error numbers leave as [undefined]. *)
Definition readAllyData (playerName : maybe jsstring) : M (Polled Empty_set Json) :=
  do r <- the_keyData;
  if negb (truthy_str (key r)) then ret Undefined
  else
    do data <- readEncryptedSegment playerName dataSegmentId (str_of (key r));
    match data with
    | NEXT_TICK => ret NEXT_TICK
    | Undefined => ret Undefined
    | Failed _ => ret Undefined
    | Value j =>
        if bool_decide (length (Object_keys j) = 0%nat) then ret Undefined
        else ret (Value j)
    end.

(** [syncMember()]. *)
Definition syncMember : M (Polled Z Json) :=
  do w <- get;
  do loaded <- (match keyData w with
            | None => readKeyFromLocalSegment
            | Some _ => ret true
            end);
  if negb loaded then ret NEXT_TICK
  else
    do expired <- updateExpiredKey;
    if expired then ret NEXT_TICK
    else
      do r <- the_keyData;
      do w <- get;
      if negb (truthy_str (key r))
         || (truthy_num (expire r)
             && (Game_time (host w) >=? num_of (expire r) - 1000))
      then requestKey
      else
        let useNewKey := truthy_str (newKey r) && negb (truthy_num (expire r)) in
        do data <- readEncryptedSegment leaderPlayerName segmentId
                 (str_of (if useNewKey then newKey r else key r));
        match data with
        | NEXT_TICK | Undefined => ret NEXT_TICK
        | Failed code =>
            if code =? ERR_JSON_PARSE_FAILED then ret Undefined
            else if code =? ERR_DECRYPTION_FAILED then
              if useNewKey then ret Undefined
              else
                do _ <- modify (set_keyData (Some
                      {| key := undefined; newKey := undefined;
                         expire := null; leaderRoom := leaderRoom r |}));
                do _ <- saveKeyData;
                ret NEXT_TICK
            else ret (Failed code)
        | Value j =>
            do _ <- (if truthy_num (keyExpireTime j) || truthy_str (room j)
                 then setKeyData
                        (if truthy_num (keyExpireTime j) then keyExpireTime j else null)
                        (room j)
                 else ret tt);
            ret (Value j)
        end.

(** *** AllianceManager *)

(** [hasPermissionPublishRequests(allyStatus)]. *)
Definition hasPermissionPublishRequests (allyStatus : maybe jsstring) : bool :=
  bool_decide (allyStatus = val COUNCIL) || bool_decide (allyStatus = val MEMBER).

(** [this.allies[playerName]]. *)
Definition getAllyStatus (m : Manager) (playerName : jsstring) : maybe jsstring :=
  match list_find (fun e => e.1 = playerName) (allies m) with
  | Some (_, e) => val e.2
  | None => undefined
  end.

(** [applyPermissions(data, allyStatus)]. *)
Definition applyPermissions (d : maybe Json) (allyStatus : maybe jsstring) : maybe Json :=
  match d with
  | val j => if bool_decide (allyStatus = val MEMBER)
             then val (clear_attack_player j) else val j
  | _ => undefined
  end.

(** [updateSyncDataAllies()]. *)
Definition updateSyncDataAllies : M unit :=
  do w <- get;
  let m := manager w in
  modify (set_manager
    {| allies := allies m;
       alliesData :=
         map_imap (fun playerName d =>
                     Some (if hasPermissionPublishRequests (getAllyStatus m playerName)
                           then d else undefined))
                  (alliesData m);
       Memory_alliesData_bound := Memory_alliesData_bound m;
       myUserName := myUserName m;
       syncDataAllies :=
         filter (fun playerName =>
                   val playerName ≠ myUserName m
                   ∧ hasPermissionPublishRequests (getAllyStatus m playerName) = true)
                ((allies m).*1);
       syncDataIndex := 0;
       nextDataSync := nextDataSync m |}).

(** [this.syncDataAllies[this.syncDataIndex]]: the peer the next cycle
    polls. *)
Definition polled_peer (m : Manager) : maybe jsstring :=
  match syncDataAllies m !! syncDataIndex m with
  | Some playerName => val playerName
  | None => undefined
  end.

(** [syncAlliesData()].  [readAllyData] returns neither error number,
    so the branch that only logs a failed decryption is never taken and
    every result other than [NEXT_TICK] is stored. *)
Definition syncAlliesData : M unit :=
  do w <- get;
  if lt_maybe (Game_time (host w)) (nextDataSync (manager w)) then ret tt
  else
    let playerName := polled_peer (manager w) in
    do d <- readAllyData playerName;
    match d with
    | NEXT_TICK => ret tt
    | Failed e => match e : Empty_set with end
    | _ =>
        do w <- get;
        let m := manager w in
        let stored :=
          applyPermissions (match d with Value j => val j | _ => undefined end)
                           (getAllyStatus m (prop_key playerName)) in
        let index := (syncDataIndex m + 1)%nat in
        let index := if bool_decide (length (syncDataAllies m) ≤ index)%nat
                     then 0%nat else index in
        modify (set_manager
          {| allies := allies m;
             alliesData := <[prop_key playerName := stored]> (alliesData m);
             Memory_alliesData_bound := true;
             myUserName := myUserName m;
             syncDataAllies := syncDataAllies m;
             syncDataIndex := index;
             nextDataSync :=
               (if (match d with Value _ => true | _ => false end)
                   || bool_decide (index = 0%nat)
                then val (Game_time (host w) + interval)
                else nextDataSync m) |})
    end.

(** ** Auxiliary definitions for the synchronisation proofs *)

(** Whether a read handed data to its caller. *)
Definition delivered {raw : bool} (r : outcome (ReadResult raw)) : bool :=
  match r with
  | Returns x =>
      (if raw return ReadResult raw → bool
       then fun x => match x with Value _ => true | _ => false end
       else fun x => match x with Value _ => true | _ => false end) x
  | Throws _ => false
  end.

(** What happens to a provider over the ticks: the host replaces its
    state, or the owner calls [read] or [readSegment]. *)
Inductive Step : Type :=
  | HostStep (h : Host)
  | CallRead (raw : bool)
  | CallReadSegment (playerName : maybe jsstring) (id : Z) (raw : bool).

(** The data handed out along a run: for every call that delivers, the
    foreign segment it read and the target of the most recent
    [readSegment] ([target] when there was none yet). *)
Fixpoint deliveries (steps : list Step) (target : maybe jsstring * maybe Z)
    (w : World) : list (option ForeignSegment * (maybe jsstring * maybe Z)) :=
  match steps with
  | [] => []
  | HostStep h :: rest => deliveries rest target (set_host (fun _ => h) w)
  | CallRead raw :: rest =>
      (if delivered (read raw w).2 then [(foreignSegment (host w), target)] else [])
      ++ deliveries rest target (read raw w).1
  | CallReadSegment p id raw :: rest =>
      (if delivered (readSegment p id raw w).2
       then [(foreignSegment (host w), (p, val id))] else [])
      ++ deliveries rest (p, val id) (readSegment p id raw w).1
  end.

(** The target a provider is subscribed to. *)
Definition requested (w : World) : maybe jsstring * maybe Z :=
  (requestedPlayerName (provider w), requestedSegmentId (provider w)).

(** The state [requestSegment] leaves. *)
Definition retargeted (playerName : maybe jsstring) (id : Z) (w : World) : World :=
  set_host (setActiveForeignSegment playerName id)
    (set_provider {| requestedPlayerName := playerName; requestedSegmentId := val id;
                     dataRaw := undefined; data := undefined |} w).

(** The key record once persisted. *)
Definition persisted (r : KeyData) (w : World) : World :=
  set_host (write_segment keySegmentId (Some (JSON_stringify_keyData r)))
    (set_keyData (Some r) w).

(** [syncMember] called once per tick, the host replacing its state before
    each call: the results, and the final state. *)
Fixpoint sync_ticks (hs : list Host) (w : World)
    : list (outcome (Polled Z Json)) * World :=
  match hs with
  | [] => ([], w)
  | h :: rest =>
      let '(w', r) := syncMember (set_host (fun _ => h) w) in
      let '(rs, w'') := sync_ticks rest w' in
      (r :: rs, w'')
  end.

(** A cycle of the peer-data round robin: a call of [syncAlliesData] under
    an active key that passes the interval gate and whose poll is not
    pending. *)
Definition is_cycle (w : World) : Prop :=
  lt_maybe (Game_time (host w)) (nextDataSync (manager w)) = false
  ∧ (∃ r, keyData w = Some r ∧ truthy_str (key r) = true)
  ∧ ∃ w1 d, readAllyData (polled_peer (manager w)) w = (w1, Returns d) ∧ d ≠ NEXT_TICK.

(** What may happen between two cycles: anything that leaves the roster
    and the cursor alone. *)
Definition same_cursor (w w' : World) : Prop :=
  syncDataAllies (manager w') = syncDataAllies (manager w)
  ∧ syncDataIndex (manager w') = syncDataIndex (manager w).

(** Consecutive cycles, with the segments they read: for each cycle, the
    player and the segment the provider is subscribed to when the poll is
    answered. *)
Inductive cycles : World → list (maybe jsstring * maybe Z) → World → Prop :=
  | cycles_nil w : cycles w [] w
  | cycles_cons w w1 ps w2 :
      same_cursor w w1 → is_cycle w1 →
      cycles (syncAlliesData w1).1 ps w2 →
      cycles w (requested w1 :: ps) w2.

(** The cursor after one cycle over a roster of [k] peers, after [n]
    cycles, and the peers [n] cycles poll from cursor [i]. *)
Definition next_index (k i : nat) : nat :=
  if decide (k ≤ i + 1)%nat then 0%nat else (i + 1)%nat.

Fixpoint cursor_after (k i n : nat) : nat :=
  match n with
  | O => i
  | S n' => cursor_after k (next_index k i) n'
  end.

Fixpoint round_robin (l : list jsstring) (i n : nat) : list jsstring :=
  match n with
  | O => []
  | S n' =>
      match l !! i with
      | Some p => p :: round_robin l (next_index (length l) i) n'
      | None => []
      end
  end.

(** The state [read] leaves when it returns the raw data. *)
Definition stored_raw (d : jsstring) (w : World) : World :=
  set_provider {| requestedPlayerName := requestedPlayerName (provider w);
                  requestedSegmentId := requestedSegmentId (provider w);
                  dataRaw := val d; data := undefined |} w.

End Sync.

(** ** allianceManager.js: the write path and the entry points *)

(** What the write path needs of the values it publishes. *)
Class Publish (Json : Type) : Type := {
  (** [JSON.stringify(data)] of a value: [Returns None] when the result is
      [undefined], [Throws] when it raises (a cyclic structure). *)
  JSON_stringify : Json → outcome (option jsstring);
  (** The properties [for (const key in data)] enumerates, in its order,
      each with the truthiness of [data[key]]. *)
  for_in : Json → list (jsstring * bool);
}.

(** What [syncAllies] reads of the roster of the leader. *)
Class Roster (Json : Type) : Type := {
  (** [data.allies] when it is truthy: its keys in the order of
      [Object.keys], each with its status. *)
  data_allies : Json → option (list (jsstring * jsstring));
}.

(** The loop of [isEmptyObject(data)] over the enumerated properties. *)
Fixpoint isEmptyObject_loop (props : list (jsstring * bool)) : bool :=
  match props with
  | [] => true
  | (_, truthy) :: rest => if truthy then false else isEmptyObject_loop rest
  end.

(** [isEmptyObject(data)]. *)
Definition isEmptyObject {Json} `{!Publish Json} (data : Json) : bool :=
  isEmptyObject_loop (for_in data).

(** [ERR_TIRED] of the game's constants. *)
Definition ERR_TIRED : Z := -11.

(** The replacement of [StructureTerminal.prototype.send], on a terminal
    whose flag [this.isUsed] is [isUsed]; [sendOriginal] is the code the
    original method answers when it is called.  The result and the flag. *)
Definition send (sendOriginal : Z) (isUsed : bool) : Z * bool :=
  if isUsed then (ERR_TIRED, isUsed)
  else (sendOriginal, if sendOriginal =? OK then true else isUsed).

(** Consecutive calls on one terminal object, [originals] being the
    answers the original method has in store: the results and the flag. *)
Fixpoint sends (originals : list Z) (isUsed : bool) : list Z * bool :=
  match originals with
  | [] => ([], isUsed)
  | o :: rest =>
      let '(res, isUsed) := send o isUsed in
      let '(results, isUsed) := sends rest isUsed in
      (res :: results, isUsed)
  end.

Section Entry.

Context {Json : Type} `{!Env Json} `{!Publish Json} `{!Roster Json}.

Abbreviation Manager := (Manager Json).
Abbreviation World := (World Json).
Abbreviation M := (M Json).
Notation "'do' x <- m ; k" := (bind m (fun x => k))
  (at level 10, x name, m at level 100, k at level 200).

(** The write path raises the errors of the read path and the
    [RangeError] of [sign]; it changes nothing before it raises. *)
Inductive WriteResult : Type :=
  | Wrote (w : World)
  | Raises (e : Error)
  | RaisesRangeError.

(** [JSON.stringify(data)] of a value that may be [undefined] or [null]. *)
Definition stringify (data : maybe Json) : outcome (option jsstring) :=
  match data with
  | undefined => Returns None
  | null => Returns (Some (lit "null"))
  | val j => JSON_stringify j
  end.

(** What [writeSegment] is given: with [raw] a string, without a value. *)
Definition WriteData (raw : bool) : Type :=
  if raw then jsstring else maybe Json.

(** [writeSegment(segmentId, data, raw)]; a result [undefined] of
    [JSON.stringify] leaves the segment [undefined]. *)
Definition writeSegment (id : Z) (raw : bool) (data : WriteData raw) (w : World)
    : WriteResult :=
  match raw return WriteData raw → WriteResult with
  | true => fun s => Wrote (set_host (write_segment id (Some s)) w)
  | false => fun d =>
      match stringify d with
      | Returns s => Wrote (set_host (write_segment id s) w)
      | Throws e => Raises e
      end
  end data.

(** [writeEncryptedSegment(segmentId, data, key)]; [encrypt] reads
    [k.length], a [TypeError] on a key that is [undefined] or [null]. *)
Definition writeEncryptedSegment (id : Z) (data : maybe Json) (k : maybe jsstring)
    (w : World) : WriteResult :=
  match stringify data with
  | Throws e => Raises e
  | Returns (Some (c :: s)) =>
      match k with
      | val k =>
          match encrypt (c :: s) k with
          | Some text => writeSegment id true text w
          | None => RaisesRangeError
          end
      | _ => Raises TypeError
      end
  | Returns _ => writeSegment id true [] w
  end.

(** [publishAllies(data)]. *)
Definition publishAllies (data : maybe Json) (w : World) : WriteResult :=
  match keyData w with
  | Some r => writeEncryptedSegment segmentId data (key r) w
  | None => Raises TypeError
  end.

(** [writeMyData(data)]. *)
Definition writeMyData (data : Json) (w : World) : WriteResult :=
  match keyData w with
  | Some r =>
      if negb (truthy_str (key r)) then Wrote w
      else
        let _data := if isEmptyObject data then undefined else val data in
        writeEncryptedSegment dataSegmentId _data (key r) w
  | None => Raises TypeError
  end.

(** [this.interval] of [AllianceDataSync]: [options.interval || 100]. *)
Definition sync_interval (option_interval : maybe Z) : Z :=
  if truthy_num option_interval then num_of option_interval else 100.

(** [AllianceDataSync.sync()], with [this.nextSyncTime] passed along and
    handed back; [option_interval] is [options.interval] of the
    constructor.  When [syncMember] raises, [nextSyncTime] is as before. *)
Definition sync (option_interval : maybe Z) (nextSyncTime : Z) : M (Polled Z Json * Z) :=
  do w <- get;
  if Game_time (host w) <? nextSyncTime then ret (Undefined, nextSyncTime)
  else
    do data <- syncMember;
    do w <- get;
    ret (data,
         match data with
         | NEXT_TICK => nextSyncTime
         | _ => Game_time (host w) + sync_interval option_interval
         end).

(** [this.allies = data.allies]. *)
Definition set_allies (a : list (jsstring * jsstring)) (m : Manager) : Manager :=
  {| allies := a; alliesData := alliesData m;
     Memory_alliesData_bound := Memory_alliesData_bound m;
     myUserName := myUserName m; syncDataAllies := syncDataAllies m;
     syncDataIndex := syncDataIndex m; nextDataSync := nextDataSync m |}.

(** [syncAllies()], with [this.dataSync.nextSyncTime] passed along and
    handed back. *)
Definition syncAllies (option_interval : maybe Z) (nextSyncTime : Z) : M (bool * Z) :=
  do polled <- sync option_interval nextSyncTime;
  match polled.1 with
  | NEXT_TICK => ret (false, polled.2)
  | Value j =>
      match data_allies j with
      | Some a =>
          do w <- get;
          do _ <- modify (set_manager (set_allies a (manager w)));
          do _ <- updateSyncDataAllies;
          ret (true, polled.2)
      | None => ret (true, polled.2)
      end
  | _ => ret (true, polled.2)
  end.

(** [AllianceManager.sync()] of a manager constructed with synchronisation
    enabled; [this.dataSync.isEnabled] is [Boolean(leaderPlayerName)], and
    the result is [this.dataSync.nextSyncTime]. *)
Definition manager_sync (option_interval : maybe Z) (nextSyncTime : Z) : M Z :=
  if negb (truthy_str leaderPlayerName) then ret nextSyncTime
  else
    do synced <- syncAllies option_interval nextSyncTime;
    if negb synced.1 then ret synced.2
    else
      do _ <- syncAlliesData;
      ret synced.2.

End Entry.

(** ** Auxiliary definitions for the proofs about transfers and entry points *)

(** A room whose terminal the loop of [requestKey] sends from: the
    terminal is valid, off cooldown and holds at least 10 energy. *)
Definition ready (r : Room) : bool :=
  match getValidTerminal r with
  | Some t => (terminal_cooldown t =? 0) && (terminal_energy t >=? 10)
  | None => false
  end.

(** A room whose terminal is ready and whose transfer the host accepts. *)
Definition accepted (r : Room) : bool :=
  ready r && match room_terminal r with
             | Some t => terminal_send t =? OK
             | None => false
             end.

(** The rooms the loop visits: up to and including the first accepted. *)
Definition visited (rs : list (nat * Room)) : list (nat * Room) :=
  match list_find (fun ir => accepted ir.2 = true) rs with
  | Some (n, _) => take (S n) rs
  | None => rs
  end.

(** The host after the calls [attempts] of [terminal.send]. *)
Definition add_sent (attempts : list (nat * jsstring)) (h : Host) : Host :=
  {| Game_time := Game_time h; foreignSegment := foreignSegment h;
     segments := segments h; activeForeignSegment := activeForeignSegment h;
     activeSegments := activeSegments h;
     incomingTransactions := incomingTransactions h; rooms := rooms h;
     sent := sent h ++ attempts; console := console h |}.

Section Transfers.

Context {Json : Type} `{!Env Json}.

Abbreviation World := (World Json).
Abbreviation M := (M Json).
Notation "'do' x <- m ; k" := (bind m (fun x => k))
  (at level 10, x name, m at level 100, k at level 200).

(** The test of [readKeyFromTransactions] for a transfer of the leader:
    three units of energy sent by the leader. *)
Definition from_leader (t : Transaction) : bool :=
  bool_decide (val <$> tx_sender t = Some leaderPlayerName)
  && bool_decide (tx_resourceType t = RESOURCE_ENERGY)
  && (tx_amount t =? 3).

(** A transfer the scan passes over: not such a transfer of the leader, or
    one whose description has neither 66 nor 64 code units. *)
Definition passed_over (t : Transaction) : Prop :=
  from_leader t = false
  ∨ ∃ d, tx_description t = val d ∧ length d ≠ 66%nat ∧ length d ≠ 64%nat.

(** A transfer at most 1000 ticks old. *)
Definition recent (now : Z) (t : Transaction) : Prop := now <= tx_time t + 1000.

(** A transfer whose description can be measured: one of the leader
    carries a string. *)
Definition described (t : Transaction) : Prop :=
  from_leader t = true → ∃ d, tx_description t = val d.

(** [syncMember] from [updateExpiredKey] on: what runs once the key record
    is loaded. *)
Definition syncMember_loaded_record : M (Polled Z Json) :=
  do expired <- updateExpiredKey;
  if expired then ret NEXT_TICK
  else
    do r <- the_keyData;
    do w <- get;
    if negb (truthy_str (key r))
       || (truthy_num (expire r)
           && (Game_time (host w) >=? num_of (expire r) - 1000))
    then requestKey
    else
      let useNewKey := truthy_str (newKey r) && negb (truthy_num (expire r)) in
      do data <- readEncryptedSegment leaderPlayerName segmentId
               (str_of (if useNewKey then newKey r else key r));
      match data with
      | NEXT_TICK | Undefined => ret NEXT_TICK
      | Failed code =>
          if code =? ERR_JSON_PARSE_FAILED then ret Undefined
          else if code =? ERR_DECRYPTION_FAILED then
            if useNewKey then ret Undefined
            else
              do _ <- modify (set_keyData (Some
                    {| key := undefined; newKey := undefined;
                       expire := null; leaderRoom := leaderRoom r |}));
              do _ <- saveKeyData;
              ret NEXT_TICK
          else ret (Failed code)
      | Value j =>
          do _ <- (if truthy_num (keyExpireTime j) || truthy_str (room j)
               then setKeyData
                      (if truthy_num (keyExpireTime j) then keyExpireTime j else null)
                      (room j)
               else ret tt);
          ret (Value j)
      end.

(** The key-changed notification leaves a loaded key record loaded. *)
Definition notification_keeps_record : Prop :=
  ∀ notify (w : World), onKeyChanged = Some notify →
    is_Some (keyData w) → is_Some (keyData (notify w).1).

(** The key-changed notification returns. *)
Definition notification_returns : Prop :=
  ∀ notify (w : World), onKeyChanged = Some notify →
    ∃ w', notify w = (w', Returns tt).

(** A host whose key segment holds a text that does not parse. *)
Definition corrupt_key_segment (h : Host) : Prop :=
  ∃ c d, segments h !! keySegmentId = Some (c :: d)
         ∧ JSON_parse_keyData (c :: d) = None.

(** The key record is loaded before the gate of [sync] first closes. *)
Definition loaded_before (nextSyncTime : Z) (w : World) : Prop :=
  keyData w = None → nextSyncTime <= Game_time (host w).

End Transfers.

(** ** Auxiliary definitions for the cipher proofs *)

(** A word of a [Uint32Array]. *)
Definition is_word (x : Z) : Prop := 0 <= x < 2 ^ 32.

(** Cyclic neighbours of index [p] in an array of [L] words. *)
Definition nextL (L p : nat) : nat := if decide (p + 1 = L)%nat then 0%nat else (p + 1)%nat.
Definition prevL (L p : nat) : nat := if decide (p = 0)%nat then (L - 1)%nat else (p - 1)%nat.

(** The array after one assignment of a round, written on the array alone:
    both neighbours are read from it. *)
Definition word_update (sgn sum e : Z) (k : list Z) (L : nat) (v : list Z) (p : nat) : list Z :=
  <[p := ToUint32 (num (v !! p)
                   + sgn * mx sum (num (v !! nextL L p)) (num (v !! prevL L p)) p e k)]> v.

(** The carried variable of step [p] was written at [link p] by the step
    before; [c] is where it lives when the list starts. *)
Fixpoint chained (link : nat → nat) (L c : nat) (ps : list nat) : Prop :=
  match ps with
  | [] => True
  | p :: r => (p < L)%nat ∧ link p = c ∧ chained link L p r
  end.

(** A whole round on the array alone: the assignments in increasing order
    of index (encryption), in decreasing order (decryption). *)
Definition enc_pure (k : list Z) (L : nat) (v : list Z) (sum : Z) : list Z :=
  foldl (word_update 1 sum (band (shr sum 2) 3) k L) v (seq 0 L).
Definition dec_pure (k : list Z) (L : nat) (v : list Z) (sum : Z) : list Z :=
  foldl (word_update (-1) sum (band (shr sum 2) 3) k L) v (reverse (seq 0 L)).

(** The value of [sum] in round [i] of the encryption. *)
Definition sum_at (i : nat) : Z := ToInt32 (Z.of_nat i * DELTA).

(** The code units [uint32ArrayToSafeString] emits for one word, and the
    number [safeStringToUint32Array] pushes when it reads them back. *)
Definition safe_word (w : Z) : jsstring :=
  fromCodePoint (shift (band (shr w 16) 0xffff)) ++ fromCodePoint (shift (band w 0xffff)).
Definition repacked (w : Z) : Z :=
  bor (band w 0xffff) (shl (band (shr w 16) 0xffff) 16).

(** A code point that [codePointAt] reads back from [fromCodePoint]. *)
Definition scalar (c : Z) : Prop :=
  (0 <= c <= 0xFFFF ∧ ¬ (0xD800 <= c <= 0xDFFF)) ∨ (0x10000 <= c <= 0x10FFFF).

(** Two code units per word, the first in the upper half. *)
Fixpoint pairs_words (s : jsstring) : list Z :=
  match s with
  | a :: b :: r => ToUint32 (bor b (shl a 16)) :: pairs_words r
  | _ => []
  end.

(** The two code units [uint32ArrayToString] emits for a word that is not
    the last one. *)
Definition both_units (w : Z) : jsstring :=
  fromCharCode (band (shr w 16) 0xffff) ++ fromCharCode (band w 0xffff).

(** What [uint32ArrayToString] makes of the words of a string: an even
    number of code units ending in a space loses that space. *)
Definition stripped (s : jsstring) : jsstring :=
  if decide (Z.of_nat (length s) `mod` 2 = 0 ∧ List.last s 0 = 32)
  then removelast s else s.

(** A string the host can hold: 16-bit code units, and a length below the
    limit of every engine. *)
Definition representable (s : jsstring) : Prop :=
  Forall is_code_unit s ∧ Z.of_nat (length s) < 2 ^ 30.

(** Well-formed UTF-16: every leading surrogate is followed by a trailing
    one, and no trailing surrogate stands alone. *)
Definition is_lead (c : Z) : bool := (0xD800 <=? c) && (c <=? 0xDBFF).
Definition is_trail (c : Z) : bool := (0xDC00 <=? c) && (c <=? 0xDFFF).

Fixpoint well_formed (s : jsstring) : bool :=
  match s with
  | [] => true
  | c :: r =>
      if is_lead c then
        match r with
        | d :: r' => is_trail d && well_formed r'
        | [] => false
        end
      else negb (is_trail c) && well_formed r
  end.

(** A code unit outside of the C0 control range. *)
Definition printable (c : Z) : Prop := 32 <= c < 65536.

(** The digit [d] (0 to 15) as a character, in upper or in lower case. *)
Definition hex_char (upper : bool) (d : Z) : Z :=
  if d <? 10 then 48 + d else if upper then 55 + d else 87 + d.

(** The eight hexadecimal digits of a word, most significant first. *)
Definition hex8 (upper : bool) (w : Z) : jsstring :=
  (fun i : nat => hex_char upper ((w / 16 ^ Z.of_nat (7 - i)) `mod` 16)) <$> seq 0 8.

(** ** Concrete runs *)

(** A key of 32 and two keys of 64 hexadecimal digits. *)
Definition key32 : list Z := lit "000102030405060708090a0b0c0d0e0f".
Definition key64 : list Z :=
  lit "000102030405060708090a0b0c0d0e0fdeadbeef0123456789abcdef00000001".
Definition other64 : list Z :=
  lit "f0e0d0c0b0a090807060504030201000deadbeef0123456789abcdef00000002".

(** An [AllianceDataSync] over parsed values of type [unit]: [JSON.parse]
    always raises, the leader is ["leader"], the segments are 65 (key),
    66 (roster) and 67 (data), and there is no notification. *)
Definition ex_stringify (r : KeyData) : list Z :=
  str_of (key r) ++ lit "|" ++ str_of (newKey r) ++ lit "|" ++ str_of (leaderRoom r).

Definition ex_env : Env unit := {|
  JSON_parse := fun _ => None;
  empty_object := tt;
  keyExpireTime := fun _ => undefined;
  room := fun _ => undefined;
  Object_keys := fun _ => [];
  clear_attack_player := fun j => j;
  JSON_parse_keyData := fun _ => None;
  JSON_stringify_keyData := ex_stringify;
  leaderPlayerName := val (lit "leader");
  keySegmentId := 65;
  segmentId := 66;
  dataSegmentId := 67;
  interval := 20;
  onKeyChanged := None;
|}.

Definition ex_host (t : Z) (fs : option ForeignSegment) (txs : list Transaction) : Host :=
  {| Game_time := t; foreignSegment := fs; segments := ∅;
     activeForeignSegment := None; activeSegments := None;
     incomingTransactions := txs; rooms := []; sent := []; console := [] |}.
Definition ex_provider (p : maybe (list Z)) (id : maybe Z) : Provider unit :=
  {| requestedPlayerName := p; requestedSegmentId := id;
     dataRaw := undefined; data := undefined |}.
Definition ex_manager (roster : list (list Z)) (i : nat) : Manager unit :=
  {| allies := []; alliesData := ∅; Memory_alliesData_bound := false;
     myUserName := undefined; syncDataAllies := roster; syncDataIndex := i;
     nextDataSync := undefined |}.
Definition ex_world (h : Host) (p : Provider unit) (r : option KeyData) : World unit :=
  {| host := h; provider := p; keyData := r; manager := ex_manager [] 0 |}.
Definition ex_record (k n : maybe (list Z)) (e : maybe Z) : KeyData :=
  {| key := k; newKey := n; expire := e; leaderRoom := val (lit "W1N1") |}.

(** The leader's segment, settled with a text that was not written under
    [key64]; the record holds an active and a new key. *)
Definition ex_garbled : World unit :=
  ex_world (ex_host 100
              (Some {| fs_username := lit "leader"; fs_id := 66;
                       fs_data := lit "not a ciphertext" |}) [])
           (ex_provider (val (lit "leader")) (val 66))
           (Some (ex_record (val key64) (val other64) (val 5000))).

(** The same, with an active key but no new key. *)
Definition ex_stale : World unit :=
  ex_world (host ex_garbled) (provider ex_garbled)
           (Some (ex_record (val key64) undefined (val 5000))).

(** A key record without active key whose [expire] has passed. *)
Definition ex_gap : World unit :=
  ex_world (ex_host 100 None []) (ex_provider undefined undefined)
           (Some (ex_record undefined (val other64) (val 100))).

(** A key record whose [expire] has passed, with an active and a new key. *)
Definition ex_due : World unit :=
  ex_world (ex_host 100 None []) (ex_provider undefined undefined)
           (Some (ex_record (val key64) (val other64) (val 100))).

(** A key delivered by the leader. *)
Definition ex_delivery : World unit :=
  ex_world (ex_host 100 None
              [{| tx_time := 90; tx_sender := Some (lit "leader");
                  tx_resourceType := RESOURCE_ENERGY; tx_amount := 3;
                  tx_description := val key64 |}])
           (ex_provider undefined undefined)
           (Some (ex_record undefined undefined null)).

(** The text of an array, encrypted under [key64], and the leader's
    segment settled with it. *)
Definition ex_cipher : list Z := default [] (encrypt (lit "[1,2]") key64).
Definition ex_array : World unit :=
  ex_world (ex_host 100
              (Some {| fs_username := lit "leader"; fs_id := 66; fs_data := ex_cipher |}) [])
           (ex_provider (val (lit "leader")) (val 66))
           (Some (ex_record (val key64) undefined null)).

(** The write path over the same values: nothing serializes, and no value
    has an enumerable property; the roster carries no allies. *)
Definition ex_publish : Publish unit :=
  {| JSON_stringify := fun _ => Returns None; for_in := fun _ => [] |}.
Definition ex_roster : Roster unit := {| data_allies := fun _ => None |}.

(** A second instance, over texts: a value is its own serialization,
    [JSON.parse] returns the text it is given, every value has one
    enumerable property, and every roster carries [keyExpireTime] 7000 and
    no [room]. *)
Definition ex_text_env : Env (list Z) := {|
  JSON_parse := fun s => Some s;
  empty_object := lit "{}";
  keyExpireTime := fun _ => val 7000;
  room := fun _ => undefined;
  Object_keys := fun j => [j];
  clear_attack_player := fun j => j;
  JSON_parse_keyData := fun _ => None;
  JSON_stringify_keyData := ex_stringify;
  leaderPlayerName := val (lit "leader");
  keySegmentId := 65;
  segmentId := 66;
  dataSegmentId := 67;
  interval := 20;
  onKeyChanged := None;
|}.
Definition ex_text_publish : Publish (list Z) :=
  {| JSON_stringify := fun j => Returns (Some j); for_in := fun j => [(j, true)] |}.
Definition ex_text_roster : Roster (list Z) := {| data_allies := fun _ => None |}.

(** The text [{}] encrypted under [key64], and a member over texts whose
    subscription to the roster of the leader has settled with it. *)
Definition ex_braces : list Z := default [] (encrypt (lit "{}") key64).
Definition ex_text_world (fs : option ForeignSegment) (p : maybe (list Z)) (id : Z)
    : World (list Z) :=
  {| host := ex_host 100 fs [];
     provider := {| requestedPlayerName := p; requestedSegmentId := val id;
                    dataRaw := undefined; data := undefined |};
     keyData := Some (ex_record (val key64) undefined null);
     manager := {| allies := []; alliesData := ∅; Memory_alliesData_bound := false;
                   myUserName := undefined; syncDataAllies := []; syncDataIndex := 0;
                   nextDataSync := undefined |} |}.
Definition ex_roster_read : World (list Z) :=
  ex_text_world (Some {| fs_username := lit "leader"; fs_id := 66; fs_data := ex_braces |})
    (val (lit "leader")) 66.

(** The host a tick later: the clock at [t], the foreign segment [fs]. *)
Definition ex_shown (t : Z) (fs : ForeignSegment) (h : Host) : Host :=
  {| Game_time := t; foreignSegment := Some fs; segments := segments h;
     activeForeignSegment := activeForeignSegment h;
     activeSegments := activeSegments h;
     incomingTransactions := incomingTransactions h; rooms := rooms h;
     sent := sent h; console := console h |}.

(** The data segment of a peer and the roster segment of the leader, both
    holding the text [{}] encrypted under [key64]. *)
Definition ex_data_of (p : list Z) : ForeignSegment :=
  {| fs_username := p; fs_id := 67; fs_data := ex_braces |}.
Definition ex_roster_of_leader : ForeignSegment :=
  {| fs_username := lit "leader"; fs_id := 66; fs_data := ex_braces |}.

(** An alliance of two members, and a roster that always carries it. *)
Definition ex_members : list (list Z * list Z) :=
  [(lit "a", MEMBER); (lit "b", MEMBER)].
Definition ex_members_roster : Roster (list Z) :=
  {| data_allies := fun _ => Some ex_members |}.

(** A member of that alliance, with the active key [key64], the roster
    [a; b], the cursor on [a], and the subscription to the data segment of
    [a] settled. *)
Definition ex_turn1 : World (list Z) :=
  {| host := ex_host 100 (Some (ex_data_of (lit "a"))) [];
     provider := {| requestedPlayerName := val (lit "a"); requestedSegmentId := val 67;
                    dataRaw := undefined; data := undefined |};
     keyData := Some (ex_record (val key64) undefined null);
     manager := {| allies := ex_members; alliesData := ∅;
                   Memory_alliesData_bound := false;
                   myUserName := val (lit "me");
                   syncDataAllies := [lit "a"; lit "b"]; syncDataIndex := 0;
                   nextDataSync := undefined |} |}.

(** [AllianceManager.sync()] with [options.interval] 100 once the host has
    moved to the tick [t] and shows the foreign segment [fs]: the state in
    which it is called, and the call. *)
Definition ex_before (t : Z) (fs : ForeignSegment) (w : World (list Z)) : World (list Z) :=
  set_host (ex_shown t fs) w.
Definition ex_call (r : Roster (list Z)) (nextSyncTime : Z) (w : World (list Z))
    : World (list Z) * outcome Z :=
  manager_sync (Env0 := ex_text_env) (Roster0 := r) (val 100) nextSyncTime w.

(** [syncAllies()], the first step of that call, under the roster that
    carries the alliance. *)
Definition ex_roster_poll (nextSyncTime : Z) (w : World (list Z))
    : World (list Z) * outcome (bool * Z) :=
  syncAllies (Env0 := ex_text_env) (Roster0 := ex_members_roster) (val 100) nextSyncTime w.

(** A pass between two roster reads (the gate of the roster poll stays
    closed): the poll of [a] is answered at tick 100, the poll of [b] is
    pending at tick 120 and answered at tick 121. *)
Definition ex_pass_a : World (list Z) :=
  Eval vm_compute in (ex_call ex_text_roster 1000 ex_turn1).1.
Definition ex_pass_pending : World (list Z) :=
  Eval vm_compute in
    (ex_call ex_text_roster 1000 (ex_before 120 (ex_data_of (lit "a")) ex_pass_a)).1.
Definition ex_turn2 : World (list Z) := ex_before 121 (ex_data_of (lit "b")) ex_pass_pending.
Definition ex_pass_b : World (list Z) :=
  Eval vm_compute in (ex_call ex_text_roster 1000 ex_turn2).1.

(** A run across a roster read (the gate of the roster poll opens at tick
    200): the poll of [a] is answered at tick 100, the poll of the roster
    is pending at tick 200 and answered at tick 201, where the poll of the
    peer under the cursor is pending, and that poll is answered at tick
    202. *)
Definition ex_run1 : World (list Z) :=
  Eval vm_compute in (ex_call ex_members_roster 200 ex_turn1).1.
Definition ex_run2_before : World (list Z) := ex_before 200 (ex_data_of (lit "a")) ex_run1.
Definition ex_run2 : World (list Z) :=
  Eval vm_compute in (ex_call ex_members_roster 200 ex_run2_before).1.
Definition ex_run3_before : World (list Z) := ex_before 201 ex_roster_of_leader ex_run2.
Definition ex_run3 : World (list Z) :=
  Eval vm_compute in (ex_call ex_members_roster 200 ex_run3_before).1.
Definition ex_run4_before : World (list Z) := ex_before 202 (ex_data_of (lit "a")) ex_run3.
Definition ex_run4 : World (list Z) :=
  Eval vm_compute in (ex_call ex_members_roster 301 ex_run4_before).1.

(** A record with an active and a new key, 500 ticks before [expire]. *)
Definition ex_window : World unit :=
  ex_world (ex_host 4500 None []) (ex_provider undefined undefined)
           (Some (ex_record (val key64) (val other64) (val 5000))).

(** Transfers: one of another player, one of the leader that carries
    [key64], an old one, and one of the leader without description. *)
Definition ex_other_transfer : Transaction :=
  {| tx_time := 90; tx_sender := Some (lit "someone");
     tx_resourceType := RESOURCE_ENERGY; tx_amount := 3;
     tx_description := val key64 |}.
Definition ex_key_transfer : Transaction :=
  {| tx_time := 90; tx_sender := Some (lit "leader");
     tx_resourceType := RESOURCE_ENERGY; tx_amount := 3;
     tx_description := val key64 |}.
Definition ex_old_transfer : Transaction :=
  {| tx_time := -1000; tx_sender := Some (lit "someone");
     tx_resourceType := RESOURCE_ENERGY; tx_amount := 3;
     tx_description := undefined |}.
Definition ex_blank_transfer : Transaction :=
  {| tx_time := 90; tx_sender := Some (lit "leader");
     tx_resourceType := RESOURCE_ENERGY; tx_amount := 3;
     tx_description := undefined |}.
Definition ex_transfers (txs : list Transaction) : World unit :=
  ex_world (ex_host 100 None txs) (ex_provider undefined undefined)
           (Some (ex_record undefined undefined null)).

(** A member without key that owns one room with a ready terminal. *)
Definition ex_terminals : World unit :=
  ex_world
    {| Game_time := 100; foreignSegment := None; segments := ∅;
       activeForeignSegment := None; activeSegments := None;
       incomingTransactions := [];
       rooms := [{| room_controller_my := true;
                    room_terminal := Some {| terminal_my := true; terminal_cooldown := 0;
                                             terminal_energy := 100;
                                             terminal_send := OK |} |}];
       sent := []; console := [] |}
    (ex_provider undefined undefined)
    (Some (ex_record undefined undefined null)).

(** A member whose subscription to the data segment of the peer ["a"] has
    settled with a text that was not written under [key64]. *)
Definition ex_peer_garbled : World unit :=
  {| host := ex_host 100
               (Some {| fs_username := lit "a"; fs_id := 67;
                        fs_data := lit "not a ciphertext" |}) [];
     provider := ex_provider (val (lit "a")) (val 67);
     keyData := Some (ex_record (val key64) undefined null);
     manager := ex_manager [lit "a"] 0 |}.

(** An instance that has not loaded its key record, and whose key
    segment holds a text that does not parse. *)
Definition ex_corrupt : World unit :=
  ex_world
    {| Game_time := 100; foreignSegment := None;
       segments := {[ 65 := lit "garbage" ]};
       activeForeignSegment := None; activeSegments := None;
       incomingTransactions := []; rooms := []; sent := []; console := [] |}
    (ex_provider undefined undefined) None.

(** ** Properties of the integer operators *)

Lemma ToInt32_range x : - 2 ^ 31 <= ToInt32 x < 2 ^ 31.
Proof. unfold ToInt32. pose proof (Z.mod_pos_bound (x + 2 ^ 31) (2 ^ 32)). lia. Qed.

Lemma ToUint32_range x : is_word (ToUint32 x).
Proof. unfold ToUint32, is_word. pose proof (Z.mod_pos_bound x (2 ^ 32)). lia. Qed.

Lemma ToUint32_small x : is_word x → ToUint32 x = x.
Proof. unfold ToUint32, is_word. intros. apply Z.mod_small. lia. Qed.

Lemma ToUint32_idemp x : ToUint32 (ToUint32 x) = ToUint32 x.
Proof. apply ToUint32_small, ToUint32_range. Qed.

Lemma ToUint32_add_multiple x c : ToUint32 (x + c * 2 ^ 32) = ToUint32 x.
Proof. unfold ToUint32. apply Z.mod_add. lia. Qed.

Lemma ToInt32_unfold x : ToInt32 x = x + (- ((x + 2 ^ 31) / 2 ^ 32)) * 2 ^ 32.
Proof. unfold ToInt32. pose proof (Z.div_mod (x + 2 ^ 31) (2 ^ 32)). lia. Qed.

Lemma ToUint32_ToInt32 x : ToUint32 (ToInt32 x) = ToUint32 x.
Proof. rewrite ToInt32_unfold. apply ToUint32_add_multiple. Qed.

Lemma ToInt32_congr x y : ToUint32 x = ToUint32 y → ToInt32 x = ToInt32 y.
Proof.
  unfold ToUint32, ToInt32. intros H.
  rewrite <- (Z.add_mod_idemp_l x), <- (Z.add_mod_idemp_l y) by lia.
  rewrite H. reflexivity.
Qed.

Lemma ToInt32_small x : - 2 ^ 31 <= x < 2 ^ 31 → ToInt32 x = x.
Proof. unfold ToInt32. intros. rewrite Z.mod_small; lia. Qed.

Lemma ToUint32_congr_add a b c :
  ToUint32 a = ToUint32 b → ToUint32 (a + c) = ToUint32 (b + c).
Proof.
  unfold ToUint32. intros H.
  rewrite <- (Z.add_mod_idemp_l a), <- (Z.add_mod_idemp_l b) by lia.
  rewrite H. reflexivity.
Qed.

Lemma band_mask32 x : band x 0xffffffff = ToInt32 x.
Proof. unfold band. change (ToInt32 0xffffffff) with (-1). apply Z.land_m1_r. Qed.

Lemma band_mask16 x : band x 0xffff = ToUint32 x `mod` 2 ^ 16.
Proof.
  unfold band. change (ToInt32 0xffff) with (Z.ones 16).
  rewrite Z.land_ones by lia. rewrite ToInt32_unfold. unfold ToUint32.
  replace (- ((x + 2 ^ 31) / 2 ^ 32) * 2 ^ 32)
    with ((- ((x + 2 ^ 31) / 2 ^ 32) * 2 ^ 16) * 2 ^ 16) by lia.
  rewrite Z.mod_add by lia.
  change (2 ^ 32) with (2 ^ 16 * 2 ^ 16).
  rewrite Z.rem_mul_r by lia.
  rewrite Z.mul_comm, Z.mod_add by lia. symmetry. apply Z.mod_mod. lia.
Qed.

Lemma shr_16 x : is_word x → shr x 16 = x / 2 ^ 16.
Proof. intros. unfold shr. rewrite ToUint32_small by done. apply Z.shiftr_div_pow2. lia. Qed.

(** A word is the two half words it is packed from. *)
Lemma pack_halves hi lo :
  0 <= hi < 2 ^ 16 → 0 <= lo < 2 ^ 16 →
  ToUint32 (bor lo (shl hi 16)) = hi * 2 ^ 16 + lo.
Proof.
  intros Hhi Hlo. unfold bor, shl.
  rewrite (ToInt32_small lo), (ToInt32_small hi) by lia.
  rewrite Z.shiftl_mul_pow2 by lia.
  rewrite (ToInt32_small (ToInt32 _)) by apply ToInt32_range.
  rewrite ToInt32_unfold.
  set (c := - ((hi * 2 ^ 16 + 2 ^ 31) / 2 ^ 32)).
  replace (hi * 2 ^ 16 + c * 2 ^ 32) with ((hi + c * 2 ^ 16) * 2 ^ 16) by lia.
  assert (Hland : Z.land lo ((hi + c * 2 ^ 16) * 2 ^ 16) = 0).
  { apply Z.bits_inj'. intros i Hi. rewrite Z.land_spec, Z.bits_0.
    destruct (decide (i < 16)).
    - rewrite Z.mul_pow2_bits_low by lia. apply andb_false_r.
    - rewrite <- (Z.mod_small lo (2 ^ 16)) by lia.
      rewrite Z.mod_pow2_bits_high by lia. reflexivity. }
  pose proof (Z.add_lor_land lo ((hi + c * 2 ^ 16) * 2 ^ 16)) as Hadd.
  rewrite Hland in Hadd.
  replace (Z.lor lo ((hi + c * 2 ^ 16) * 2 ^ 16))
    with (hi * 2 ^ 16 + lo + c * 2 ^ 32) by lia.
  rewrite ToUint32_add_multiple. apply ToUint32_small. unfold is_word. lia.
Qed.

Lemma high_half hi lo :
  0 <= hi < 2 ^ 16 → 0 <= lo < 2 ^ 16 →
  band (shr (hi * 2 ^ 16 + lo) 16) 0xffff = hi.
Proof.
  intros. rewrite shr_16 by (unfold is_word; lia).
  rewrite band_mask16.
  replace ((hi * 2 ^ 16 + lo) / 2 ^ 16) with hi
    by (apply Z.div_unique with lo; lia).
  rewrite ToUint32_small by (unfold is_word; lia). apply Z.mod_small. lia.
Qed.

Lemma low_half hi lo :
  0 <= hi < 2 ^ 16 → 0 <= lo < 2 ^ 16 →
  band (hi * 2 ^ 16 + lo) 0xffff = lo.
Proof.
  intros. rewrite band_mask16. rewrite ToUint32_small by (unfold is_word; lia).
  rewrite Z.add_comm, Z.mod_add by lia. apply Z.mod_small. lia.
Qed.

Lemma word_halves w :
  is_word w → w = (w / 2 ^ 16) * 2 ^ 16 + w `mod` 2 ^ 16
              ∧ 0 <= w / 2 ^ 16 < 2 ^ 16 ∧ 0 <= w `mod` 2 ^ 16 < 2 ^ 16.
Proof.
  unfold is_word. intros.
  pose proof (Z.div_mod w (2 ^ 16)). pose proof (Z.mod_pos_bound w (2 ^ 16)).
  assert (0 <= w / 2 ^ 16) by (apply Z.div_pos; lia).
  assert (w / 2 ^ 16 < 2 ^ 16) by (apply Z.div_lt_upper_bound; lia).
  lia.
Qed.

(** ** The cipher: every assignment reads the array *)

Lemma mx_congr sum y y' z z' p e k :
  ToUint32 y = ToUint32 y' → ToUint32 z = ToUint32 z' →
  mx sum y z p e k = mx sum y' z' p e k.
Proof.
  intros Hy Hz. unfold mx, bxor, shl, shr.
  rewrite (ToInt32_congr _ _ Hy), (ToInt32_congr _ _ Hz), Hy, Hz. reflexivity.
Qed.

Lemma foldl_ext_in {A B} (f g : A → B → A) (l : list B) (a : A) :
  (∀ a b, b ∈ l → f a b = g a b) → foldl f a l = foldl g a l.
Proof.
  revert a. induction l as [|b l IH]; intros a H; [done|]. simpl.
  rewrite H by left. apply IH. intros. apply H. by right.
Qed.

Lemma last_cons_default {A} (p c : A) (r : list A) :
  List.last (p :: r) c = List.last r p.
Proof.
  revert p c. induction r as [|x r IH]; intros p c; [done|].
  change (List.last (p :: x :: r) c) with (List.last (x :: r) c).
  by rewrite (IH x c), (IH x p).
Qed.

Lemma word_update_length sgn sum e k L v p :
  length (word_update sgn sum e k L v p) = length v.
Proof. apply length_insert. Qed.

Lemma word_update_words sgn sum e k L v p :
  Forall is_word v → Forall is_word (word_update sgn sum e k L v p).
Proof.
  intros H. unfold word_update.
  destruct (decide (p < length v)%nat).
  - apply Forall_insert; [done|apply ToUint32_range].
  - rewrite list_insert_ge by lia. done.
Qed.

Lemma word_updates_length sgn sum e k L ps v :
  length (foldl (word_update sgn sum e k L) v ps) = length v.
Proof.
  revert v. induction ps as [|p ps IH]; intros v; [done|]. simpl.
  rewrite IH. apply word_update_length.
Qed.

Lemma word_updates_words sgn sum e k L ps v :
  Forall is_word v → Forall is_word (foldl (word_update sgn sum e k L) v ps).
Proof.
  revert v. induction ps as [|p ps IH]; intros v H; [done|]. simpl.
  apply IH, word_update_words, H.
Qed.

Lemma enc_assign_pure sum e k L v z p :
  length v = L → (p < L)%nat →
  ToUint32 z = ToUint32 (num (v !! prevL L p)) →
  ∃ x, enc_assign sum e k (nextL L p) (v, z) p = (word_update 1 sum e k L v p, x)
       ∧ ToUint32 x = ToUint32 (num (word_update 1 sum e k L v p !! p)).
Proof.
  intros HL Hp Hz. unfold enc_assign, word_update.
  eexists. split; [|].
  - f_equal. f_equal. rewrite band_mask32, ToUint32_ToInt32.
    rewrite (mx_congr sum _ _ z (num (v !! prevL L p)) p e k eq_refl Hz).
    f_equal. lia.
  - rewrite list_lookup_insert_eq by lia. simpl.
    rewrite band_mask32, ToUint32_ToInt32, ToUint32_idemp.
    rewrite (mx_congr sum _ _ z (num (v !! prevL L p)) p e k eq_refl Hz).
    f_equal. lia.
Qed.

Lemma dec_assign_pure sum e k L v y p :
  length v = L → (p < L)%nat →
  ToUint32 y = ToUint32 (num (v !! nextL L p)) →
  ∃ x, dec_assign sum e k (prevL L p) (v, y) p = (word_update (-1) sum e k L v p, x)
       ∧ ToUint32 x = ToUint32 (num (word_update (-1) sum e k L v p !! p)).
Proof.
  intros HL Hp Hy. unfold dec_assign, word_update.
  eexists. split; [|].
  - f_equal. f_equal. rewrite band_mask32, ToUint32_ToInt32.
    rewrite (mx_congr sum y (num (v !! nextL L p)) _ _ p e k Hy eq_refl).
    apply (f_equal ToUint32). lia.
  - rewrite list_lookup_insert_eq by lia. simpl.
    rewrite band_mask32, ToUint32_ToInt32, ToUint32_idemp.
    rewrite (mx_congr sum y (num (v !! nextL L p)) _ _ p e k Hy eq_refl).
    apply (f_equal ToUint32). lia.
Qed.

Lemma enc_chain sum e k L ps : ∀ v z c,
  length v = L → chained (prevL L) L c ps →
  ToUint32 z = ToUint32 (num (v !! c)) →
  ∃ z', foldl (fun st p => enc_assign sum e k (nextL L p) st p) (v, z) ps
        = (foldl (word_update 1 sum e k L) v ps, z')
      ∧ ToUint32 z'
        = ToUint32 (num (foldl (word_update 1 sum e k L) v ps !! List.last ps c)).
Proof.
  induction ps as [|p r IH]; intros v z c HL Hch Hz.
  - exists z. done.
  - destruct Hch as (Hp & Hlink & Hch). subst c.
    destruct (enc_assign_pure sum e k L v z p HL Hp Hz) as (x & Hx & Hxz).
    cbn [foldl]. rewrite Hx.
    destruct (IH (word_update 1 sum e k L v p) x p) as (z' & Hf & Hz');
      [by rewrite word_update_length | done | done |].
    exists z'. split; [done|]. by rewrite last_cons_default.
Qed.

Lemma dec_chain sum e k L ps : ∀ v y c,
  length v = L → chained (nextL L) L c ps →
  ToUint32 y = ToUint32 (num (v !! c)) →
  ∃ y', foldl (fun st p => dec_assign sum e k (prevL L p) st p) (v, y) ps
        = (foldl (word_update (-1) sum e k L) v ps, y')
      ∧ ToUint32 y'
        = ToUint32 (num (foldl (word_update (-1) sum e k L) v ps !! List.last ps c)).
Proof.
  induction ps as [|p r IH]; intros v y c HL Hch Hy.
  - exists y. done.
  - destruct Hch as (Hp & Hlink & Hch). subst c.
    destruct (dec_assign_pure sum e k L v y p HL Hp Hy) as (x & Hx & Hxy).
    cbn [foldl]. rewrite Hx.
    destruct (IH (word_update (-1) sum e k L v p) x p) as (y' & Hf & Hy');
      [by rewrite word_update_length | done | done |].
    exists y'. split; [done|]. by rewrite last_cons_default.
Qed.

Lemma chained_seq L : ∀ m a c,
  (a + m ≤ L)%nat → ((0 < m)%nat → prevL L a = c) →
  chained (prevL L) L c (seq a m).
Proof.
  induction m as [|m IH]; intros a c Hle Hc; simpl; [done|].
  split; [lia|]. split; [apply Hc; lia|].
  apply IH; [lia|]. intros _. unfold prevL. rewrite decide_False by lia. lia.
Qed.

Lemma chained_rev_seq L a : ∀ m c,
  (a + m ≤ L)%nat → ((0 < m)%nat → nextL L (a + m - 1) = c) →
  chained (nextL L) L c (reverse (seq a m)).
Proof.
  induction m as [|m IH]; intros c Hle Hc; [done|].
  rewrite seq_S, reverse_app. simpl.
  split; [lia|]. split.
  - rewrite <- Hc by lia. f_equal. lia.
  - apply IH; [lia|]. intros Hm. unfold nextL. rewrite decide_False by lia. lia.
Qed.

(** One round of the encryption, on the array alone. *)
Lemma enc_round_pure k n sum v z :
  length v = S n → ToUint32 z = ToUint32 (num (v !! n)) →
  ∃ z', enc_round k n sum (v, z)
        = (foldl (word_update 1 sum (band (shr sum 2) 3) k (S n)) v (seq 0 (S n)), z')
      ∧ ToUint32 z'
        = ToUint32 (num (foldl (word_update 1 sum (band (shr sum 2) 3) k (S n)) v
                           (seq 0 (S n)) !! n)).
Proof.
  intros HL Hz. unfold enc_round. set (e := band (shr sum 2) 3).
  assert (Hfold :
    enc_assign sum e k 0
      (foldl (fun st p => enc_assign sum e k (p + 1) st p) (v, z) (seq 0 n)) n
    = foldl (fun st p => enc_assign sum e k (nextL (S n) p) st p) (v, z) (seq 0 (S n))).
  { rewrite seq_S, foldl_app. simpl.
    replace (nextL (S n) n) with 0%nat by (unfold nextL; rewrite decide_True; lia).
    f_equal. apply foldl_ext_in. intros st p Hp. apply elem_of_seq in Hp.
    f_equal. unfold nextL. rewrite decide_False; lia. }
  rewrite Hfold.
  destruct (enc_chain sum e k (S n) (seq 0 (S n)) v z n HL) as (z' & Hf & Hz'); [|done|].
  { apply chained_seq; [lia|]. intros _. unfold prevL. rewrite decide_True; lia. }
  exists z'. split; [done|].
  replace (List.last (seq 0 (S n)) n) with n in Hz'; [done|].
  rewrite seq_S. symmetry. apply List.last_last.
Qed.

(** One round of the decryption, on the array alone. *)
Lemma dec_round_pure k n sum v y :
  length v = S n → ToUint32 y = ToUint32 (num (v !! 0%nat)) →
  ∃ y', dec_round k n sum (v, y)
        = (foldl (word_update (-1) sum (band (shr sum 2) 3) k (S n)) v
             (reverse (seq 0 (S n))), y')
      ∧ ToUint32 y'
        = ToUint32 (num (foldl (word_update (-1) sum (band (shr sum 2) 3) k (S n)) v
                           (reverse (seq 0 (S n))) !! 0%nat)).
Proof.
  intros HL Hy. unfold dec_round. set (e := band (shr sum 2) 3).
  assert (Hrev : reverse (seq 0 (S n)) = reverse (seq 1 n) ++ [0%nat]).
  { simpl seq. by rewrite reverse_cons. }
  assert (Hfold :
    dec_assign sum e k n
      (foldl (fun st p => dec_assign sum e k (p - 1) st p) (v, y) (reverse (seq 1 n))) 0%nat
    = foldl (fun st p => dec_assign sum e k (prevL (S n) p) st p) (v, y)
        (reverse (seq 0 (S n)))).
  { rewrite Hrev, foldl_app. simpl.
    replace (prevL (S n) 0) with n by (unfold prevL; rewrite decide_True; lia).
    f_equal. apply foldl_ext_in. intros st p Hp.
    apply elem_of_reverse, elem_of_seq in Hp.
    f_equal. unfold prevL. rewrite decide_False; lia. }
  rewrite Hfold.
  destruct (dec_chain sum e k (S n) (reverse (seq 0 (S n))) v y 0%nat HL)
    as (y' & Hf & Hy'); [|done|].
  { apply chained_rev_seq; [lia|]. intros _. unfold nextL. rewrite decide_True; lia. }
  exists y'. split; [done|].
  replace (List.last (reverse (seq 0 (S n))) 0%nat) with 0%nat in Hy'; [done|].
  rewrite Hrev. symmetry. apply List.last_last.
Qed.

Lemma word_update_cancel sum e k L v p :
  length v = L → (2 ≤ L)%nat → (p < L)%nat → Forall is_word v →
  word_update (-1) sum e k L (word_update 1 sum e k L v p) p = v.
Proof.
  intros HL H2 Hp Hw. unfold word_update.
  assert (Hn : p ≠ nextL L p) by (unfold nextL; case_decide; lia).
  assert (Hpr : p ≠ prevL L p) by (unfold prevL; case_decide; lia).
  rewrite list_lookup_insert_eq by lia.
  rewrite !list_lookup_insert_ne by done.
  rewrite list_insert_insert_eq.
  destruct (lookup_lt_is_Some_2 v p) as [a Ha]; [lia|]. rewrite Ha. simpl.
  apply list_insert_id. rewrite Ha. f_equal.
  set (m := mx _ _ _ _ _ _).
  rewrite (ToUint32_congr_add _ (a + 1 * m)) by apply ToUint32_idemp.
  replace (a + 1 * m + -1 * m) with a by lia.
  symmetry. apply ToUint32_small. eapply Forall_lookup_1 in Hw; eauto.
Qed.

Lemma word_updates_cancel sum e k L ps : ∀ v,
  length v = L → (2 ≤ L)%nat → Forall (fun p => p < L)%nat ps → Forall is_word v →
  foldl (word_update (-1) sum e k L) (foldl (word_update 1 sum e k L) v ps) (reverse ps) = v.
Proof.
  induction ps as [|p ps IH] using rev_ind; intros v HL H2 Hps Hw; [done|].
  apply Forall_app in Hps as [Hps Hp]. rewrite Forall_singleton in Hp.
  rewrite reverse_app, !foldl_app. cbn [foldl].
  change (reverse [p]) with [p]. cbn [foldl app].
  rewrite word_update_cancel; [by apply IH| | done | done |].
  - by rewrite word_updates_length.
  - by apply word_updates_words.
Qed.

(** ** The schedule of [sum] *)

Lemma sum_at_S j : band (sum_at j + DELTA) 0xffffffff = sum_at (S j).
Proof.
  rewrite band_mask32. unfold sum_at. apply ToInt32_congr.
  rewrite (ToUint32_congr_add _ (Z.of_nat j * DELTA)) by apply ToUint32_ToInt32.
  f_equal. lia.
Qed.

Lemma sum_at_pred j : band (sum_at (S j) - DELTA) 0xffffffff = sum_at j.
Proof.
  rewrite band_mask32. unfold sum_at. apply ToInt32_congr.
  change (ToInt32 (Z.of_nat (S j) * DELTA) - DELTA)
    with (ToInt32 (Z.of_nat (S j) * DELTA) + - DELTA).
  rewrite (ToUint32_congr_add _ (Z.of_nat (S j) * DELTA)) by apply ToUint32_ToInt32.
  f_equal. lia.
Qed.

Lemma sum_at_nonzero j : (0 < j)%nat → Z.of_nat j < 2 ^ 32 → sum_at j ≠ 0.
Proof.
  intros Hj Hlt H0.
  assert (Hm : (Z.of_nat j * DELTA) `mod` 2 ^ 32 = 0).
  { pose proof (ToUint32_ToInt32 (Z.of_nat j * DELTA)) as H.
    unfold sum_at in H0. rewrite H0 in H. unfold ToUint32 in H. by rewrite <- H. }
  assert (Hi : (Z.of_nat j * DELTA * DELTA_INV) `mod` 2 ^ 32 = 0).
  { rewrite <- Z.mul_mod_idemp_l by lia. by rewrite Hm. }
  replace (Z.of_nat j * DELTA * DELTA_INV)
    with (Z.of_nat j + (Z.of_nat j * 210485888) * 2 ^ 32) in Hi
    by (unfold DELTA, DELTA_INV; lia).
  rewrite Z.mod_add, Z.mod_small in Hi by lia. lia.
Qed.

Lemma enc_rounds_schedule q k n : ∀ j st ran,
  enc_rounds q k n (sum_at j) st ran
  = ((foldl (fun st s => enc_round k n s st) st (sum_at <$> seq (S j) q)).1,
     ran ++ (sum_at <$> seq (S j) q)).
Proof.
  induction q as [|q IH]; intros j st ran.
  - cbn. by rewrite app_nil_r.
  - cbn [enc_rounds]. rewrite sum_at_S, IH. cbn [seq fmap list_fmap foldl].
    by rewrite <- app_assoc.
Qed.

Lemma dec_rounds_schedule k n : ∀ j st ran,
  Z.of_nat j < 2 ^ 32 →
  dec_rounds k n (sum_at j) st ran
  = ((foldl (fun st s => dec_round k n s st) st (reverse (sum_at <$> seq 1 j))).1,
     ran ++ reverse (sum_at <$> seq 1 j)).
Proof.
  induction j as [|j IH]; intros st ran Hj.
  - change (sum_at 0) with 0. simp dec_rounds. cbn. by rewrite app_nil_r.
  - rewrite seq_S, fmap_app, reverse_app.
    change (reverse (sum_at <$> [(1 + j)%nat])) with [sum_at (S j)].
    cbn [app foldl].
    simp dec_rounds.
    destruct (decide (sum_at (S j) = 0)) as [H0|H0].
    { exfalso. revert H0. apply sum_at_nonzero; lia. }
    cbn. rewrite sum_at_pred, IH by lia.
    by rewrite <- app_assoc.
Qed.

Lemma enc_pure_length k L v sum : length (enc_pure k L v sum) = length v.
Proof. apply word_updates_length. Qed.

Lemma dec_pure_length k L v sum : length (dec_pure k L v sum) = length v.
Proof. apply word_updates_length. Qed.

Lemma enc_pures_length k L sums : ∀ v, length (foldl (enc_pure k L) v sums) = length v.
Proof.
  induction sums as [|s sums IH]; intros v; [done|]. cbn [foldl].
  by rewrite IH, enc_pure_length.
Qed.

Lemma enc_pures_words k L sums : ∀ v,
  Forall is_word v → Forall is_word (foldl (enc_pure k L) v sums).
Proof.
  induction sums as [|s sums IH]; intros v H; [done|]. cbn [foldl].
  apply IH, word_updates_words, H.
Qed.

Lemma enc_fold_pure k n sums : ∀ v z,
  length v = S n → ToUint32 z = ToUint32 (num (v !! n)) →
  (foldl (fun st s => enc_round k n s st) (v, z) sums).1
  = foldl (enc_pure k (S n)) v sums.
Proof.
  induction sums as [|s sums IH]; intros v z HL Hz; [done|]. cbn [foldl].
  destruct (enc_round_pure k n s v z HL Hz) as (z' & -> & Hz').
  apply (IH (enc_pure k (S n) v s) z'); [|done]. by rewrite enc_pure_length.
Qed.

Lemma dec_fold_pure k n sums : ∀ v y,
  length v = S n → ToUint32 y = ToUint32 (num (v !! 0%nat)) →
  (foldl (fun st s => dec_round k n s st) (v, y) sums).1
  = foldl (dec_pure k (S n)) v sums.
Proof.
  induction sums as [|s sums IH]; intros v y HL Hy; [done|]. cbn [foldl].
  destruct (dec_round_pure k n s v y HL Hy) as (y' & -> & Hy').
  apply (IH (dec_pure k (S n) v s) y'); [|done]. by rewrite dec_pure_length.
Qed.

Lemma pure_rounds_cancel k L sums : ∀ v,
  length v = L → (2 ≤ L)%nat → Forall is_word v →
  foldl (dec_pure k L) (foldl (enc_pure k L) v sums) (reverse sums) = v.
Proof.
  induction sums as [|s sums IH] using rev_ind; intros v HL H2 Hw; [done|].
  rewrite reverse_app, !foldl_app. change (reverse [s]) with [s]. cbn [foldl app].
  assert (Hc : ∀ w, length w = L → Forall is_word w →
                    dec_pure k L (enc_pure k L w s) s = w).
  { intros w HwL Hww. unfold dec_pure, enc_pure.
    apply word_updates_cancel; [done|done| |done].
    apply Forall_forall. intros p Hp. apply elem_of_seq in Hp. lia. }
  rewrite Hc; [by apply IH| |].
  - by rewrite enc_pures_length.
  - by apply enc_pures_words.
Qed.

Lemma rounds_value (L : nat) :
  (1 ≤ L)%nat →
  floor_16_52 L = Some (16 + 52 / Z.of_nat L) ∧ 16 <= 16 + 52 / Z.of_nat L <= 68.
Proof.
  intros HL. unfold floor_16_52. rewrite decide_False by lia. split; [done|].
  assert (0 <= 52 / Z.of_nat L) by (apply Z.div_pos; lia).
  assert (52 / Z.of_nat L <= 52) by (apply Z.div_le_upper_bound; nia).
  lia.
Qed.

Lemma bor_0_small q : - 2 ^ 31 <= q < 2 ^ 31 → bor q 0 = q.
Proof. intros. unfold bor. change (ToInt32 0) with 0. rewrite Z.lor_0_r. by apply ToInt32_small. Qed.

(** [decryptUint32Array] undoes [encryptUint32Array] on arrays of at least
    two words. *)
Lemma decryptUint32Array_encryptUint32Array v k :
  (2 ≤ length v)%nat → Forall is_word v →
  decryptUint32Array (encryptUint32Array v k) k = v.
Proof.
  intros H2 Hw.
  destruct (length v) as [|n] eqn:HL; [lia|].
  destruct (rounds_value (S n)) as [Hq Hqr]; [lia|].
  set (q := 16 + 52 / Z.of_nat (S n)) in *.
  set (sums := sum_at <$> seq 1 (Z.to_nat q)).
  assert (Henc : encryptUint32Array v k = foldl (enc_pure k (S n)) v sums).
  { unfold encryptUint32Array, encryptUint32Array_rounds. rewrite HL, Hq.
    rewrite bor_0_small by lia. change 0 with (sum_at 0) at 1.
    rewrite enc_rounds_schedule. cbn [fst].
    replace (S n - 1)%nat with n by lia. by apply enc_fold_pure. }
  rewrite Henc.
  unfold decryptUint32Array, decryptUint32Array_rounds.
  rewrite enc_pures_length, HL, Hq.
  replace (band (q * DELTA) 0xffffffff) with (sum_at (Z.to_nat q))
    by (rewrite band_mask32; unfold sum_at; f_equal; lia).
  rewrite dec_rounds_schedule by lia. cbn [fst].
  replace (S n - 1)%nat with n by lia.
  rewrite dec_fold_pure; [|by rewrite enc_pures_length|done].
  apply pure_rounds_cancel; [done|lia|done].
Qed.

(** ** Loops over indices are folds over the elements *)

Lemma foldl_seq_lookup {A B} (g : B → option A → B) (d rest : list A) : ∀ b,
  foldl (fun b i => g b ((d ++ rest) !! i)) b (seq 0 (length d))
  = foldl (fun b x => g b (Some x)) b d.
Proof.
  revert rest. induction d as [|x d IH] using rev_ind; intros rest b; [done|].
  rewrite length_app, Nat.add_1_r, seq_S, !foldl_app. cbn [foldl].
  rewrite <- app_assoc. rewrite IH. f_equal.
  cbn. by rewrite list_lookup_middle.
Qed.

Lemma foldl_app_concat {A B} (f : A → list B) (d : list A) : ∀ r,
  foldl (fun r x => r ++ f x) r d = r ++ concat (f <$> d).
Proof.
  induction d as [|x d IH]; intros r; cbn; [by rewrite app_nil_r|].
  by rewrite IH, app_assoc.
Qed.

Lemma fmap_ToUint32_words (d : list Z) : Forall is_word d → ToUint32 <$> d = d.
Proof.
  induction 1 as [|x d Hx _ IH]; [done|]. cbn. by rewrite IH, ToUint32_small.
Qed.

(** ** The safe string encoding *)

Lemma uint32ArrayToSafeString_concat d :
  uint32ArrayToSafeString d = concat (safe_word <$> d).
Proof.
  unfold uint32ArrayToSafeString.
  pose proof (foldl_seq_lookup
    (fun (result : list Z) (o : option Z) =>
       result ++ (fromCodePoint (shift (band (shr (num o) 16) 0xffff))
                  ++ fromCodePoint (shift (band (num o) 0xffff)))) d [] []) as H.
  rewrite app_nil_r in H. rewrite H.
  apply (foldl_app_concat safe_word d []).
Qed.

Lemma half_range x : 0 <= band x 0xffff < 2 ^ 16.
Proof. rewrite band_mask16. apply Z.mod_pos_bound. lia. Qed.

Lemma shift_scalar h : 0 <= h < 2 ^ 16 → scalar (shift h).
Proof.
  intros Hh. unfold shift, scalar.
  destruct (Z.ltb_spec h 32); [lia|].
  destruct (Z.leb_spec 0xD800 h); destruct (Z.leb_spec h 0xDFFF); cbn; lia.
Qed.

Lemma unshift_shift h :
  0 <= h < 2 ^ 16 →
  unshift (Some (shift h)) = (Some h, (length (fromCodePoint (shift h)) - 1)%nat).
Proof.
  intros Hh. unfold shift, unshift, fromCodePoint.
  destruct (Z.ltb_spec h 32).
  { rewrite (proj2 (Z.leb_le 0x10800 (h + 0x10800))) by lia.
    rewrite (proj2 (Z.leb_gt _ _)) by lia. cbn. f_equal. f_equal. lia. }
  destruct (Z.leb_spec 0xD800 h); destruct (Z.leb_spec h 0xDFFF); cbn [andb].
  - rewrite (proj2 (Z.leb_gt 0x10800 _)) by lia.
    rewrite (proj2 (Z.leb_le 0x10000 _)) by lia.
    rewrite (proj2 (Z.leb_gt _ 0xFFFF)) by lia. cbn. f_equal. f_equal. lia.
  - rewrite (proj2 (Z.leb_gt 0x10800 _)) by lia.
    rewrite (proj2 (Z.leb_gt 0x10000 _)) by lia.
    rewrite (proj2 (Z.leb_le _ 0xFFFF)) by lia. done.
  - rewrite (proj2 (Z.leb_gt 0x10800 _)) by lia.
    rewrite (proj2 (Z.leb_gt 0x10000 _)) by lia.
    rewrite (proj2 (Z.leb_le _ 0xFFFF)) by lia. done.
  - lia.
Qed.

Lemma fromCodePoint_length c : (1 ≤ length (fromCodePoint c))%nat.
Proof. unfold fromCodePoint. case_match; cbn; lia. Qed.

Lemma codePointAt_fromCodePoint pre c rest :
  scalar c → codePointAt (pre ++ fromCodePoint c ++ rest) (length pre) = Some c.
Proof.
  intros Hc. unfold codePointAt, fromCodePoint.
  destruct (Z.leb_spec c 0xFFFF) as [Hle|Hgt].
  - cbn [app]. rewrite list_lookup_middle by done.
    destruct Hc as [[Hr Hs]|Hr]; [|lia].
    destruct (Z.leb_spec 0xD800 c); destruct (Z.leb_spec c 0xDBFF); cbn [andb]; try done.
    lia.
  - destruct Hc as [[Hr Hs]|Hr]; [lia|].
    cbn [app]. rewrite list_lookup_middle by done.
    assert (Hq : 0 <= (c - 0x10000) / 0x400 < 0x400).
    { split; [apply Z.div_pos; lia | apply Z.div_lt_upper_bound; lia]. }
    pose proof (Z.mod_pos_bound (c - 0x10000) 0x400) as Hm.
    pose proof (Z.div_mod (c - 0x10000) 0x400) as Hdm.
    rewrite (proj2 (Z.leb_le 0xD800 _)) by lia.
    rewrite (proj2 (Z.leb_le _ 0xDBFF)) by lia. cbn [andb].
    replace (pre ++ ((c - 0x10000) / 0x400 + 0xD800)
                 :: ((c - 0x10000) `mod` 0x400 + 0xDC00) :: rest)
      with ((pre ++ [(c - 0x10000) / 0x400 + 0xD800])
              ++ ((c - 0x10000) `mod` 0x400 + 0xDC00) :: rest)
      by (by rewrite <- app_assoc).
    replace (S (length pre)) with (length (pre ++ [(c - 0x10000) / 0x400 + 0xD800]))
      by (rewrite length_app; cbn; lia).
    rewrite list_lookup_middle by done.
    rewrite (proj2 (Z.leb_le 0xDC00 _)) by lia.
    rewrite (proj2 (Z.leb_le _ 0xDFFF)) by lia. cbn [andb].
    f_equal. lia.
Qed.

Lemma safe_words_step s i v :
  (i < length s)%nat →
  safe_words s i v
  = safe_words s
      (i + (unshift (codePointAt s i)).2
         + (unshift (codePointAt s (i + (unshift (codePointAt s i)).2 + 1))).2 + 2)
      (v ++ [bor (num (unshift (codePointAt s (i + (unshift (codePointAt s i)).2 + 1))).1)
                 (shl (num (unshift (codePointAt s i)).1) 16)]).
Proof.
  intros Hi. rewrite safe_words_equation_1 at 1. unfold safe_words_unfold_clause_1.
  destruct (decide (i < length s)%nat); [done|lia].
Qed.

Lemma safe_words_stop s i v : ¬ (i < length s)%nat → safe_words s i v = v.
Proof.
  intros Hi. rewrite safe_words_equation_1. unfold safe_words_unfold_clause_1.
  destruct (decide (i < length s)%nat); [lia|done].
Qed.

Lemma safe_words_decode d : ∀ pre v,
  safe_words (pre ++ concat (safe_word <$> d)) (length pre) v = v ++ (repacked <$> d).
Proof.
  induction d as [|w d IH]; intros pre v.
  - cbn [fmap list_fmap concat]. rewrite !app_nil_r. by rewrite safe_words_stop by lia.
  - cbn [fmap list_fmap concat].
    set (hi := band (shr w 16) 0xffff). set (lo := band w 0xffff).
    assert (Hhi : 0 <= hi < 2 ^ 16) by apply half_range.
    assert (Hlo : 0 <= lo < 2 ^ 16) by apply half_range.
    set (rest := concat (safe_word <$> d)).
    unfold safe_word. fold hi lo.
    pose proof (fromCodePoint_length (shift hi)) as Hl1.
    pose proof (fromCodePoint_length (shift lo)) as Hl2.
    rewrite safe_words_step by (rewrite !length_app; lia).
    assert (H1 : codePointAt (pre ++ (fromCodePoint (shift hi) ++ fromCodePoint (shift lo)) ++ rest)
                   (length pre) = Some (shift hi)).
    { rewrite <- (app_assoc (fromCodePoint (shift hi))).
      apply codePointAt_fromCodePoint, shift_scalar, Hhi. }
    rewrite H1, unshift_shift by done. cbn [fst snd].
    assert (H2 : codePointAt (pre ++ (fromCodePoint (shift hi) ++ fromCodePoint (shift lo)) ++ rest)
                   (length pre + (length (fromCodePoint (shift hi)) - 1) + 1)
                 = Some (shift lo)).
    { replace (length pre + (length (fromCodePoint (shift hi)) - 1) + 1)%nat
        with (length (pre ++ fromCodePoint (shift hi))) by (rewrite length_app; lia).
      replace (pre ++ (fromCodePoint (shift hi) ++ fromCodePoint (shift lo)) ++ rest)
        with ((pre ++ fromCodePoint (shift hi)) ++ fromCodePoint (shift lo) ++ rest)
        by (by rewrite <- !app_assoc).
      apply codePointAt_fromCodePoint, shift_scalar, Hlo. }
    rewrite H2, unshift_shift by done. cbn [fst snd]. change (num (Some lo)) with lo.
    change (num (Some hi)) with hi.
    replace (length pre + (length (fromCodePoint (shift hi)) - 1)
             + (length (fromCodePoint (shift lo)) - 1) + 2)%nat
      with (length (pre ++ fromCodePoint (shift hi) ++ fromCodePoint (shift lo)))
      by (rewrite !length_app; lia).
    replace (pre ++ (fromCodePoint (shift hi) ++ fromCodePoint (shift lo)) ++ rest)
      with ((pre ++ fromCodePoint (shift hi) ++ fromCodePoint (shift lo)) ++ rest)
      by (by rewrite <- !app_assoc).
    rewrite IH. by rewrite <- app_assoc.
Qed.

Lemma repacked_word w : is_word w → ToUint32 (repacked w) = w.
Proof.
  intros Hw. destruct (word_halves w Hw) as (Heq & Hh & Hl).
  unfold repacked. rewrite Heq at 1 2.
  rewrite high_half, low_half by done.
  rewrite pack_halves by done. lia.
Qed.

(** Reading a safe string back gives the words it was written from. *)
Lemma safeStringToUint32Array_uint32ArrayToSafeString d :
  Forall is_word d → safeStringToUint32Array (uint32ArrayToSafeString d) = d.
Proof.
  intros Hd. unfold safeStringToUint32Array. rewrite uint32ArrayToSafeString_concat.
  pose proof (safe_words_decode d [] []) as H. cbn [app length] in H. rewrite H.
  rewrite <- list_fmap_compose.
  clear H. induction Hd as [|w d Hw _ IH]; [done|].
  cbn [fmap list_fmap compose]. f_equal; [by apply repacked_word|apply IH].
Qed.

(** ** The plain string encoding *)

Lemma pair_ind {A} (P : list A → Prop) :
  P [] → (∀ a, P [a]) → (∀ a b l, P l → P (a :: b :: l)) → ∀ l, P l.
Proof.
  intros H0 H1 H2 l.
  enough (H : P l ∧ ∀ a, P (a :: l)) by apply H.
  induction l as [|x l [IH1 IH2]]; [by split|]. split; [apply IH2|].
  intros a. by apply H2.
Qed.

Lemma sar_small x n :
  0 <= x < 2 ^ 31 → 0 <= n → sar x n = x / 2 ^ n.
Proof.
  intros Hx Hn. unfold sar. rewrite ToInt32_small by lia. by apply Z.shiftr_div_pow2.
Qed.

Lemma sar_1_length {A} (s : list A) :
  Z.of_nat (length s) < 2 ^ 31 →
  Z.to_nat (sar (Z.of_nat (length s)) 1) = Nat.div2 (length s).
Proof.
  intros H. rewrite sar_small by lia. rewrite Nat.div2_div.
  change (2 ^ 1) with (Z.of_nat 2). rewrite <- Nat2Z.inj_div. apply Nat2Z.id.
Qed.

Lemma index_pairs (s : list Z) :
  (fun i : nat =>
     ToUint32 (bor (num (charCodeAt s (i * 2 + 1))) (shl (num (charCodeAt s (i * 2))) 16)))
  <$> seq 0 (Nat.div2 (length s))
  = pairs_words s.
Proof.
  induction s as [| a | a b l IH] using pair_ind; [done|done|].
  cbn [length Nat.div2 seq fmap list_fmap pairs_words]. f_equal.
  rewrite <- IH. rewrite <- fmap_S_seq, <- list_fmap_compose.
  apply list_fmap_ext. intros _ i _. unfold compose, charCodeAt.
  replace (S i * 2 + 1)%nat with (S (S (i * 2 + 1))) by lia.
  replace (S i * 2)%nat with (S (S (i * 2))) by lia. done.
Qed.

Lemma even_length_mod {A} (s : list A) :
  Z.of_nat (length s) `mod` 2 = 0 ↔ Nat.even (length s) = true.
Proof.
  rewrite Nat.even_spec. split.
  - intros H. exists (Z.to_nat (Z.of_nat (length s) / 2)).
    pose proof (Z.div_mod (Z.of_nat (length s)) 2).
    assert (0 <= Z.of_nat (length s) / 2) by (apply Z.div_pos; lia). lia.
  - intros [m Hm]. rewrite Hm. rewrite Nat2Z.inj_mul, Z.mul_comm. apply Z.mod_mul. lia.
Qed.

Lemma stringToUint32Array_pairs s :
  Z.of_nat (length s) < 2 ^ 31 - 1 →
  stringToUint32Array s
  = pairs_words (if decide (Z.of_nat (length s) `mod` 2 > 0) then s ++ [32] else s).
Proof.
  intros Hlen. unfold stringToUint32Array.
  set (s' := if decide (Z.of_nat (length s) `mod` 2 > 0) then s ++ [32] else s).
  assert (Hlen' : Z.of_nat (length s') < 2 ^ 31).
  { unfold s'. case_decide; [rewrite length_app; cbn|]; lia. }
  rewrite sar_1_length by done. apply index_pairs.
Qed.

Lemma pairs_words_snoc s0 a b :
  Nat.even (length s0) = true →
  pairs_words (s0 ++ [a; b]) = pairs_words s0 ++ [ToUint32 (bor b (shl a 16))].
Proof.
  induction s0 as [| x | x y l IH] using pair_ind; intros He; [done|done|].
  cbn [app pairs_words]. f_equal. apply IH. exact He.
Qed.

Lemma even_snoc2 {A} (s : list A) :
  Nat.even (length s) = true → s ≠ [] →
  ∃ s0 a b, s = s0 ++ [a; b] ∧ Nat.even (length s0) = true.
Proof.
  intros He Hne.
  destruct s as [|b s1 _] using rev_ind; [done|].
  destruct s1 as [|a s0 _] using rev_ind; [done|].
  exists s0, a, b. split; [by rewrite <- app_assoc|].
  rewrite !length_app in He. cbn in He.
  replace (length s0 + 1 + 1)%nat with (S (S (length s0))) in He by lia. exact He.
Qed.

Lemma odd_snoc {A} (s : list A) :
  Nat.even (length s) = false →
  ∃ s0 a, s = s0 ++ [a] ∧ Nat.even (length s0) = true.
Proof.
  intros Ho.
  destruct s as [|a s0 _] using rev_ind; [done|].
  exists s0, a. split; [done|].
  rewrite length_app in Ho. cbn in Ho.
  rewrite Nat.add_1_r, Nat.even_succ, <- Nat.negb_even in Ho.
  by destruct (Nat.even (length s0)).
Qed.

Lemma fromCharCode_half x : fromCharCode (band x 0xffff) = [band x 0xffff].
Proof.
  unfold fromCharCode, ToUint16. f_equal. apply Z.mod_small, half_range.
Qed.

Lemma both_units_pack a b :
  is_code_unit a → is_code_unit b →
  both_units (ToUint32 (bor b (shl a 16))) = [a; b].
Proof.
  unfold is_code_unit. intros Ha Hb. unfold both_units.
  rewrite !fromCharCode_half, pack_halves by lia.
  by rewrite high_half, low_half by lia.
Qed.

Lemma both_units_pairs s :
  Nat.even (length s) = true → Forall is_code_unit s →
  concat (both_units <$> pairs_words s) = s.
Proof.
  induction s as [| x | x y l IH] using pair_ind; intros He Hs; [done|done|].
  apply Forall_cons in Hs as [Hx Hs]. apply Forall_cons in Hs as [Hy Hs].
  cbn [pairs_words fmap list_fmap concat].
  rewrite both_units_pack by done. cbn [app]. f_equal. f_equal. by apply IH.
Qed.

Lemma uint32ArrayToString_snoc ws w :
  uint32ArrayToString (ws ++ [w])
  = concat (both_units <$> ws) ++ [band (shr w 16) 0xffff]
    ++ (if decide (band w 0xffff = 32) then [] else [band w 0xffff]).
Proof.
  unfold uint32ArrayToString. rewrite length_app. cbn [length].
  rewrite decide_False by lia.
  replace (Z.to_nat (Z.of_nat (length ws + 1) - 1)) with (length ws) by lia.
  rewrite (foldl_seq_lookup
    (fun (result : list Z) (o : option Z) =>
       result ++ (fromCharCode (band (shr (num o) 16) 0xffff)
                  ++ fromCharCode (band (num o) 0xffff))) ws [w] []).
  change (foldl _ [] ws) with (foldl (fun r x => r ++ both_units x) [] ws).
  rewrite (foldl_app_concat both_units ws []). cbn [app].
  rewrite list_lookup_middle by done. change (num (Some w)) with w.
  rewrite !fromCharCode_half.
  destruct (decide (band w 0xffff = 32)) as [Hq|Hq].
  - rewrite decide_False; [done|]. intros H. apply H. by rewrite Hq.
  - rewrite decide_True; [by rewrite <- app_assoc|]. intros H. injection H. done.
Qed.

(** Unpacking the words of a string gives the string back, up to the
    trailing space of an even number of code units. *)
Lemma uint32ArrayToString_stringToUint32Array s :
  representable s → uint32ArrayToString (stringToUint32Array s) = stripped s.
Proof.
  intros [Hs Hlen]. rewrite stringToUint32Array_pairs by lia. unfold stripped.
  destruct (Nat.even (length s)) eqn:He.
  - assert (Hm : Z.of_nat (length s) `mod` 2 = 0) by by apply even_length_mod.
    rewrite decide_False by lia.
    destruct (decide (s = [])) as [->|Hne]; [done|].
    destruct (even_snoc2 s He Hne) as (s0 & a & b & -> & He0).
    apply Forall_app in Hs as [Hs0 Hab].
    apply Forall_cons in Hab as [Ha Hb]. apply Forall_cons in Hb as [Hb _].
    rewrite pairs_words_snoc, uint32ArrayToString_snoc by done.
    rewrite both_units_pairs, pack_halves by (done || (unfold is_code_unit in *; lia)).
    rewrite high_half, low_half by (unfold is_code_unit in *; lia).
    replace (List.last (s0 ++ [a; b]) 0) with b
      by (change [a; b] with ([a] ++ [b]); by rewrite app_assoc, List.last_last).
    destruct (decide (b = 32)) as [Hb32|Hb32].
    + rewrite decide_True by done.
      assert (Hrl : removelast (s0 ++ [a; b]) = s0 ++ [a]).
      { change (s0 ++ [a; b]) with (s0 ++ [a] ++ [b]).
        rewrite app_assoc. apply removelast_last. }
      by rewrite Hrl.
    + rewrite decide_False by (intros [_ Hl]; by apply Hb32). done.
  - assert (Hm : Z.of_nat (length s) `mod` 2 ≠ 0).
    { intros H. apply even_length_mod in H. congruence. }
    pose proof (Z.mod_pos_bound (Z.of_nat (length s)) 2).
    rewrite decide_True by lia. rewrite decide_False by (intros [Hz _]; by apply Hm).
    destruct (odd_snoc s He) as (s0 & a & -> & He0).
    apply Forall_app in Hs as [Hs0 Ha]. rewrite Forall_singleton in Ha.
    rewrite <- app_assoc. cbn [app].
    rewrite pairs_words_snoc, uint32ArrayToString_snoc by done.
    rewrite both_units_pairs, pack_halves by (done || (unfold is_code_unit in *; lia)).
    rewrite high_half, low_half by (unfold is_code_unit in *; lia).
    rewrite decide_True by done. done.
Qed.

(** ** Keys and the signing tag *)

Lemma hexStringToUint32Array_length K :
  Z.of_nat (length K) < 2 ^ 31 →
  length (hexStringToUint32Array K) = (length K / 8)%nat.
Proof.
  intros H. unfold hexStringToUint32Array. rewrite length_fmap, length_seq.
  rewrite sar_small by lia. change (2 ^ 3) with (Z.of_nat 8).
  rewrite <- Nat2Z.inj_div. apply Nat2Z.id.
Qed.

Lemma hexStringToUint32Array_words K : Forall is_word (hexStringToUint32Array K).
Proof.
  unfold hexStringToUint32Array. apply Forall_fmap, Forall_forall.
  intros i _. apply ToUint32_range.
Qed.

Lemma sign_fits s tag :
  (length tag ≤ 4)%nat → Forall is_word tag → Forall is_word s →
  sign s tag = Some (tag ++ replicate (4 - length tag) 0 ++ s).
Proof.
  intros Hlen Htag Hs. unfold sign, typed_set.
  rewrite decide_True by (rewrite length_replicate; lia).
  cbn [mbind option_bind take app Nat.add].
  rewrite !fmap_ToUint32_words by done.
  rewrite drop_replicate. change (take 0 (replicate (length s + 4) 0)) with (@nil Z).
  cbn [app].
  rewrite decide_True by (rewrite length_app, length_replicate; lia).
  f_equal. rewrite take_app, (take_ge tag) by lia.
  rewrite take_replicate, drop_ge by (rewrite length_app, length_replicate; lia).
  rewrite app_nil_r, <- app_assoc. f_equal. f_equal. f_equal. lia.
Qed.

Lemma tag_differs_true s k :
  tag_differs s k = true ↔ ∃ i x, k !! i = Some x ∧ s !! i ≠ Some x.
Proof.
  unfold tag_differs. rewrite existsb_exists. split.
  - intros ([i x] & Hin & Hb). apply list_elem_of_In, elem_of_lookup_imap in Hin.
    destruct Hin as (i' & x' & Heq & Hl). injection Heq as -> ->.
    apply bool_decide_eq_true in Hb. eauto.
  - intros (i & x & Hl & Hne). exists (i, x). split.
    + apply list_elem_of_In, elem_of_lookup_imap. eauto.
    + by apply bool_decide_eq_true.
Qed.

Lemma tag_differs_false s k :
  (∀ i x, k !! i = Some x → s !! i = Some x) → tag_differs s k = false.
Proof.
  intros H. apply not_true_is_false. rewrite tag_differs_true.
  intros (i & x & Hl & Hne). apply Hne, H, Hl.
Qed.

Lemma checkSign_sign s tag :
  (length tag ≤ 4)%nat →
  checkSign (tag ++ replicate (4 - length tag) 0 ++ s) tag = s.
Proof.
  intros Hlen. unfold checkSign. rewrite tag_differs_false.
  - rewrite app_assoc. apply drop_app_length'.
    rewrite length_app, length_replicate. lia.
  - intros i x Hl. by apply lookup_app_l_Some.
Qed.

Lemma encryptUint32Array_pure v k n :
  length v = S n →
  encryptUint32Array v k
  = foldl (enc_pure k (S n)) v (sum_at <$> seq 1 (Z.to_nat (16 + 52 / Z.of_nat (S n)))).
Proof.
  intros HL. destruct (rounds_value (S n)) as [Hq Hqr]; [lia|].
  unfold encryptUint32Array, encryptUint32Array_rounds. rewrite HL, Hq.
  rewrite bor_0_small by lia. change 0 with (sum_at 0) at 1.
  rewrite enc_rounds_schedule. cbn [fst].
  replace (S n - 1)%nat with n by lia. by apply enc_fold_pure.
Qed.

Lemma encryptUint32Array_words v k :
  Forall is_word v →
  Forall is_word (encryptUint32Array v k) ∧ length (encryptUint32Array v k) = length v.
Proof.
  intros Hw. destruct (length v) as [|n] eqn:HL.
  - apply nil_length_inv in HL. subst v. by cbn.
  - rewrite (encryptUint32Array_pure v k n HL).
    split; [by apply enc_pures_words | by rewrite enc_pures_length].
Qed.

(** What [decrypt] makes of a text [encrypt] produced under the same key,
    for a key of at most eight words. *)
Lemma decrypt_encrypt_stripped M K :
  representable M → (length K < 72)%nat →
  ∃ c, encrypt M K = Some c ∧ decrypt c K = stripped M.
Proof.
  intros HM HK. unfold encrypt, decrypt.
  set (k2 := hexStringToUint32Array K).
  assert (Hk2 : Forall is_word k2) by apply hexStringToUint32Array_words.
  assert (Htag : (length (drop 4 k2) ≤ 4)%nat).
  { rewrite length_drop. unfold k2. rewrite hexStringToUint32Array_length by lia.
    pose proof (Nat.Div0.div_lt_upper_bound (length K) 8 9). lia. }
  assert (Hsw : Forall is_word (stringToUint32Array M)).
  { unfold stringToUint32Array. apply Forall_fmap, Forall_forall.
    intros i _. apply ToUint32_range. }
  rewrite sign_fits by (done || by apply Forall_drop).
  cbn [mbind option_bind].
  set (v := drop 4 k2 ++ replicate (4 - length (drop 4 k2)) 0 ++ stringToUint32Array M).
  assert (Hv : Forall is_word v).
  { unfold v. repeat apply Forall_app_2; try done; [by apply Forall_drop|].
    apply Forall_replicate. unfold is_word. lia. }
  assert (Hlv : (2 ≤ length v)%nat).
  { unfold v. rewrite !length_app, length_replicate. lia. }
  eexists. split; [done|].
  rewrite safeStringToUint32Array_uint32ArrayToSafeString
    by (by apply encryptUint32Array_words).
  rewrite decryptUint32Array_encryptUint32Array by done.
  unfold v. rewrite checkSign_sign by done.
  by apply uint32ArrayToString_stringToUint32Array.
Qed.

(** ** The cipher codec: round trip and rounds *)

(** C1 (as amended).  For every string the host can hold that is not an
    even number of code units ending in a space, and every key string of
    fewer than 72 code units (at most eight words, which covers the keys of
    32 and of 64 hexadecimal digits), [encrypt] succeeds and [decrypt]
    under the same key gives the string back. *)
Theorem decrypt_encrypt_roundtrip M K :
  representable M → (length K < 72)%nat →
  ¬ (Z.of_nat (length M) `mod` 2 = 0 ∧ List.last M 0 = 32) →
  ∃ c, encrypt M K = Some c ∧ decrypt c K = M.
Proof.
  intros HM HK Hsp.
  destruct (decrypt_encrypt_stripped M K HM HK) as (c & Hc & Hd).
  exists c. split; [done|]. rewrite Hd. unfold stripped. by rewrite decide_False.
Qed.

Lemma div_52_bounds (n : nat) :
  (1 ≤ n)%nat →
  0 <= 52 / Z.of_nat n <= 52
  ∧ ((n ≤ 52)%nat ↔ 1 <= 52 / Z.of_nat n)
  ∧ (n = 1%nat → 52 / Z.of_nat n = 52).
Proof.
  intros Hn. split; [|split].
  - split; [apply Z.div_pos; lia|]. apply Z.div_le_upper_bound; nia.
  - split.
    + intros Hle. apply Z.div_le_lower_bound; lia.
    + intros Hq. destruct (decide (n ≤ 52)%nat); [done|].
      rewrite Z.div_small in Hq by lia. lia.
  - intros ->. done.
Qed.

(** C4 (as amended).  For a message of [n >= 1] words, encryption runs
    exactly [floor(16 + 52 / n)] rounds, with [sum] going up by [DELTA]
    (modulo 2^32) from round to round, and decryption runs the same rounds
    in reverse order, [sum] going down by [DELTA].  The number of rounds is
    at least 16; it is at least 17 exactly for the messages of at most 52
    words, and 68 for one word. *)
Theorem rounds_schedule v k :
  (1 ≤ length v)%nat →
  let q := Z.to_nat (16 + 52 / Z.of_nat (length v)) in
  (encryptUint32Array_rounds v k).2 = sum_at <$> seq 1 q
  ∧ (decryptUint32Array_rounds v k).2 = reverse (sum_at <$> seq 1 q)
  ∧ length (encryptUint32Array_rounds v k).2 = q
  ∧ length (decryptUint32Array_rounds v k).2 = q
  ∧ (16 ≤ q)%nat
  ∧ ((length v ≤ 52)%nat ↔ (17 ≤ q)%nat)
  ∧ (length v = 1%nat → q = 68%nat)
  ∧ ∀ i, sum_at (S i) = band (sum_at i + DELTA) 0xffffffff
         ∧ sum_at i = band (sum_at (S i) - DELTA) 0xffffffff.
Proof.
  intros Hn q.
  destruct (rounds_value (length v) Hn) as [Hq Hqr].
  destruct (div_52_bounds (length v) Hn) as (Hb & H52 & H1).
  assert (He : (encryptUint32Array_rounds v k).2 = sum_at <$> seq 1 q).
  { unfold encryptUint32Array_rounds. rewrite Hq, bor_0_small by lia.
    change 0 with (sum_at 0) at 1. by rewrite enc_rounds_schedule. }
  assert (Hd : (decryptUint32Array_rounds v k).2 = reverse (sum_at <$> seq 1 q)).
  { unfold decryptUint32Array_rounds. rewrite Hq.
    replace (band ((16 + 52 / Z.of_nat (length v)) * DELTA) 0xffffffff)
      with (sum_at q) by (rewrite band_mask32; unfold sum_at, q; f_equal; lia).
    rewrite dec_rounds_schedule by (unfold q; lia). done. }
  split; [done|]. split; [done|].
  split; [by rewrite He, length_fmap, length_seq|].
  split; [by rewrite Hd, length_reverse, length_fmap, length_seq|].
  split; [unfold q; lia|]. split; [unfold q; split; intros; [|apply H52]; lia|].
  split; [intros H; unfold q; rewrite (H1 H); lia|].
  intros i. by rewrite sum_at_S, sum_at_pred.
Qed.

(** ** The block cipher is a permutation *)

Lemma word_update_undo sgn sum e k L v p :
  length v = L → (2 ≤ L)%nat → (p < L)%nat → Forall is_word v →
  word_update (- sgn) sum e k L (word_update sgn sum e k L v p) p = v.
Proof.
  intros HL H2 Hp Hw. unfold word_update.
  assert (Hn : p ≠ nextL L p) by (unfold nextL; case_decide; lia).
  assert (Hpr : p ≠ prevL L p) by (unfold prevL; case_decide; lia).
  rewrite list_lookup_insert_eq by lia.
  rewrite !list_lookup_insert_ne by done.
  rewrite list_insert_insert_eq.
  destruct (lookup_lt_is_Some_2 v p) as [a Ha]; [lia|]. rewrite Ha. simpl.
  apply list_insert_id. rewrite Ha. f_equal.
  set (m := mx _ _ _ _ _ _).
  rewrite (ToUint32_congr_add _ (a + sgn * m)) by apply ToUint32_idemp.
  replace (a + sgn * m + - sgn * m) with a by lia.
  symmetry. apply ToUint32_small. eapply Forall_lookup_1 in Hw; eauto.
Qed.

Lemma word_updates_undo sgn sum e k L ps : ∀ v,
  length v = L → (2 ≤ L)%nat → Forall (fun p => p < L)%nat ps → Forall is_word v →
  foldl (word_update (- sgn) sum e k L) (foldl (word_update sgn sum e k L) v ps) (reverse ps)
  = v.
Proof.
  induction ps as [|p ps IH] using rev_ind; intros v HL H2 Hps Hw; [done|].
  apply Forall_app in Hps as [Hps Hp]. rewrite Forall_singleton in Hp.
  rewrite reverse_app, !foldl_app. cbn [foldl].
  change (reverse [p]) with [p]. cbn [foldl app].
  rewrite word_update_undo; [by apply IH| | done | done |].
  - by rewrite word_updates_length.
  - by apply word_updates_words.
Qed.

Lemma dec_pures_length k L sums : ∀ v, length (foldl (dec_pure k L) v sums) = length v.
Proof.
  induction sums as [|s sums IH]; intros v; [done|]. cbn [foldl].
  by rewrite IH, dec_pure_length.
Qed.

Lemma dec_pures_words k L sums : ∀ v,
  Forall is_word v → Forall is_word (foldl (dec_pure k L) v sums).
Proof.
  induction sums as [|s sums IH]; intros v H; [done|]. cbn [foldl].
  apply IH, word_updates_words, H.
Qed.

Lemma pure_rounds_redo k L sums : ∀ v,
  length v = L → (2 ≤ L)%nat → Forall is_word v →
  foldl (enc_pure k L) (foldl (dec_pure k L) v (reverse sums)) sums = v.
Proof.
  induction sums as [|s sums IH]; intros v HL H2 Hw; [done|].
  rewrite reverse_cons, foldl_app. cbn [foldl].
  assert (Hc : ∀ w, length w = L → Forall is_word w →
                    enc_pure k L (dec_pure k L w s) s = w).
  { intros w HwL Hww. unfold dec_pure, enc_pure.
    pose proof (word_updates_undo (-1) s (band (shr s 2) 3) k L (reverse (seq 0 L)) w) as H.
    rewrite reverse_involutive in H. change (- -1) with 1 in H.
    apply H; [done|done| |done].
    apply Forall_reverse, Forall_forall. intros p Hp. apply elem_of_seq in Hp. lia. }
  rewrite Hc; [by apply IH| |].
  - by rewrite dec_pures_length.
  - by apply dec_pures_words.
Qed.

Lemma decryptUint32Array_pure v k n :
  length v = S n →
  decryptUint32Array v k
  = foldl (dec_pure k (S n)) v
      (reverse (sum_at <$> seq 1 (Z.to_nat (16 + 52 / Z.of_nat (S n))))).
Proof.
  intros HL. destruct (rounds_value (S n)) as [Hq Hqr]; [lia|].
  unfold decryptUint32Array, decryptUint32Array_rounds. rewrite HL, Hq.
  set (q := 16 + 52 / Z.of_nat (S n)) in *.
  replace (band (q * DELTA) 0xffffffff) with (sum_at (Z.to_nat q))
    by (rewrite band_mask32; unfold sum_at; f_equal; lia).
  rewrite dec_rounds_schedule by lia. cbn [fst].
  replace (S n - 1)%nat with n by lia.
  by apply dec_fold_pure.
Qed.

Lemma decryptUint32Array_words v k :
  Forall is_word v →
  Forall is_word (decryptUint32Array v k) ∧ length (decryptUint32Array v k) = length v.
Proof.
  intros Hw. destruct (length v) as [|n] eqn:HL.
  - apply length_zero_iff_nil in HL. subst v.
    unfold decryptUint32Array, decryptUint32Array_rounds.
    change (floor_16_52 (length [])) with (@None Z). cbv beta iota zeta.
    by rewrite (dec_rounds_schedule k _ 0%nat _ []) by lia.
  - rewrite (decryptUint32Array_pure v k n HL). split.
    + by apply dec_pures_words.
    + by rewrite dec_pures_length.
Qed.

Lemma encryptUint32Array_length v k : length (encryptUint32Array v k) = length v.
Proof.
  destruct (length v) as [|n] eqn:HL.
  - apply length_zero_iff_nil in HL. by subst v.
  - rewrite (encryptUint32Array_pure v k n HL). by rewrite enc_pures_length.
Qed.

(** X1.  On arrays of at least two words, [encryptUint32Array] and
    [decryptUint32Array] under the same key array are inverse to each other,
    in both orders, whatever the key array is; both keep the length of the
    array. *)
Theorem block_cipher_inverse v k :
  (2 ≤ length v)%nat → Forall is_word v →
  decryptUint32Array (encryptUint32Array v k) k = v
  ∧ encryptUint32Array (decryptUint32Array v k) k = v
  ∧ length (encryptUint32Array v k) = length v
  ∧ length (decryptUint32Array v k) = length v.
Proof.
  intros H2 Hw. split; [by apply decryptUint32Array_encryptUint32Array|].
  split; [|split; [apply encryptUint32Array_length|by apply decryptUint32Array_words]].
  destruct (length v) as [|n] eqn:HL; [lia|].
  rewrite (decryptUint32Array_pure v k n HL).
  rewrite (encryptUint32Array_pure _ k n) by by rewrite dec_pures_length.
  apply pure_rounds_redo; [done|lia|done].
Qed.

(** ** The key words the cipher reads *)

Lemma band_3_range x : 0 <= band x 3 <= 3.
Proof.
  unfold band. change (ToInt32 3) with (Z.ones 2). rewrite Z.land_ones by lia.
  pose proof (Z.mod_pos_bound (ToInt32 x) (2 ^ 2)). lia.
Qed.

Lemma key_index_range p sum :
  (Z.to_nat (bxor (band (Z.of_nat p) 3) (band (shr sum 2) 3)) < 4)%nat.
Proof.
  pose proof (band_3_range (Z.of_nat p)) as Ha.
  pose proof (band_3_range (shr sum 2)) as Hb.
  set (a := band (Z.of_nat p) 3) in *. set (b := band (shr sum 2) 3) in *.
  assert (Ha' : a = 0 ∨ a = 1 ∨ a = 2 ∨ a = 3) by lia.
  assert (Hb' : b = 0 ∨ b = 1 ∨ b = 2 ∨ b = 3) by lia.
  destruct Ha' as [->|[->|[->| ->]]], Hb' as [->|[->|[->| ->]]]; vm_compute; lia.
Qed.

Lemma mx_key sum y z p k s :
  mx sum y z p (band (shr s 2) 3) k = mx sum y z p (band (shr s 2) 3) (take 4 k).
Proof.
  unfold mx. by rewrite lookup_take_lt by apply key_index_range.
Qed.

Lemma enc_round_key k n sum st : enc_round k n sum st = enc_round (take 4 k) n sum st.
Proof.
  unfold enc_round.
  assert (Ha : ∀ next st p, enc_assign sum (band (shr sum 2) 3) k next st p
                            = enc_assign sum (band (shr sum 2) 3) (take 4 k) next st p).
  { intros next [v z] p. unfold enc_assign. by rewrite mx_key. }
  rewrite Ha.
  rewrite (foldl_ext_in _ (fun st p => enc_assign sum (band (shr sum 2) 3) (take 4 k)
                                         (p + 1) st p)); [done|].
  intros. apply Ha.
Qed.

Lemma dec_round_key k n sum st : dec_round k n sum st = dec_round (take 4 k) n sum st.
Proof.
  unfold dec_round.
  assert (Ha : ∀ prev st p, dec_assign sum (band (shr sum 2) 3) k prev st p
                            = dec_assign sum (band (shr sum 2) 3) (take 4 k) prev st p).
  { intros prev [v y] p. unfold dec_assign. by rewrite mx_key. }
  rewrite Ha.
  rewrite (foldl_ext_in _ (fun st p => dec_assign sum (band (shr sum 2) 3) (take 4 k)
                                         (p - 1) st p)); [done|].
  intros. apply Ha.
Qed.

(** X2.  The rounds read the key array at the indices 0 to 3 only:
    encryption and decryption under a key array are those under its first
    four words. *)
Theorem cipher_uses_four_key_words v k :
  encryptUint32Array v k = encryptUint32Array v (take 4 k)
  ∧ decryptUint32Array v k = decryptUint32Array v (take 4 k).
Proof.
  split.
  - unfold encryptUint32Array, encryptUint32Array_rounds.
    assert (Hs : ∀ q k' n st, enc_rounds q k' n 0 st []
                 = ((foldl (fun st s => enc_round k' n s st) st (sum_at <$> seq 1 q)).1,
                    sum_at <$> seq 1 q)).
    { intros. apply (enc_rounds_schedule q k' n 0%nat st []). }
    rewrite !Hs. cbn [fst].
    rewrite (foldl_ext_in _ (fun st s => enc_round (take 4 k) (length v - 1) s st));
      [done|].
    intros. apply enc_round_key.
  - unfold decryptUint32Array, decryptUint32Array_rounds.
    destruct (length v) as [|n] eqn:HL.
    + change (floor_16_52 0) with (@None Z). cbv beta iota zeta.
      assert (Hz : ∀ k' m st, dec_rounds k' m 0 st [] = (st.1, [])).
      { intros. apply (dec_rounds_schedule k' m 0%nat st []). lia. }
      by rewrite !Hz.
    + destruct (rounds_value (S n)) as [Hq Hqr]; [lia|]. rewrite Hq.
      set (q := 16 + 52 / Z.of_nat (S n)) in *.
      replace (band (q * DELTA) 0xffffffff) with (sum_at (Z.to_nat q))
        by (rewrite band_mask32; unfold sum_at; f_equal; lia).
      rewrite !dec_rounds_schedule by lia. cbn [fst].
      rewrite (foldl_ext_in _ (fun st s => dec_round (take 4 k) (S n - 1) s st));
        [done|].
      intros. apply dec_round_key.
Qed.

(** ** The printable encoding of an array *)

Lemma shifted_unit h :
  0 <= h < 2 ^ 16 →
  (∀ r, well_formed (fromCodePoint (shift h) ++ r) = well_formed r)
  ∧ Forall printable (fromCodePoint (shift h))
  ∧ (1 ≤ length (fromCodePoint (shift h)) ≤ 2)%nat.
Proof.
  intros Hh. unfold shift, fromCodePoint, printable.
  destruct (h <? 32) eqn:H32.
  - apply Z.ltb_lt in H32.
    rewrite (proj2 (Z.leb_gt _ _)) by lia.
    replace (h + 0x10800 - 0x10000) with (h + 2 * 0x400) by lia.
    rewrite Z.div_add, Z.mod_add by lia.
    rewrite Z.div_small, Z.mod_small by lia.
    split; [|split; [|cbn; lia]].
    + intros r. cbn [app well_formed]. unfold is_lead, is_trail.
      rewrite !(proj2 (Z.leb_le _ _)) by lia. done.
    + repeat constructor; lia.
  - apply Z.ltb_ge in H32.
    destruct ((0xD800 <=? h) && (h <=? 0xDFFF)) eqn:Hs.
    + apply andb_true_iff in Hs as [H1 H2]. apply Z.leb_le in H1, H2.
      rewrite (proj2 (Z.leb_gt _ _)) by lia.
      replace (h + 0x10000 - 0xD800 - 0x10000) with (h - 0xD800) by lia.
      pose proof (Z.mod_pos_bound (h - 0xD800) 0x400).
      assert (0 <= (h - 0xD800) / 0x400 < 2).
      { split; [apply Z.div_pos; lia|apply Z.div_lt_upper_bound; lia]. }
      split; [|split; [|cbn; lia]].
      * intros r. cbn [app well_formed]. unfold is_lead, is_trail.
        rewrite !(proj2 (Z.leb_le _ _)) by lia. done.
      * repeat constructor; lia.
    + rewrite (proj2 (Z.leb_le _ _)) by lia.
      split; [|split; [|cbn; lia]].
      * intros r. cbn [app well_formed]. unfold is_lead, is_trail.
        apply andb_false_iff in Hs as [H1|H1]; [apply Z.leb_gt in H1|apply Z.leb_gt in H1].
        -- rewrite !(proj2 (Z.leb_gt 0xD800 h)) by lia.
           rewrite !(proj2 (Z.leb_gt 0xDC00 h)) by lia. done.
        -- rewrite !(proj2 (Z.leb_gt h 0xDBFF)) by lia.
           rewrite !(proj2 (Z.leb_gt h 0xDFFF)) by lia.
           by rewrite !andb_false_r.
      * repeat constructor; lia.
Qed.

Lemma safe_string_shape d :
  well_formed (uint32ArrayToSafeString d) = true
  ∧ Forall printable (uint32ArrayToSafeString d)
  ∧ (2 * length d ≤ length (uint32ArrayToSafeString d) ≤ 4 * length d)%nat.
Proof.
  rewrite uint32ArrayToSafeString_concat.
  induction d as [|w d (IH1 & IH2 & IH3)];
    [split; [done|split; [constructor|cbn; lia]]|].
  cbn [fmap list_fmap concat].
  change (safe_word w) with (fromCodePoint (shift (band (shr w 16) 0xffff))
                             ++ fromCodePoint (shift (band w 0xffff))).
  destruct (shifted_unit (band (shr w 16) 0xffff)) as (Hw1 & Hp1 & Hl1);
    [apply half_range|].
  destruct (shifted_unit (band w 0xffff)) as (Hw2 & Hp2 & Hl2); [apply half_range|].
  split; [|split].
  - by rewrite <- !app_assoc, Hw1, Hw2.
  - by rewrite !Forall_app.
  - rewrite !length_app. cbn [length]. lia.
Qed.

(** X3.  The string [uint32ArrayToSafeString] makes of an array is
    well-formed UTF-16 without control characters (no code unit below 32),
    of two to four code units per word; and [safeStringToUint32Array] reads
    an array of words back from it. *)
Theorem safe_string_codec d :
  well_formed (uint32ArrayToSafeString d) = true
  ∧ Forall printable (uint32ArrayToSafeString d)
  ∧ (2 * length d ≤ length (uint32ArrayToSafeString d) ≤ 4 * length d)%nat
  ∧ (Forall is_word d → safeStringToUint32Array (uint32ArrayToSafeString d) = d).
Proof.
  destruct (safe_string_shape d) as (Hw & Hp & Hl).
  split; [done|]. split; [done|]. split; [done|].
  apply safeStringToUint32Array_uint32ArrayToSafeString.
Qed.

(** ** Strings and arrays *)

Lemma halves_of_word w :
  is_word w →
  band (shr w 16) 0xffff = w / 2 ^ 16 ∧ band w 0xffff = w `mod` 2 ^ 16.
Proof.
  intros Hw. destruct (word_halves w Hw) as (Hd & Hh & Hl).
  pose proof (high_half _ _ Hh Hl) as H1. pose proof (low_half _ _ Hh Hl) as H2.
  by rewrite <- Hd in H1, H2.
Qed.

Lemma both_units_length ws : length (concat (both_units <$> ws)) = (2 * length ws)%nat.
Proof. induction ws as [|w ws IH]; [done|]. cbn. rewrite IH. lia. Qed.

Lemma even_double n : Nat.even (2 * n) = true.
Proof. rewrite Nat.even_mul. done. Qed.

Lemma pack_word w :
  is_word w → ToUint32 (bor (band w 0xffff) (shl (band (shr w 16) 0xffff) 16)) = w.
Proof.
  intros Hw. destruct (halves_of_word w Hw) as [-> ->].
  destruct (word_halves w Hw) as (Hd & Hh & Hl).
  rewrite pack_halves by done. lia.
Qed.

Lemma pairs_words_both_units ws :
  Forall is_word ws → pairs_words (concat (both_units <$> ws)) = ws.
Proof.
  induction 1 as [|w ws Hw _ IH]; [done|].
  cbn [fmap list_fmap concat]. unfold both_units at 1. rewrite !fromCharCode_half.
  cbn [app pairs_words]. by rewrite pack_word, IH.
Qed.

(** X4.  Packing the string of an array gives the array back:
    [stringToUint32Array] undoes [uint32ArrayToString] on every array of
    words (the space that [uint32ArrayToString] drops is the one
    [stringToUint32Array] pads with). *)
Theorem stringToUint32Array_uint32ArrayToString d :
  Forall is_word d → Z.of_nat (length d) < 2 ^ 29 →
  stringToUint32Array (uint32ArrayToString d) = d.
Proof.
  intros Hd Hlen. destruct d as [|w0 d0] using rev_ind; [done|]. clear IHd0.
  apply Forall_app in Hd as [Hws Hw]. rewrite Forall_singleton in Hw.
  rewrite length_app in Hlen. cbn [length] in Hlen.
  rewrite uint32ArrayToString_snoc.
  set (s0 := concat (both_units <$> d0)).
  assert (Hl0 : length s0 = (2 * length d0)%nat) by apply both_units_length.
  assert (He0 : Nat.even (length s0) = true) by (rewrite Hl0; apply even_double).
  set (hi := band (shr w0 16) 0xffff). set (lo := band w0 0xffff).
  assert (Hpack : ToUint32 (bor lo (shl hi 16)) = w0) by by apply pack_word.
  case_decide as Hlo.
  - rewrite app_nil_r.
    rewrite stringToUint32Array_pairs by (rewrite !length_app, Hl0; cbn [length]; lia).
    rewrite decide_True.
    + rewrite <- !app_assoc. cbn [app].
      rewrite pairs_words_snoc by done. unfold s0.
      rewrite pairs_words_both_units by done. by rewrite <- Hlo, Hpack.
    + rewrite length_app, Hl0. cbn [length].
      replace (Z.of_nat (2 * length d0 + 1)) with (1 + Z.of_nat (length d0) * 2) by lia.
      rewrite Z.mod_add by lia. done.
  - rewrite stringToUint32Array_pairs by (rewrite !length_app, Hl0; cbn [length]; lia).
    rewrite decide_False.
    + cbn [app]. rewrite pairs_words_snoc by done. unfold s0.
      by rewrite pairs_words_both_units, Hpack.
    + rewrite !length_app, Hl0. cbn [length].
      replace (Z.of_nat (2 * length d0 + (1 + 1))) with (0 + (Z.of_nat (length d0) + 1) * 2)
        by lia.
      rewrite Z.mod_add by lia. done.
Qed.

Lemma stringToUint32Array_length s :
  Z.of_nat (length s) < 2 ^ 30 →
  length (stringToUint32Array s) = ((length s + 1) / 2)%nat.
Proof.
  intros Hs. unfold stringToUint32Array. rewrite length_fmap, length_seq.
  case_decide as Hodd.
  - rewrite sar_1_length by (rewrite length_app; cbn [length]; lia).
    rewrite length_app. cbn [length]. by rewrite Nat.div2_div.
  - rewrite sar_1_length by lia. rewrite Nat.div2_div.
    assert (He : Z.of_nat (length s) `mod` 2 = 0).
    { pose proof (Z.mod_pos_bound (Z.of_nat (length s)) 2). lia. }
    apply even_length_mod in He. apply Nat.even_spec in He as [m ->].
    replace (2 * m + 1)%nat with (1 + m * 2)%nat by lia.
    rewrite Nat.div_add by lia. rewrite Nat.mul_comm, Nat.div_mul by lia. done.
Qed.

Lemma typed_set_length target source offset v :
  typed_set target source offset = Some v → length v = length target.
Proof.
  unfold typed_set. case_decide as H; [|done]. intros [= <-].
  rewrite !length_app, length_take, length_fmap, length_drop. lia.
Qed.

Lemma sign_raises s k : sign s k = None ↔ (length s + 4 < length k)%nat.
Proof.
  unfold sign. cbn [mbind option_bind].
  destruct (typed_set (replicate (length s + 4) 0) k 0) as [v|] eqn:H1.
  - pose proof (typed_set_length _ _ _ _ H1) as Hv. rewrite length_replicate in Hv.
    unfold typed_set in H1. case_decide as Hk; [|done]. rewrite length_replicate in Hk.
    cbn. unfold typed_set. rewrite decide_True by lia. split; [done|lia].
  - unfold typed_set in H1. case_decide as Hk; [done|]. rewrite length_replicate in Hk.
    cbn. split; [lia|done].
Qed.

(** X5.  [encrypt] raises (the [RangeError] of [sign]) exactly when the
    key has more than eight words beyond the words of the message: a key of
    [k] code units and a message of [s] code units with
    [floor(k / 8) > ceil(s / 2) + 8].  Under a key of fewer than 72 code
    units it never raises. *)
Theorem encrypt_raises s k :
  Z.of_nat (length s) < 2 ^ 30 → Z.of_nat (length k) < 2 ^ 31 →
  (encrypt s k = None ↔ ((length s + 1) / 2 + 8 < length k / 8)%nat)
  ∧ ((length k < 72)%nat → is_Some (encrypt s k)).
Proof.
  intros Hs Hk.
  assert (Hiff : encrypt s k = None ↔ ((length s + 1) / 2 + 8 < length k / 8)%nat).
  { rewrite <- (stringToUint32Array_length s Hs).
    rewrite <- (hexStringToUint32Array_length k Hk).
    unfold encrypt.
    destruct (sign (stringToUint32Array s) (drop 4 (hexStringToUint32Array k)))
      as [v|] eqn:Hv.
    - cbn. split; [done|]. intros Hlt. exfalso.
      assert (Hn : sign (stringToUint32Array s) (drop 4 (hexStringToUint32Array k)) = None).
      { apply sign_raises. rewrite length_drop. lia. }
      congruence.
    - cbn. split; [|done]. intros _. apply sign_raises in Hv.
      rewrite length_drop in Hv. lia. }
  split; [done|]. intros H72.
  apply not_eq_None_Some. intros He. apply Hiff in He.
  assert (length k / 8 < 9)%nat by (apply Nat.Div0.div_lt_upper_bound; lia).
  lia.
Qed.

Lemma sign_length s k v : sign s k = Some v → length v = (length s + 4)%nat.
Proof.
  unfold sign. cbn [mbind option_bind].
  destruct (typed_set (replicate (length s + 4) 0) k 0) as [v0|] eqn:H0; [|done].
  cbn. intros H1. apply typed_set_length in H0, H1.
  rewrite length_replicate in H0. lia.
Qed.

(** X6.  The text [encrypt] returns for a message of [s] code units has
    between [2 (ceil(s / 2) + 4)] and [4 (ceil(s / 2) + 4)] code units:
    four words of tag, one word per two code units, two to four code units
    per word. *)
Theorem encrypt_length s k c :
  Z.of_nat (length s) < 2 ^ 30 → encrypt s k = Some c →
  (2 * ((length s + 1) / 2 + 4) ≤ length c ≤ 4 * ((length s + 1) / 2 + 4))%nat.
Proof.
  intros Hs. unfold encrypt.
  destruct (sign (stringToUint32Array s) (drop 4 (hexStringToUint32Array k)))
    as [v|] eqn:Hv; [|done].
  cbn. intros [= <-]. apply sign_length in Hv.
  rewrite stringToUint32Array_length in Hv by done.
  destruct (safe_string_shape (encryptUint32Array v (hexStringToUint32Array k)))
    as (_ & _ & Hb).
  rewrite encryptUint32Array_length, Hv in Hb. done.
Qed.

Lemma decrypt_nil k : decrypt [] k = [].
Proof.
  unfold decrypt.
  change (safeStringToUint32Array []) with (@nil Z).
  destruct (decryptUint32Array_words [] (hexStringToUint32Array k)) as [_ Hl];
    [constructor|].
  apply length_zero_iff_nil in Hl. rewrite Hl.
  unfold checkSign. by destruct (tag_differs _ _).
Qed.

(** ** Keys written in hexadecimal *)

Lemma hexDigit_hex_char up d : 0 <= d < 16 → hexDigit (hex_char up d) = Some d.
Proof.
  intros Hd. unfold hex_char, hexDigit.
  destruct (d <? 10) eqn:H10; [apply Z.ltb_lt in H10|apply Z.ltb_ge in H10].
  - rewrite (proj2 (Z.leb_le 48 _)), (proj2 (Z.leb_le _ 57)) by lia. cbn. f_equal. lia.
  - destruct up.
    + rewrite (proj2 (Z.leb_le 48 _)), (proj2 (Z.leb_gt _ 57)) by lia. cbn [andb].
      rewrite (proj2 (Z.leb_gt 97 _)) by lia. cbn [andb].
      rewrite (proj2 (Z.leb_le 65 _)), (proj2 (Z.leb_le _ 70)) by lia. cbn. f_equal. lia.
    + rewrite (proj2 (Z.leb_le 48 _)), (proj2 (Z.leb_gt _ 57)) by lia. cbn [andb].
      rewrite (proj2 (Z.leb_le 97 _)), (proj2 (Z.leb_le _ 102)) by lia. cbn. f_equal. lia.
Qed.

Lemma hexDigit_char c d :
  hexDigit c = Some d →
  c ∈ [48; 49; 50; 51; 52; 53; 54; 55; 56; 57; 97; 98; 99; 100; 101; 102;
       65; 66; 67; 68; 69; 70].
Proof.
  unfold hexDigit. intros H.
  assert (Hr : 48 <= c <= 57 ∨ 97 <= c <= 102 ∨ 65 <= c <= 70).
  { destruct ((48 <=? c) && (c <=? 57)) eqn:H1.
    { apply andb_true_iff in H1 as [?%Z.leb_le ?%Z.leb_le]. lia. }
    destruct ((97 <=? c) && (c <=? 102)) eqn:H2.
    { apply andb_true_iff in H2 as [?%Z.leb_le ?%Z.leb_le]. lia. }
    destruct ((65 <=? c) && (c <=? 70)) eqn:H3; [|done].
    apply andb_true_iff in H3 as [?%Z.leb_le ?%Z.leb_le]. lia. }
  clear H.
  assert (Hc : c = 48 ∨ c = 49 ∨ c = 50 ∨ c = 51 ∨ c = 52 ∨ c = 53 ∨ c = 54 ∨ c = 55
               ∨ c = 56 ∨ c = 57 ∨ c = 97 ∨ c = 98 ∨ c = 99 ∨ c = 100 ∨ c = 101
               ∨ c = 102 ∨ c = 65 ∨ c = 66 ∨ c = 67 ∨ c = 68 ∨ c = 69 ∨ c = 70) by lia.
  repeat (destruct Hc as [->|Hc];
          [repeat first [apply list_elem_of_here | apply list_elem_of_further]|]).
  subst. repeat first [apply list_elem_of_here | apply list_elem_of_further].
Qed.

(** [parseInt] of a string that starts with a hexadecimal digit and has no
    [0x] prefix: the value of its longest prefix of digits. *)
Lemma parseInt16_digits c r d :
  hexDigit c = Some d →
  (∀ x r', r = x :: r' → x ≠ 120 ∧ x ≠ 88) →
  parseInt16 (c :: r) = Some (hexValue (hexPrefix (c :: r))).
Proof.
  intros Hd Hx. pose proof (hexDigit_char c d Hd) as Hc.
  assert (Hp : hexPrefix (c :: r) = d :: hexPrefix r) by (cbn; by rewrite Hd).
  rewrite Hp. clear Hp.
  assert (Hrest : (match r with
                   | x :: r' => if bool_decide (x = 120 ∨ x = 88) then r' else 48 :: r
                   | [] => 48 :: r
                   end) = 48 :: r).
  { destruct r as [|x r']; [done|]. destruct (Hx x r' eq_refl).
    rewrite bool_decide_eq_false_2; [done|]. intros [?|?]; done. }
  repeat (apply elem_of_cons in Hc as [->|Hc]);
    try (by apply elem_of_nil in Hc);
    unfold parseInt16; cbn [trimStart];
    match goal with
    | |- context [isWhiteSpace ?c] =>
        let b := eval vm_compute in (isWhiteSpace c) in
        change (isWhiteSpace c) with b
    end; cbv iota; try rewrite Hrest;
    cbn [hexPrefix]; rewrite Hd;
    (rewrite Z.mul_1_l; reflexivity).
Qed.

Lemma hex_digits_value w :
  is_word w →
  hexValue ((fun i : nat => (w / 16 ^ Z.of_nat (7 - i)) `mod` 16) <$> seq 0 8) = w.
Proof.
  intros [H0 H1].
  set (q1 := w / 16). set (q2 := q1 / 16). set (q3 := q2 / 16). set (q4 := q3 / 16).
  set (q5 := q4 / 16). set (q6 := q5 / 16). set (q7 := q6 / 16).
  assert (E7 : w / 16 ^ 7 = q7)
    by (unfold q7, q6, q5, q4, q3, q2, q1; by rewrite !Z.div_div by lia).
  assert (E6 : w / 16 ^ 6 = q6)
    by (unfold q6, q5, q4, q3, q2, q1; by rewrite !Z.div_div by lia).
  assert (E5 : w / 16 ^ 5 = q5)
    by (unfold q5, q4, q3, q2, q1; by rewrite !Z.div_div by lia).
  assert (E4 : w / 16 ^ 4 = q4)
    by (unfold q4, q3, q2, q1; by rewrite !Z.div_div by lia).
  assert (E3 : w / 16 ^ 3 = q3) by (unfold q3, q2, q1; by rewrite !Z.div_div by lia).
  assert (E2 : w / 16 ^ 2 = q2) by (unfold q2, q1; by rewrite !Z.div_div by lia).
  assert (E1 : w / 16 ^ 1 = q1) by done.
  assert (E0 : w / 16 ^ 0 = w) by apply Z.div_1_r.
  cbn [fmap list_fmap seq Nat.sub].
  change (Z.of_nat 7) with 7. change (Z.of_nat 6) with 6. change (Z.of_nat 5) with 5.
  change (Z.of_nat 4) with 4. change (Z.of_nat 3) with 3. change (Z.of_nat 2) with 2.
  change (Z.of_nat 1) with 1. change (Z.of_nat 0) with 0.
  rewrite E7, E6, E5, E4, E3, E2, E1, E0.
  assert (P0 : w = 16 * q1 + w `mod` 16) by (apply Z.div_mod; lia).
  assert (P1 : q1 = 16 * q2 + q1 `mod` 16) by (apply Z.div_mod; lia).
  assert (P2 : q2 = 16 * q3 + q2 `mod` 16) by (apply Z.div_mod; lia).
  assert (P3 : q3 = 16 * q4 + q3 `mod` 16) by (apply Z.div_mod; lia).
  assert (P4 : q4 = 16 * q5 + q4 `mod` 16) by (apply Z.div_mod; lia).
  assert (P5 : q5 = 16 * q6 + q5 `mod` 16) by (apply Z.div_mod; lia).
  assert (P6 : q6 = 16 * q7 + q6 `mod` 16) by (apply Z.div_mod; lia).
  assert (q7 `mod` 16 = q7).
  { apply Z.mod_small. rewrite <- E7. split; [apply Z.div_pos; lia|].
    apply Z.div_lt_upper_bound; lia. }
  unfold hexValue. cbn [foldl]. lia.
Qed.

Lemma hexPrefix_hex_chars up ds :
  Forall (fun d => 0 <= d < 16) ds → hexPrefix (hex_char up <$> ds) = ds.
Proof.
  induction 1 as [|d ds Hd _ IH]; [done|].
  cbn [fmap list_fmap hexPrefix]. by rewrite hexDigit_hex_char, IH.
Qed.

Lemma parseInt16_hex8 up w : is_word w → parseInt16 (hex8 up w) = Some w.
Proof.
  intros Hw.
  set (ds := (fun i : nat => (w / 16 ^ Z.of_nat (7 - i)) `mod` 16) <$> seq 0 8).
  assert (Hds : Forall (fun d => 0 <= d < 16) ds).
  { apply Forall_fmap, Forall_forall. intros i _. apply Z.mod_pos_bound. lia. }
  assert (Hh : hex8 up w = hex_char up <$> ds).
  { unfold hex8, ds. by rewrite <- list_fmap_compose. }
  rewrite Hh. rewrite <- (hex_digits_value w Hw). fold ds.
  rewrite <- (hexPrefix_hex_chars up ds Hds) at 2.
  destruct ds as [|d7 [|d6 ds']] eqn:E; [done|done|].
  apply Forall_cons in Hds as [H7 Hds]. apply Forall_cons in Hds as [H6 _].
  cbn [fmap list_fmap].
  apply (parseInt16_digits _ _ d7); [by apply hexDigit_hex_char|].
  intros x r' [= <- _].
  pose proof (hexDigit_char _ _ (hexDigit_hex_char up d6 H6)) as Hc.
  split; intros Hx; rewrite Hx in Hc;
    repeat (apply elem_of_cons in Hc as [Hc|Hc]; [discriminate Hc|]);
    by apply elem_of_nil in Hc.
Qed.

Lemma hex8_length up w : length (hex8 up w) = 8%nat.
Proof. done. Qed.

Lemma slice_blocks (bs : list (list Z)) t : ∀ i b,
  Forall (fun b => length b = 8%nat) bs → bs !! i = Some b →
  slice (concat bs ++ t) (8 * i) (8 * (i + 1)) = b.
Proof.
  unfold slice. induction bs as [|b0 bs IH]; intros i b Hl Hi; [done|].
  apply Forall_cons in Hl as [Hb0 Hl].
  replace (8 * (i + 1) - 8 * i)%nat with 8%nat in * by lia.
  cbn [concat]. rewrite <- app_assoc. destruct i as [|i].
  - injection Hi as ->. cbn [Nat.mul drop]. by apply take_app_length'.
  - replace (8 * S i)%nat with (8 + 8 * i)%nat by lia.
    rewrite drop_app_add' by done.
    specialize (IH i b Hl Hi).
    by replace (8 * (i + 1) - 8 * i)%nat with 8%nat in IH by lia.
Qed.

Lemma shl_3 x : 0 <= x < 2 ^ 28 → shl x 3 = 8 * x.
Proof.
  intros Hx. unfold shl. rewrite (ToInt32_small x) by lia.
  rewrite Z.shiftl_mul_pow2 by lia. rewrite ToInt32_small; lia.
Qed.

(** X7.  [hexStringToUint32Array] reads back the words of a key written
    with eight hexadecimal digits per word, most significant digit first,
    in upper or in lower case; up to seven code units after the last full
    group of eight are ignored. *)
Theorem hexStringToUint32Array_hex8 up ws t :
  Forall is_word ws → (length t < 8)%nat → Z.of_nat (length ws) < 2 ^ 27 →
  hexStringToUint32Array (concat (hex8 up <$> ws) ++ t) = ws.
Proof.
  intros Hws Ht Hn.
  set (K := concat (hex8 up <$> ws) ++ t).
  assert (Hc : length (concat (hex8 up <$> ws)) = (8 * length ws)%nat).
  { clear. induction ws as [|w ws IH]; [done|].
    cbn [fmap list_fmap concat]. rewrite length_app, IH, hex8_length. cbn [length]. lia. }
  assert (HK : length K = (8 * length ws + length t)%nat)
    by (unfold K; by rewrite length_app, Hc).
  assert (Hlen : length (hexStringToUint32Array K) = length ws).
  { rewrite hexStringToUint32Array_length by (rewrite HK; lia). rewrite HK.
    replace (8 * length ws + length t)%nat with (length t + length ws * 8)%nat by lia.
    rewrite Nat.div_add by lia. rewrite Nat.div_small by lia. done. }
  apply (list_eq_same_length _ _ (length ws)); [done|done|].
  intros i x y Hi Hx Hy.
  unfold hexStringToUint32Array in Hx.
  apply list_lookup_fmap_Some in Hx as (j & -> & Hj).
  apply lookup_seq in Hj as [-> _]. cbn [Nat.add].
  rewrite !shl_3 by lia.
  replace (Z.to_nat (8 * Z.of_nat i)) with (8 * i)%nat by lia.
  replace (Z.to_nat (8 * (Z.of_nat i + 1))) with (8 * (i + 1))%nat by lia.
  unfold K. rewrite (slice_blocks _ t i (hex8 up y)).
  - rewrite parseInt16_hex8 by (eapply Forall_lookup_1; eauto).
    cbn [num default]. apply ToUint32_small. eapply Forall_lookup_1; eauto.
  - apply Forall_fmap, Forall_forall. intros; apply hex8_length.
  - by rewrite list_lookup_fmap, Hy.
Qed.

(** ** The synchronisation classes *)

Section SyncFacts.

Context {Json : Type} `{!Env Json}.

Abbreviation World := (World Json).

(** ** The foreign segment provider *)

Lemma readSegment_retarget p id raw (w : World) :
  requested w ≠ (p, val id) →
  readSegment p id raw w
  = (retargeted p id w,
     Returns (if raw return ReadResult raw then NEXT_TICK else NEXT_TICK)).
Proof.
  intros Hne. unfold readSegment, requestSegment, bind, get, modify, ret.
  destruct (bool_decide (requestedPlayerName (provider w) ≠ p)
            || bool_decide (requestedSegmentId (provider w) ≠ val id)) eqn:Hb; [done|].
  exfalso. apply orb_false_elim in Hb as [H1 H2].
  apply bool_decide_eq_false in H1, H2. apply Hne. unfold requested.
  destruct (decide (requestedPlayerName (provider w) = p)); [|by exfalso; apply H1].
  destruct (decide (requestedSegmentId (provider w) = val id)); [|by exfalso; apply H2].
  congruence.
Qed.

Lemma readSegment_same p id raw (w : World) :
  requested w = (p, val id) → readSegment p id raw w = read raw w.
Proof.
  intros Heq. injection Heq as H1 H2.
  unfold readSegment, bind, get.
  rewrite (bool_decide_eq_false_2 (requestedPlayerName (provider w) ≠ p))
    by (intros Hx; by apply Hx).
  rewrite (bool_decide_eq_false_2 (requestedSegmentId (provider w) ≠ val id))
    by (intros Hx; by apply Hx).
  done.
Qed.

Lemma settled_Some (w : World) d :
  settled w = Some d →
  ∃ fs, foreignSegment (host w) = Some fs
        ∧ requested w = (val (fs_username fs), val (fs_id fs))
        ∧ fs_data fs = d ∧ d ≠ [].
Proof.
  unfold settled, requested. destruct (foreignSegment (host w)) as [fs|].
  - destruct (bool_decide (val (fs_username fs) ≠ requestedPlayerName (provider w))) eqn:H1;
      [done|].
    destruct (bool_decide (val (fs_id fs) ≠ requestedSegmentId (provider w))) eqn:H2;
      [done|].
    apply bool_decide_eq_false in H1, H2.
    destruct (fs_data fs) as [|c d'] eqn:Hd; [done|]. cbn. intros [= <-].
    exists fs. repeat split; try done.
    destruct (decide (val (fs_username fs) = requestedPlayerName (provider w)));
      [|by exfalso; apply H1].
    destruct (decide (val (fs_id fs) = requestedSegmentId (provider w)));
      [|by exfalso; apply H2].
    congruence.
  - cbn. destruct (bool_decide (undefined ≠ requestedPlayerName (provider w)));
      destruct (bool_decide (undefined ≠ requestedSegmentId (provider w))); done.
Qed.

Lemma read_requested raw (w : World) : requested (read raw w).1 = requested w.
Proof.
  unfold read, bind, get, modify, ret. destruct (settled w) as [d|]; [|by destruct raw].
  destruct raw; [done|]. by destruct (JSON_parse d).
Qed.

Lemma read_delivered raw (w : World) :
  delivered (read raw w).2 = true →
  ∃ fs, foreignSegment (host w) = Some fs
        ∧ requested w = (val (fs_username fs), val (fs_id fs)).
Proof.
  unfold read, bind, get, modify, ret.
  destruct (settled w) as [d|] eqn:Hs; [|by destruct raw].
  intros _. destruct (settled_Some w d Hs) as (fs & ? & ? & _). eauto.
Qed.

Lemma readSegment_requested p id raw (w : World) :
  requested (readSegment p id raw w).1 = (p, val id).
Proof.
  destruct (decide (requested w = (p, val id))) as [Heq|Hne].
  - rewrite readSegment_same, read_requested; done.
  - by rewrite readSegment_retarget.
Qed.

Lemma deliveries_requested steps : ∀ w : World,
  Forall (fun '(fs, t) =>
            ∃ f, fs = Some f ∧ t = (val (fs_username f), val (fs_id f)))
         (deliveries steps (requested w) w).
Proof.
  induction steps as [|[h|raw|p id raw] rest IH]; intros w; cbn [deliveries].
  - constructor.
  - apply (IH (set_host (fun _ => h) w)).
  - apply Forall_app. split.
    + destruct (delivered (read raw w).2) eqn:Hd; [|constructor].
      apply Forall_singleton. destruct (read_delivered raw w Hd) as (f & ? & ?). eauto.
    + rewrite <- (read_requested raw w). apply IH.
  - apply Forall_app. split.
    + destruct (delivered (readSegment p id raw w).2) eqn:Hd; [|constructor].
      apply Forall_singleton.
      destruct (decide (requested w = (p, val id))) as [Heq|Hne].
      * rewrite readSegment_same in Hd by done.
        destruct (read_delivered raw w Hd) as (f & ? & ?). exists f. split; congruence.
      * rewrite readSegment_retarget in Hd by done. by destruct raw.
    + rewrite <- (readSegment_requested p id raw w). apply IH.
Qed.

Lemma deliveries_targets steps : ∀ t0 (w : World),
  Forall (fun '(_, t) =>
            t = t0 ∨ ∃ p id raw, CallReadSegment p id raw ∈ steps ∧ t = (p, val id))
         (deliveries steps t0 w).
Proof.
  induction steps as [|st rest IH]; intros t0 w; [constructor|].
  assert (Hweak : ∀ t1 w1,
    Forall (fun '(_, t) =>
              t = t1 ∨ ∃ p id raw, CallReadSegment p id raw ∈ st :: rest ∧ t = (p, val id))
           (deliveries rest t1 w1)).
  { intros t1 w1. eapply Forall_impl; [apply (IH t1 w1)|].
    intros [fs t] [Ht|(p & id & raw & Hin & Ht)]; [by left|].
    right. exists p, id, raw. split; [by right|done]. }
  destruct st as [h|raw|p id raw]; cbn [deliveries].
  - apply Hweak.
  - apply Forall_app. split; [|apply Hweak].
    destruct (delivered (read raw w).2); constructor; [by left|constructor].
  - apply Forall_app. split.
    + destruct (delivered (readSegment p id raw w).2); constructor; [|constructor].
      right. exists p, id, raw. split; [by left|done].
    + eapply Forall_impl; [apply (Hweak (p, val id))|].
      intros [fs t] [Ht|H]; [|by right].
      right. exists p, id, raw. split; [by left|done].
Qed.

(** C7.  A call of [readSegment] whose player or segment id differs from the
    active subscription only retargets: it returns [NEXT_TICK], delivers no
    data, and leaves the provider subscribed to the new target with its
    cached data cleared.  From then on, whatever the host does and whichever
    reads follow, every value handed out was read from a foreign segment
    owned by the target of the most recent [readSegment] and carrying its
    id; so after retargeting away from (p1, id1), and as long as no call
    asks for (p1, id1) again, no read delivers data of (p1, id1). *)
Theorem readSegment_single_slot p id raw (w : World) :
  requested w ≠ (p, val id) →
  readSegment p id raw w
  = (retargeted p id w,
     Returns (if raw return ReadResult raw then NEXT_TICK else NEXT_TICK))
  ∧ delivered (readSegment p id raw w).2 = false
  ∧ (∀ steps,
       Forall (fun '(fs, t) =>
                 ∃ f, fs = Some f ∧ t = (val (fs_username f), val (fs_id f)))
              (deliveries steps (p, val id) (retargeted p id w)))
  ∧ (∀ steps p1 id1,
       (p1, val id1) ≠ (p, val id) →
       (∀ raw', CallReadSegment p1 id1 raw' ∉ steps) →
       Forall (fun '(fs, _) =>
                 ∀ f, fs = Some f → (val (fs_username f), val (fs_id f)) ≠ (p1, val id1))
              (deliveries steps (p, val id) (retargeted p id w))).
Proof.
  intros Hne. pose proof (readSegment_retarget p id raw w Hne) as Hr.
  assert (Hd : ∀ steps,
    Forall (fun '(fs, t) =>
              ∃ f, fs = Some f ∧ t = (val (fs_username f), val (fs_id f)))
           (deliveries steps (p, val id) (retargeted p id w))).
  { intros steps. apply (deliveries_requested steps (retargeted p id w)). }
  split; [done|]. split; [rewrite Hr; by destruct raw|]. split; [done|].
  intros steps p1 id1 Hp1 Hnot.
  pose proof (conj (Hd steps) (deliveries_targets steps (p, val id) (retargeted p id w))) as H.
  apply Forall_and in H. eapply Forall_impl; [exact H|].
  intros [fs t] [(f & -> & Ht) Hor] f' [= <-] Heq.
  rewrite Heq in Ht. subst t.
  destruct Hor as [Ht'|(p' & id' & raw' & Hin & Ht')]; [congruence|].
  injection Ht' as -> ->. by apply (Hnot raw').
Qed.

(** ** Reading an encrypted segment *)

Lemma readEncryptedSegment_settled p id k d (w : World) :
  settled w = Some d → requested w = (p, val id) →
  readEncryptedSegment p id k w
  = if not_brace (decrypt d k)
    then (stored_raw d w, Returns (Failed ERR_DECRYPTION_FAILED))
    else match JSON_parse (decrypt d k) with
         | Some j => (stored_raw d w, Returns (Value j))
         | None => (set_host (console_log (LogParseFailed p id)) (stored_raw d w),
                    Returns (Failed ERR_JSON_PARSE_FAILED))
         end.
Proof.
  intros Hs Hreq. destruct (settled_Some w d Hs) as (fs & _ & _ & _ & Hne).
  unfold readEncryptedSegment, bind at 1.
  rewrite (readSegment_same p id true w Hreq).
  unfold read, bind at 1, get. rewrite Hs. unfold bind, modify, ret.
  destruct d as [|c d]; [done|].
  destruct (not_brace (decrypt (c :: d) k)); [done|].
  by destruct (JSON_parse (decrypt (c :: d) k)).
Qed.

Lemma readEncryptedSegment_returns p id k (w : World) :
  ∃ w' r, readEncryptedSegment p id k w = (w', Returns r).
Proof.
  destruct (decide (requested w = (p, val id))) as [Heq|Hne].
  - destruct (settled w) as [d|] eqn:Hs.
    + rewrite (readEncryptedSegment_settled p id k d w Hs Heq).
      destruct (not_brace (decrypt d k)); [eauto|].
      destruct (JSON_parse (decrypt d k)); eauto.
    + unfold readEncryptedSegment, bind at 1. rewrite (readSegment_same p id true w Heq).
      unfold read, bind, get, ret. rewrite Hs. eauto.
  - unfold readEncryptedSegment, bind at 1.
    rewrite (readSegment_retarget p id true w Hne). unfold ret. eauto.
Qed.

(** C5.  When the data of the subscribed segment has settled and, after
    decryption, some word of the signing tag (the words of the key from
    index 4 on) differs from the word at the same place of the message,
    [readEncryptedSegment] returns [ERR_DECRYPTION_FAILED], a number other
    than [ERR_JSON_PARSE_FAILED], and hands out no data: the provider keeps
    only the raw text it read.  No call of [readEncryptedSegment] throws. *)
Theorem readEncryptedSegment_tag_mismatch p id k d (w : World) :
  settled w = Some d → requested w = (p, val id) →
  (∃ i x, drop 4 (hexStringToUint32Array k) !! i = Some x
          ∧ decryptUint32Array (safeStringToUint32Array d) (hexStringToUint32Array k) !! i
            ≠ Some x) →
  readEncryptedSegment p id k w
  = (stored_raw d w, Returns (Failed ERR_DECRYPTION_FAILED))
  ∧ ERR_DECRYPTION_FAILED ≠ ERR_JSON_PARSE_FAILED
  ∧ ∀ p' id' k' (w' : World), ∃ w'' r, readEncryptedSegment p' id' k' w' = (w'', Returns r).
Proof.
  intros Hs Hreq Htag. split; [|split; [done|]].
  - rewrite (readEncryptedSegment_settled p id k d w Hs Hreq).
    assert (Hdec : decrypt d k = []).
    { unfold decrypt, checkSign. apply tag_differs_true in Htag. by rewrite Htag. }
    by rewrite Hdec.
  - intros. apply readEncryptedSegment_returns.
Qed.

Lemma not_brace_stripped s : not_brace (stripped s) = not_brace s.
Proof.
  unfold stripped. case_decide as H; [|done]. destruct H as [Hev Hlast].
  unfold not_brace. f_equal.
  destruct s as [|a [|b s]]; [done| |done].
  cbn in Hev. done.
Qed.

(** C10.  For settled data of the subscribed segment,
    [readEncryptedSegment] returns [ERR_DECRYPTION_FAILED] exactly when the
    decrypted text does not start with ['{'].  In particular a text that is
    not the serialization of an object (it starts with another character),
    encrypted under the very key it is read with, is reported as
    [ERR_DECRYPTION_FAILED]. *)
Theorem readEncryptedSegment_first_character p id k d (w : World) :
  settled w = Some d → requested w = (p, val id) →
  ((readEncryptedSegment p id k w).2 = Returns (Failed ERR_DECRYPTION_FAILED)
   ↔ not_brace (decrypt d k) = true)
  ∧ ∀ s, representable s → (length k < 72)%nat → not_brace s = true →
         encrypt s k = Some d →
         readEncryptedSegment p id k w
         = (stored_raw d w, Returns (Failed ERR_DECRYPTION_FAILED)).
Proof.
  intros Hs Hreq. rewrite (readEncryptedSegment_settled p id k d w Hs Hreq). split.
  - destruct (not_brace (decrypt d k)); [done|].
    destruct (JSON_parse (decrypt d k)); cbn; split; intros; discriminate.
  - intros s Hrep Hk Hnb Henc.
    destruct (decrypt_encrypt_stripped s k Hrep Hk) as (c & Hc & Hdec).
    rewrite Henc in Hc. injection Hc as <-.
    by rewrite Hdec, not_brace_stripped, Hnb.
Qed.

(** ** The key record *)

Lemma geb_false n m : n < m → (n >=? m) = false.
Proof. intros. rewrite Z.geb_leb. apply Z.leb_gt. lia. Qed.

Lemma geb_true n m : m <= n → (n >=? m) = true.
Proof. intros. rewrite Z.geb_leb. apply Z.leb_le. lia. Qed.

Lemma the_keyData_loaded (w : World) r :
  keyData w = Some r → the_keyData w = (w, Returns r).
Proof. intros H. unfold the_keyData, bind, get, ret. by rewrite H. Qed.

Lemma updateExpiredKey_fires (w : World) r :
  keyData w = Some r →
  truthy_str (key r) && truthy_num (expire r)
    && (Game_time (host w) >=? num_of (expire r)) = true →
  updateExpiredKey w
  = bind (if truthy_str (newKey r)
          then match onKeyChanged with Some notify => notify | None => ret tt end
          else ret tt)
         (fun _ => ret true)
         (persisted {| key := newKey r; newKey := undefined;
                       expire := null; leaderRoom := leaderRoom r |} w).
Proof.
  intros Hr Hc. unfold updateExpiredKey. unfold bind at 1.
  rewrite (the_keyData_loaded w r Hr). unfold bind at 1, get. rewrite Hc. done.
Qed.

Lemma updateExpiredKey_idle (w : World) r :
  keyData w = Some r →
  truthy_str (key r) && truthy_num (expire r)
    && (Game_time (host w) >=? num_of (expire r)) = false →
  updateExpiredKey w = (w, Returns false).
Proof.
  intros Hr Hc. unfold updateExpiredKey. unfold bind at 1.
  rewrite (the_keyData_loaded w r Hr). unfold bind at 1, get. rewrite Hc. done.
Qed.

(** C6 (as amended).  For a key record with an active key and [expire] set:
    once the current tick has reached [expire], [updateExpiredKey] replaces
    [key] by [newKey] (which may be absent), clears [newKey] and [expire],
    persists the record, runs the key-changed notification exactly when the
    new key is present, and answers [true]; on the record it leaves, the
    transition does not run again.  At a tick before [expire] nothing
    changes.  And a record without active key is left as it is, at every
    tick and whatever its [expire] and its [newKey]: [updateExpiredKey]
    changes nothing and answers [false]. *)
Theorem updateExpiredKey_boundary (w : World) r :
  keyData w = Some r →
  let r' := {| key := newKey r; newKey := undefined;
               expire := null; leaderRoom := leaderRoom r |} in
  (truthy_str (key r) = true → truthy_num (expire r) = true →
     (num_of (expire r) <= Game_time (host w) →
        updateExpiredKey w
        = (if truthy_str (newKey r)
           then match onKeyChanged with
                | Some notify => bind notify (fun _ => ret true) (persisted r' w)
                | None => (persisted r' w, Returns true)
                end
           else (persisted r' w, Returns true))
        ∧ updateExpiredKey (persisted r' w) = (persisted r' w, Returns false))
     ∧ (Game_time (host w) < num_of (expire r) →
          updateExpiredKey w = (w, Returns false)))
  ∧ (truthy_str (key r) = false → updateExpiredKey w = (w, Returns false)).
Proof.
  intros Hr r'. split.
  - intros Hk He. split.
    + intros Ht. split.
      * rewrite (updateExpiredKey_fires w r Hr)
          by (rewrite Hk, He; cbn; by apply geb_true).
        fold r'. destruct (truthy_str (newKey r)); [|done]. by destruct onKeyChanged.
      * apply (updateExpiredKey_idle _ r'); [done|]. cbn. by rewrite andb_false_r.
    + intros Ht. apply (updateExpiredKey_idle w r Hr).
      rewrite Hk, He. cbn. by apply geb_false.
  - intros Hk. apply (updateExpiredKey_idle w r Hr). by rewrite Hk.
Qed.

Lemma requestKey_newKey (w : World) r :
  keyData w = Some r → truthy_str (newKey r) = true →
  requestKey w = (w, Returns Undefined).
Proof.
  intros Hr Hn. unfold requestKey. unfold bind at 1.
  rewrite (the_keyData_loaded w r Hr). by rewrite Hn.
Qed.

Lemma syncMember_loaded (w : World) r :
  keyData w = Some r →
  truthy_str (key r) && truthy_num (expire r)
    && (Game_time (host w) >=? num_of (expire r)) = false →
  syncMember w
  = if negb (truthy_str (key r))
       || (truthy_num (expire r) && (Game_time (host w) >=? num_of (expire r) - 1000))
    then requestKey w
    else
      bind (readEncryptedSegment leaderPlayerName segmentId
              (str_of (if truthy_str (newKey r) && negb (truthy_num (expire r))
                       then newKey r else key r)))
        (fun d =>
           match d with
           | NEXT_TICK | Undefined => ret NEXT_TICK
           | Failed code =>
               if code =? ERR_JSON_PARSE_FAILED then ret Undefined
               else if code =? ERR_DECRYPTION_FAILED then
                 if truthy_str (newKey r) && negb (truthy_num (expire r))
                 then ret Undefined
                 else bind (modify (set_keyData (Some
                              {| key := undefined; newKey := undefined;
                                 expire := null; leaderRoom := leaderRoom r |})))
                        (fun _ => bind saveKeyData (fun _ => ret NEXT_TICK))
               else ret (Failed code)
           | Value j =>
               bind (if truthy_num (keyExpireTime j) || truthy_str (room j)
                     then setKeyData
                            (if truthy_num (keyExpireTime j)
                             then keyExpireTime j else null)
                            (room j)
                     else ret tt)
                    (fun _ => ret (Value j))
           end) w.
Proof.
  intros Hr Hc. unfold syncMember. unfold bind at 1, get. rewrite Hr.
  unfold bind at 1, ret at 1. cbn [negb].
  unfold bind at 1. rewrite (updateExpiredKey_idle w r Hr Hc).
  unfold bind at 1. rewrite (the_keyData_loaded w r Hr).
  unfold bind at 1. cbv beta iota.
  by destruct (negb (truthy_str (key r))
               || truthy_num (expire r)
                  && (Game_time (host w) >=? num_of (expire r) - 1000)).
Qed.

(** C9.  With no active key but a pending [newKey], [requestKey] returns at
    once with the state untouched (no transfer is scanned into the record,
    nothing is sent or logged), [updateExpiredKey] does not promote
    [newKey], and [syncMember] hands back the result of [requestKey]; tick
    after tick, whatever the host does, the record stays as it is and the
    result stays the same. *)
Theorem stuck_without_key (w : World) r :
  keyData w = Some r → truthy_str (key r) = false → truthy_str (newKey r) = true →
  requestKey w = (w, Returns Undefined)
  ∧ updateExpiredKey w = (w, Returns false)
  ∧ syncMember w = (w, Returns Undefined)
  ∧ ∀ hs, (sync_ticks hs w).1 = replicate (length hs) (Returns Undefined)
          ∧ keyData (sync_ticks hs w).2 = Some r
          ∧ provider (sync_ticks hs w).2 = provider w
          ∧ manager (sync_ticks hs w).2 = manager w
          ∧ host (sync_ticks hs w).2 = List.last hs (host w).
Proof.
  intros Hr Hk Hn.
  assert (Hsync : ∀ w', keyData w' = Some r → syncMember w' = (w', Returns Undefined)).
  { intros w' Hr'. rewrite (syncMember_loaded w' r Hr') by by rewrite Hk.
    rewrite Hk. cbn [negb orb]. by apply (requestKey_newKey w' r). }
  split; [by apply (requestKey_newKey w r)|].
  split; [apply (updateExpiredKey_idle w r Hr); by rewrite Hk|].
  split; [by apply Hsync|].
  intros hs. revert w Hr. induction hs as [|h hs IH]; intros w Hr; [done|].
  cbn [sync_ticks]. rewrite Hsync by done.
  specialize (IH (set_host (fun _ => h) w) Hr).
  destruct (sync_ticks hs (set_host (fun _ => h) w)) as [rs w''].
  cbn [fst snd] in *. destruct IH as (-> & ? & ? & ? & Hh).
  repeat split; try done.
  by rewrite last_cons_default.
Qed.

(** C3 (as amended).  When the poll of the leader's roster was made with
    the active key and comes back as a failed decryption, [syncMember]
    replaces the key record by one that keeps [leaderRoom] only: [key] is
    cleared, [newKey] is dropped, [expire] is reset to [null]; it persists
    that record and reports [NEXT_TICK]. *)
Theorem syncMember_decryption_failed (w : World) r (w1 : World) :
  keyData w = Some r → truthy_str (key r) = true →
  (truthy_num (expire r) = true → Game_time (host w) < num_of (expire r) - 1000) →
  truthy_str (newKey r) && negb (truthy_num (expire r)) = false →
  readEncryptedSegment leaderPlayerName segmentId (str_of (key r)) w
  = (w1, Returns (Failed ERR_DECRYPTION_FAILED)) →
  let r' := {| key := undefined; newKey := undefined;
               expire := null; leaderRoom := leaderRoom r |} in
  syncMember w = (persisted r' w1, Returns NEXT_TICK)
  ∧ keyData (persisted r' w1) = Some r'
  ∧ segments (host (persisted r' w1)) !! keySegmentId = Some (JSON_stringify_keyData r').
Proof.
  intros Hr Hk He Hu Hread r'.
  split; [|split; [done|apply lookup_insert_eq]].
  rewrite (syncMember_loaded w r Hr).
  - rewrite Hk, Hu. cbn [negb orb].
    destruct (truthy_num (expire r)) eqn:Hx.
    + rewrite geb_false by by apply He.
      cbn [andb]. unfold bind at 1. rewrite Hread. done.
    + cbn [andb]. unfold bind at 1. rewrite Hread. done.
  - rewrite Hk. destruct (truthy_num (expire r)) eqn:Hx; [|done].
    cbn. apply geb_false. specialize (He eq_refl). lia.
Qed.

(** ** Keys delivered by transfer *)

Lemma scan_transactions_true txs : ∀ i (w w' : World),
  scan_transactions txs i w = (w', Returns true) →
  ∃ r K, keyData w = Some r ∧ length K = 64%nat
         ∧ (w' = persisted {| key := val K; newKey := newKey r;
                              expire := expire r; leaderRoom := leaderRoom r |} w
            ∨ w' = persisted {| key := key r; newKey := val K;
                                expire := expire r; leaderRoom := leaderRoom r |} w).
Proof.
  induction txs as [|t rest IH]; intros i w w' H; [done|].
  cbn [scan_transactions] in H. unfold bind at 1, get at 1 in H.
  destruct (Game_time (host w) >? tx_time t + 1000); [done|].
  match goal with
  | |- ?G =>
      assert (Hnext :
        (if i + 1 >=? 30 then ret false else scan_transactions rest (i + 1)) w
        = (w', Returns true) → G)
  end.
  { intros Hn. destruct (i + 1 >=? 30); [done|]. exact (IH _ _ _ Hn). }
  destruct (bool_decide (val <$> tx_sender t = Some leaderPlayerName)
            && bool_decide (tx_resourceType t = RESOURCE_ENERGY)
            && (tx_amount t =? 3)); [|by apply Hnext].
  destruct (tx_description t) as [| |description]; [done|done|].
  destruct (bool_decide (length description = 66%nat)) eqn:H66.
  - apply bool_decide_eq_true in H66. unfold bind at 1, the_keyData in H.
    unfold bind at 1, get at 1 in H.
    destruct (keyData w) as [r|] eqn:Hr; [|done].
    injection H as <-. exists r, (drop 2 description).
    split; [done|]. split; [rewrite length_drop; lia|]. by right.
  - destruct (bool_decide (length description = 64%nat)) eqn:H64; [|by apply Hnext].
    apply bool_decide_eq_true in H64. unfold bind at 1, the_keyData in H.
    unfold bind at 1, get at 1 in H.
    destruct (keyData w) as [r|] eqn:Hr; [|done].
    injection H as <-. exists r, description. split; [done|]. split; [done|]. by left.
Qed.

(** C2 (as amended).  A key accepted from the key-delivery transfers is a
    string of 64 code units (the code checks the length of the description,
    nothing else), stored as [key] or as [newKey] and persisted.  Such a
    string parses to exactly eight unsigned 32-bit words, and the tag that
    [encrypt] prepends before encryption consists of the words 4 to 7 of
    that key. *)
Theorem delivered_key_is_eight_words (w w' : World) :
  readKeyFromTransactions w = (w', Returns true) →
  ∃ r K, keyData w = Some r ∧ length K = 64%nat
         ∧ (w' = persisted {| key := val K; newKey := newKey r;
                              expire := expire r; leaderRoom := leaderRoom r |} w
            ∨ w' = persisted {| key := key r; newKey := val K;
                                expire := expire r; leaderRoom := leaderRoom r |} w)
         ∧ length (hexStringToUint32Array K) = 8%nat
         ∧ Forall is_word (hexStringToUint32Array K)
         ∧ ∀ s, ∃ v,
             sign (stringToUint32Array s) (drop 4 (hexStringToUint32Array K)) = Some v
             ∧ take 4 v = drop 4 (hexStringToUint32Array K)
             ∧ drop 4 v = stringToUint32Array s
             ∧ encrypt s K
               = Some (uint32ArrayToSafeString
                         (encryptUint32Array v (hexStringToUint32Array K))).
Proof.
  intros H. unfold readKeyFromTransactions, bind, get in H.
  destruct (scan_transactions_true _ _ _ _ H) as (r & K & Hr & HK & Hw).
  exists r, K. split; [done|]. split; [done|]. split; [done|].
  assert (HL : length (hexStringToUint32Array K) = 8%nat).
  { rewrite hexStringToUint32Array_length by lia. by rewrite HK. }
  split; [done|]. split; [apply hexStringToUint32Array_words|].
  intros s.
  assert (Htag : length (drop 4 (hexStringToUint32Array K)) = 4%nat)
    by (rewrite length_drop; lia).
  assert (Hsw : Forall is_word (stringToUint32Array s)).
  { unfold stringToUint32Array. apply Forall_fmap, Forall_forall.
    intros i _. apply ToUint32_range. }
  eexists. split.
  { apply sign_fits; [lia| |done]. apply Forall_drop, hexStringToUint32Array_words. }
  rewrite Htag. cbn [Nat.sub replicate app].
  split; [by apply take_app_length'|]. split; [by apply drop_app_length'|].
  unfold encrypt. rewrite sign_fits;
    [|lia|apply Forall_drop, hexStringToUint32Array_words|done].
  by rewrite Htag.
Qed.

(** ** The peer-data round robin *)

Lemma readEncryptedSegment_manager p id k (w : World) :
  manager (readEncryptedSegment p id k w).1 = manager w.
Proof.
  destruct (decide (requested w = (p, val id))) as [Heq|Hne].
  - destruct (settled w) as [d|] eqn:Hs.
    + rewrite (readEncryptedSegment_settled p id k d w Hs Heq).
      destruct (not_brace (decrypt d k)); [done|].
      by destruct (JSON_parse (decrypt d k)).
    + unfold readEncryptedSegment, bind at 1. rewrite (readSegment_same p id true w Heq).
      unfold read, bind, get, ret. by rewrite Hs.
  - unfold readEncryptedSegment, bind at 1.
    by rewrite (readSegment_retarget p id true w Hne).
Qed.

Lemma readAllyData_manager p (w : World) :
  manager (readAllyData p w).1 = manager w.
Proof.
  unfold readAllyData. unfold bind at 1, the_keyData, bind at 1, get at 1.
  destruct (keyData w) as [r|]; [|done]. unfold ret at 1.
  destruct (truthy_str (key r)); [|done]. cbn [negb].
  unfold bind at 1.
  pose proof (readEncryptedSegment_manager p dataSegmentId (str_of (key r)) w) as Hm.
  destruct (readEncryptedSegment p dataSegmentId (str_of (key r)) w) as [w1 [d|e]];
    [|done].
  destruct d as [| |c|j]; try done.
  by destruct (bool_decide (length (Object_keys j) = 0%nat)).
Qed.

(** The state a cycle of [syncAlliesData] leaves. *)
Lemma syncAlliesData_polled (w w1 : World) d :
  lt_maybe (Game_time (host w)) (nextDataSync (manager w)) = false →
  readAllyData (polled_peer (manager w)) w = (w1, Returns d) → d ≠ NEXT_TICK →
  let m := manager w in
  let index := next_index (length (syncDataAllies m)) (syncDataIndex m) in
  syncAlliesData w
  = (set_manager
       {| allies := allies m;
          alliesData :=
            <[prop_key (polled_peer m) :=
                applyPermissions (match d with Value j => val j | _ => undefined end)
                  (getAllyStatus m (prop_key (polled_peer m)))]> (alliesData m);
          Memory_alliesData_bound := true;
          myUserName := myUserName m;
          syncDataAllies := syncDataAllies m;
          syncDataIndex := index;
          nextDataSync :=
            (if (match d with Value _ => true | _ => false end)
                || bool_decide (index = 0%nat)
             then val (Game_time (host w1) + interval)
             else nextDataSync m) |} w1,
     Returns tt).
Proof.
  intros Hgate Hread Hd m index.
  pose proof (readAllyData_manager (polled_peer (manager w)) w) as Hm.
  rewrite Hread in Hm. cbn [fst] in Hm.
  assert (Hidx : (if bool_decide (length (syncDataAllies m) ≤ syncDataIndex m + 1)%nat
                  then 0%nat else (syncDataIndex m + 1)%nat) = index).
  { unfold index, next_index. by case_bool_decide; case_decide. }
  unfold syncAlliesData. unfold bind at 1, get at 1. rewrite Hgate.
  unfold bind at 1. rewrite Hread.
  destruct d as [| |e|j]; [done| |destruct e|];
    unfold bind at 1, get at 1, modify; rewrite Hm; fold m; by rewrite Hidx.
Qed.

Lemma readAllyData_keyed p (w : World) r :
  keyData w = Some r → truthy_str (key r) = true →
  readAllyData p w
  = bind (readEncryptedSegment p dataSegmentId (str_of (key r)))
      (fun data =>
         match data with
         | NEXT_TICK => ret NEXT_TICK
         | Undefined => ret Undefined
         | Failed _ => ret Undefined
         | Value j =>
             if bool_decide (length (Object_keys j) = 0%nat) then ret Undefined
             else ret (Value j)
         end) w.
Proof.
  intros Hr Hk. unfold readAllyData. unfold bind at 1.
  rewrite (the_keyData_loaded w r Hr). by rewrite Hk.
Qed.

Lemma syncAlliesData_cycle (w : World) :
  is_cycle w →
  syncDataAllies (manager (syncAlliesData w).1) = syncDataAllies (manager w)
  ∧ syncDataIndex (manager (syncAlliesData w).1)
    = next_index (length (syncDataAllies (manager w))) (syncDataIndex (manager w)).
Proof.
  intros (Hgate & _ & w1 & d & Hread & Hd).
  by rewrite (syncAlliesData_polled w w1 d Hgate Hread Hd).
Qed.

(** A poll that is answered is a poll of the segment the provider is
    subscribed to: any other target is requested first, and the answer is
    [NEXT_TICK]. *)
Lemma is_cycle_requested (w : World) :
  is_cycle w → requested w = (polled_peer (manager w), val dataSegmentId).
Proof.
  intros (_ & (r & Hr & Hk) & w1 & d & Hread & Hd).
  destruct (decide (requested w = (polled_peer (manager w), val dataSegmentId)))
    as [Heq|Hne]; [done|].
  exfalso. apply Hd.
  rewrite (readAllyData_keyed _ w r Hr Hk) in Hread. unfold bind at 1 in Hread.
  unfold readEncryptedSegment, bind at 1 in Hread.
  rewrite (readSegment_retarget _ _ true w Hne) in Hread.
  by injection Hread as _ <-.
Qed.

(** Data that [readAllyData] hands out is the text of the foreign segment
    the host shows, that of the player asked for, decrypted under the
    active key and parsed. *)
Lemma readAllyData_value p (w w1 : World) r j :
  keyData w = Some r → truthy_str (key r) = true →
  readAllyData p w = (w1, Returns (Value j)) →
  ∃ fs, foreignSegment (host w) = Some fs
        ∧ (val (fs_username fs), val (fs_id fs)) = (p, val dataSegmentId)
        ∧ not_brace (decrypt (fs_data fs) (str_of (key r))) = false
        ∧ JSON_parse (decrypt (fs_data fs) (str_of (key r))) = Some j.
Proof.
  intros Hr Hk Hread. rewrite (readAllyData_keyed _ w r Hr Hk) in Hread.
  unfold bind at 1 in Hread.
  destruct (decide (requested w = (p, val dataSegmentId))) as [Heq|Hne].
  - destruct (settled w) as [d|] eqn:Hs.
    + destruct (settled_Some w d Hs) as (fs & Hfs & Hreq & Hd & _).
      exists fs. split; [done|]. split; [by rewrite <- Hreq|]. rewrite Hd.
      rewrite (readEncryptedSegment_settled p dataSegmentId _ d w Hs Heq) in Hread.
      destruct (not_brace (decrypt d (str_of (key r)))); [done|].
      destruct (JSON_parse (decrypt d (str_of (key r)))) as [j'|]; [|done].
      split; [done|]. f_equal.
      destruct (bool_decide (length (Object_keys j') = 0%nat)); [done|].
      by injection Hread as _ ->.
    + unfold readEncryptedSegment, bind at 1 in Hread.
      rewrite (readSegment_same p dataSegmentId true w Heq) in Hread.
      unfold read, bind, get, ret in Hread. by rewrite Hs in Hread.
  - unfold readEncryptedSegment, bind at 1 in Hread.
    by rewrite (readSegment_retarget p dataSegmentId true w Hne) in Hread.
Qed.

Lemma next_index_lt k i : (0 < k)%nat → (next_index k i < k)%nat.
Proof. unfold next_index. case_decide; lia. Qed.

Lemma round_robin_straight l n : ∀ i,
  (i + n ≤ length l)%nat →
  round_robin l i n = take n (drop i l)
  ∧ cursor_after (length l) i n = (if decide (i + n = length l ∧ 0 < n)%nat
                                   then 0%nat else (i + n)%nat).
Proof.
  induction n as [|n IH]; intros i Hi.
  - cbn. rewrite decide_False by lia. split; [done|lia].
  - cbn [round_robin cursor_after].
    destruct (lookup_lt_is_Some_2 l i) as [p Hp]; [lia|]. rewrite Hp.
    rewrite (drop_S l p i Hp). cbn [take].
    unfold next_index. destruct (decide (length l ≤ i + 1)%nat) as [Hend|Hmid].
    + assert (n = 0%nat) as -> by lia. cbn. rewrite decide_True by lia.
      by rewrite take_0.
    + destruct (IH (i + 1)%nat) as [Hr Hc]; [lia|].
      rewrite Hr, Hc. replace (i + 1)%nat with (S i) by lia. split; [done|].
      repeat case_decide; lia.
Qed.

Lemma round_robin_app l n m : ∀ i,
  (i < length l)%nat →
  round_robin l i (n + m)
  = round_robin l i n ++ round_robin l (cursor_after (length l) i n) m.
Proof.
  induction n as [|n IH]; intros i Hi; [done|].
  cbn [Nat.add round_robin cursor_after].
  destruct (lookup_lt_is_Some_2 l i Hi) as [p ->]. cbn [app]. f_equal.
  apply IH, next_index_lt. lia.
Qed.

Lemma cursor_after_app k n m : ∀ i,
  cursor_after k i (n + m) = cursor_after k (cursor_after k i n) m.
Proof. induction n as [|n IH]; intros i; [done|]. cbn. apply IH. Qed.

(** A full pass from any cursor polls the roster rotated to that cursor and
    brings the cursor back. *)
Lemma round_robin_full l i :
  (i < length l)%nat →
  round_robin l i (length l) = drop i l ++ take i l
  ∧ cursor_after (length l) i (length l) = i.
Proof.
  intros Hi.
  pose proof (round_robin_app l (length l - i) i i Hi) as Ha.
  pose proof (cursor_after_app (length l) (length l - i) i i) as Hb.
  replace (length l - i + i)%nat with (length l) in Ha, Hb by lia.
  rewrite Ha, Hb.
  destruct (round_robin_straight l (length l - i) i) as [Hr Hc]; [lia|].
  rewrite Hr, Hc. rewrite decide_True by lia.
  rewrite take_ge by (rewrite length_drop; lia).
  destruct (round_robin_straight l i 0) as [Hr0 Hc0]; [lia|].
  rewrite Hr0, Hc0. cbn [drop]. split; [done|].
  case_decide; lia.
Qed.

Lemma cycles_round_robin (w : World) ps (w' : World) :
  cycles w ps w' →
  (syncDataIndex (manager w) < length (syncDataAllies (manager w)))%nat →
  ps = (fun p => (val p, val dataSegmentId))
         <$> round_robin (syncDataAllies (manager w)) (syncDataIndex (manager w))
               (length ps)
  ∧ syncDataAllies (manager w') = syncDataAllies (manager w)
  ∧ syncDataIndex (manager w')
    = cursor_after (length (syncDataAllies (manager w))) (syncDataIndex (manager w))
        (length ps).
Proof.
  induction 1 as [w|w w1 ps w2 [Hl Hi] Hcyc Hrest IH]; intros Hlt; [done|].
  destruct (syncAlliesData_cycle w1 Hcyc) as [Hl' Hi'].
  rewrite Hl, Hi in *.
  destruct IH as (Hps & Hl2 & Hi2).
  { rewrite Hl', Hi'. apply next_index_lt. lia. }
  rewrite Hl', Hi' in *.
  cbn [length round_robin cursor_after].
  rewrite (is_cycle_requested w1 Hcyc). unfold polled_peer. rewrite Hl, Hi.
  destruct (lookup_lt_is_Some_2 _ _ Hlt) as [p ->].
  cbn [fmap list_fmap]. split; [by rewrite <- Hps|]. done.
Qed.

End SyncFacts.

(** ** More about the synchronisation classes *)

Lemma sends_used originals :
  sends originals true = (replicate (length originals) ERR_TIRED, true).
Proof.
  induction originals as [|o rest IH]; [done|].
  cbn [sends send]. by rewrite IH.
Qed.

(** X25.  Through the replacement of [StructureTerminal.prototype.send], a
    terminal object accepts at most one transfer: up to the first call the
    original method answers with [OK] the results are those of the original
    method, and every later call is answered [ERR_TIRED]. *)
Theorem send_at_most_once originals :
  let results := (sends originals false).1 in
  length results = length originals
  ∧ (length (filter (fun r => r = OK) results) ≤ 1)%nat
  ∧ (∀ i j, results !! i = Some OK → (i < j < length originals)%nat →
            results !! j = Some ERR_TIRED)
  ∧ (∀ i, OK ∉ take i originals → take (S i) results = take (S i) originals).
Proof.
  induction originals as [|o rest (IH1 & IH2 & IH3 & IH4)].
  { cbn. split; [done|]. split; [lia|]. split; [done|]. intros i _. by destruct i. }
  cbn [sends send]. destruct (o =? OK) eqn:Ho.
  - apply Z.eqb_eq in Ho. subst o. rewrite sends_used. cbn [fst].
    split; [cbn; by rewrite length_replicate|]. split; [|split].
    + rewrite filter_cons_True by done. cbn [length].
      assert (Hf : filter (fun r => r = OK) (replicate (length rest) ERR_TIRED) = []).
      { clear. induction (length rest) as [|n IH]; [done|].
        cbn [replicate]. by rewrite filter_cons_False. }
      rewrite Hf. cbn. lia.
    + intros i j Hi Hj. destruct j as [|j]; [lia|]. cbn [length] in Hj. cbn.
      apply lookup_replicate_2. lia.
    + intros i Hi. destruct i as [|i]; [cbn [take]; by rewrite !take_0|].
      exfalso. apply Hi. cbn. left.
  - destruct (sends rest false) as [results u] eqn:Hs. cbn [fst] in *.
    split; [cbn; by rewrite IH1|]. split; [|split].
    + rewrite filter_cons_False by (apply Z.eqb_neq in Ho; done). done.
    + intros i j Hi Hj. destruct i as [|i].
      { cbn in Hi. injection Hi as ->. done. }
      destruct j as [|j]; [lia|]. cbn [length] in Hj. cbn in *.
      apply (IH3 i j); [done|lia].
    + intros i Hi. cbn [take]. f_equal. destruct i as [|i]; [by rewrite !take_0|].
      apply IH4. intros Hin. apply Hi. cbn [take]. by right.
Qed.

Section SyncMore.

Context {Json : Type} `{!Env Json}.

Abbreviation World := (World Json).
Abbreviation Manager := (Manager Json).

(** *** Reading an encrypted segment *)

Lemma readEncryptedSegment_keyData p id k (w : World) :
  keyData (readEncryptedSegment p id k w).1 = keyData w.
Proof.
  destruct (decide (requested w = (p, val id))) as [Heq|Hne].
  - destruct (settled w) as [d|] eqn:Hs.
    + rewrite (readEncryptedSegment_settled p id k d w Hs Heq).
      destruct (not_brace (decrypt d k)); [done|].
      by destruct (JSON_parse (decrypt d k)).
    + unfold readEncryptedSegment, bind at 1. rewrite (readSegment_same p id true w Heq).
      unfold read, bind, get, ret. by rewrite Hs.
  - unfold readEncryptedSegment, bind at 1.
    by rewrite (readSegment_retarget p id true w Hne).
Qed.

Lemma readEncryptedSegment_unsettled p id k (w : World) :
  settled w = None → requested w = (p, val id) →
  readEncryptedSegment p id k w = (w, Returns Undefined).
Proof.
  intros Hs Heq. unfold readEncryptedSegment, bind at 1.
  rewrite (readSegment_same p id true w Heq).
  unfold read, bind, get, ret. by rewrite Hs.
Qed.

(** X8.  [readEncryptedSegment] hands out a value only for settled,
    non-empty data of the subscribed segment whose decryption starts with a
    brace and parses, and that value is the parsed one; a subscribed segment
    that is empty is reported as [undefined], never as the empty object. *)
Theorem readEncryptedSegment_value p id k (w : World) :
  (∀ w' j, readEncryptedSegment p id k w = (w', Returns (Value j)) →
     ∃ d, settled w = Some d ∧ requested w = (p, val id) ∧ d ≠ []
          ∧ not_brace (decrypt d k) = false ∧ JSON_parse (decrypt d k) = Some j
          ∧ w' = stored_raw d w)
  ∧ (∀ fs, foreignSegment (host w) = Some fs → fs_data fs = [] →
       requested w = (p, val id) →
       readEncryptedSegment p id k w = (w, Returns Undefined)).
Proof.
  split.
  - intros w' j Hread.
    destruct (decide (requested w = (p, val id))) as [Heq|Hne].
    + destruct (settled w) as [d|] eqn:Hs.
      * rewrite (readEncryptedSegment_settled p id k d w Hs Heq) in Hread.
        destruct (settled_Some w d Hs) as (_ & _ & _ & _ & Hd).
        exists d. destruct (not_brace (decrypt d k)); [done|].
        destruct (JSON_parse (decrypt d k)) as [j'|]; [|done].
        injection Hread as <- <-. done.
      * by rewrite readEncryptedSegment_unsettled in Hread.
    + unfold readEncryptedSegment, bind at 1 in Hread.
      by rewrite (readSegment_retarget p id true w Hne) in Hread.
  - intros fs Hfs Hd Heq. apply readEncryptedSegment_unsettled; [|done].
    unfold settled. rewrite Hfs, Hd. cbn. by rewrite !orb_true_r.
Qed.

(** *** Keys delivered by transfer *)

Lemma gtb_false n m : n <= m → (n >? m) = false.
Proof. intros. rewrite Z.gtb_ltb. apply Z.ltb_ge. lia. Qed.

Lemma gtb_true n m : m < n → (n >? m) = true.
Proof. intros. rewrite Z.gtb_ltb. apply Z.ltb_lt. lia. Qed.

(** One step of the scan over a transfer that is passed over. *)
Lemma scan_transactions_pass t rest i (w : World) :
  passed_over t → recent (Game_time (host w)) t →
  scan_transactions (t :: rest) i w
  = if i + 1 >=? 30 then (w, Returns false) else scan_transactions rest (i + 1) w.
Proof.
  intros Hp Hr. cbn [scan_transactions]. unfold bind at 1, get at 1.
  rewrite gtb_false by done. fold (from_leader t).
  destruct Hp as [Hf|(d & Hd & H66 & H64)].
  - rewrite Hf. by destruct (i + 1 >=? 30).
  - rewrite Hd. rewrite !bool_decide_eq_false_2 by done.
    destruct (from_leader t); by destruct (i + 1 >=? 30).
Qed.

Lemma scan_transactions_stale t rest i (w : World) :
  Game_time (host w) > tx_time t + 1000 →
  scan_transactions (t :: rest) i w = (w, Returns false).
Proof.
  intros Hs. cbn [scan_transactions]. unfold bind at 1, get at 1.
  by rewrite gtb_true by lia.
Qed.

Lemma scan_transactions_passed_over pre post : ∀ i (w : World),
  Forall passed_over pre →
  (pre ≠ [] ∧ 30 <= i + Z.of_nat (length pre))
  ∨ post = []
  ∨ (∃ t post', post = t :: post' ∧ Game_time (host w) > tx_time t + 1000) →
  scan_transactions (pre ++ post) i w = (w, Returns false).
Proof.
  induction pre as [|t pre IH]; intros i w Hp Hc.
  - destruct Hc as [[? _]|[->|(t & post' & -> & Hs)]]; [done|done|].
    by apply scan_transactions_stale.
  - apply Forall_cons in Hp as [Ht Hp]. cbn [app].
    destruct (decide (Game_time (host w) > tx_time t + 1000)) as [Hs|Hs].
    { by apply scan_transactions_stale. }
    rewrite scan_transactions_pass; [|done|unfold recent; lia].
    destruct (i + 1 >=? 30) eqn:H30; [done|].
    apply IH; [done|].
    destruct Hc as [[_ Hlen]|Hc]; [|by right].
    left. cbn [length] in Hlen.
    assert (i + 1 < 30) by (rewrite Z.geb_leb in H30; apply Z.leb_gt in H30; lia).
    split; [|lia]. destruct pre; [cbn in Hlen; lia|done].
Qed.

Lemma scan_transactions_reaches pre post : ∀ i (w : World),
  Forall passed_over pre → Forall (recent (Game_time (host w))) pre →
  i + Z.of_nat (length pre) < 30 →
  scan_transactions (pre ++ post) i w
  = scan_transactions post (i + Z.of_nat (length pre)) w.
Proof.
  induction pre as [|t pre IH]; intros i w Hp Hr Hlen.
  - cbn. by rewrite Z.add_0_r.
  - apply Forall_cons in Hp as [Ht Hp]. apply Forall_cons in Hr as [Htr Hr].
    cbn [app length] in *. rewrite scan_transactions_pass by done.
    rewrite geb_false by lia. rewrite IH by (done || lia). f_equal. lia.
Qed.

(** X9.  [readKeyFromTransactions] looks at the first 30 incoming
    transfers only: when each of them is passed over, it answers [false]
    and changes nothing, whatever follows them. *)
Theorem readKeyFromTransactions_first_30 (w : World) pre post :
  incomingTransactions (host w) = pre ++ post →
  length pre = 30%nat → Forall passed_over pre →
  readKeyFromTransactions w = (w, Returns false).
Proof.
  intros Htx Hlen Hp. unfold readKeyFromTransactions, bind, get. rewrite Htx.
  apply scan_transactions_passed_over; [done|]. left.
  split; [by destruct pre|lia].
Qed.

(** X10.  The scan ends at the first transfer older than 1000 ticks: when
    the transfers before it are passed over, [readKeyFromTransactions]
    answers [false] and changes nothing, whatever follows it. *)
Theorem readKeyFromTransactions_stale (w : World) pre t post :
  incomingTransactions (host w) = pre ++ t :: post →
  Forall passed_over pre → Game_time (host w) > tx_time t + 1000 →
  readKeyFromTransactions w = (w, Returns false).
Proof.
  intros Htx Hp Hs. unfold readKeyFromTransactions, bind, get. rewrite Htx.
  apply scan_transactions_passed_over; [done|]. right. right. eauto.
Qed.

(** X11.  The first transfer of the leader (three units of energy) among
    the first 30 that is at most 1000 ticks old, the ones before it being
    passed over, is the delivery taken: a description of 64 code units
    becomes [key], one of 66 code units becomes [newKey] without its first
    two code units; the record is persisted and the answer is [true]. *)
Theorem readKeyFromTransactions_accepts (w : World) r pre t post d :
  keyData w = Some r →
  incomingTransactions (host w) = pre ++ t :: post →
  Forall passed_over pre → Forall (recent (Game_time (host w))) pre →
  (length pre < 30)%nat →
  recent (Game_time (host w)) t → from_leader t = true → tx_description t = val d →
  (length d = 64%nat →
     readKeyFromTransactions w
     = (persisted {| key := val d; newKey := newKey r;
                     expire := expire r; leaderRoom := leaderRoom r |} w, Returns true))
  ∧ (length d = 66%nat →
       readKeyFromTransactions w
       = (persisted {| key := key r; newKey := val (drop 2 d);
                       expire := expire r; leaderRoom := leaderRoom r |} w, Returns true)).
Proof.
  intros Hr Htx Hp Hrec Hlen Ht Hf Hd.
  assert (Hscan : readKeyFromTransactions w
                  = scan_transactions (t :: post) (0 + Z.of_nat (length pre)) w).
  { unfold readKeyFromTransactions, bind, get. rewrite Htx.
    apply scan_transactions_reaches; (done || lia). }
  rewrite Hscan.
  split; intros HL; cbn [scan_transactions]; unfold bind at 1, get at 1;
    rewrite gtb_false by done; fold (from_leader t); rewrite Hf, Hd.
  - rewrite bool_decide_eq_false_2 by lia. rewrite bool_decide_eq_true_2 by done.
    cbv beta iota. unfold bind at 1, the_keyData, bind at 1, get at 1. rewrite Hr. done.
  - rewrite bool_decide_eq_true_2 by done.
    cbv beta iota. unfold bind at 1, the_keyData, bind at 1, get at 1. rewrite Hr. done.
Qed.

(** X12.  When the scan reaches a transfer of the leader (three units of
    energy) whose description is not a string, [readKeyFromTransactions]
    raises a [TypeError] and changes nothing. *)
Theorem readKeyFromTransactions_no_description (w : World) pre t post :
  incomingTransactions (host w) = pre ++ t :: post →
  Forall passed_over pre → Forall (recent (Game_time (host w))) pre →
  (length pre < 30)%nat →
  recent (Game_time (host w)) t → from_leader t = true →
  (∀ d, tx_description t ≠ val d) →
  readKeyFromTransactions w = (w, Throws TypeError).
Proof.
  intros Htx Hp Hrec Hlen Ht Hf Hd.
  assert (Hscan : readKeyFromTransactions w
                  = scan_transactions (t :: post) (0 + Z.of_nat (length pre)) w).
  { unfold readKeyFromTransactions, bind, get. rewrite Htx.
    apply scan_transactions_reaches; (done || lia). }
  rewrite Hscan. cbn [scan_transactions]. unfold bind at 1, get at 1.
  rewrite gtb_false by done. fold (from_leader t). rewrite Hf.
  destruct (tx_description t) as [| |d]; [done|done|]. by destruct (Hd d).
Qed.

(** *** Asking for a key *)

Lemma add_sent_nil (w : World) : set_host (add_sent []) w = w.
Proof.
  destruct w as [h p k m]. destruct h. unfold set_host, add_sent. cbn.
  by rewrite app_nil_r.
Qed.

Lemma add_sent_cons i dest attempts (w : World) :
  set_host (add_sent attempts) (set_host (terminal_sent i dest) w)
  = set_host (add_sent ((i, dest) :: attempts)) w.
Proof.
  unfold set_host, add_sent, terminal_sent. cbn. by rewrite <- app_assoc.
Qed.

Lemma visited_cons x rs :
  visited (x :: rs) = if accepted x.2 then [x] else x :: visited rs.
Proof.
  unfold visited. cbn [list_find]. case_decide as Hx.
  - rewrite Hx. cbn [take]. by rewrite take_0.
  - destruct (accepted x.2); [done|].
    destruct (list_find _ rs) as [[n y]|]; done.
Qed.

Lemma send_request_visited dest rs : ∀ b (w : World),
  send_request dest rs b w
  = (set_host (add_sent ((fun ir => (ir.1, dest))
                           <$> filter (fun ir => ready ir.2 = true) (visited rs))) w,
     Returns (b || existsb (fun ir => bool_decide (is_Some (getValidTerminal ir.2))) rs)).
Proof.
  induction rs as [|[i r] rs IH]; intros b w.
  - cbn. by rewrite add_sent_nil, orb_false_r.
  - cbn [send_request existsb snd]. rewrite visited_cons. cbn [snd].
    unfold accepted, ready.
    destruct (getValidTerminal r) as [t|] eqn:Hv.
    + assert (Ht : room_terminal r = Some t).
      { unfold getValidTerminal in Hv. destruct (room_terminal r) as [t'|]; [|done].
        destruct (room_controller_my r && terminal_my t'); congruence. }
      rewrite Ht. rewrite bool_decide_eq_true_2 by eauto. rewrite orb_true_r.
      destruct ((terminal_cooldown t =? 0) && (terminal_energy t >=? 10)) eqn:Hr.
      * cbn [andb]. unfold bind at 1, modify at 1.
        destruct (terminal_send t =? OK) eqn:Hs.
        -- rewrite filter_cons_True by (cbn; unfold ready; by rewrite Hv).
           rewrite filter_nil. cbn [fmap list_fmap fst]. unfold ret.
           by rewrite <- (add_sent_cons i dest []), add_sent_nil.
        -- rewrite filter_cons_True by (cbn; unfold ready; by rewrite Hv).
           cbn [fmap list_fmap fst]. rewrite IH. by rewrite add_sent_cons.
      * cbn [andb]. rewrite filter_cons_False by (cbn; unfold ready; by rewrite Hv, Hr).
        by rewrite IH.
    + cbn [andb]. rewrite filter_cons_False by (cbn; unfold ready; by rewrite Hv).
      rewrite IH. rewrite bool_decide_eq_false_2 by (intros [? ?]; done). done.
Qed.

Lemma visited_accepted rs :
  (length (filter (fun ir => accepted ir.2 = true) (visited rs)) ≤ 1)%nat.
Proof.
  induction rs as [|x rs IH]; [cbn; lia|].
  rewrite visited_cons. destruct (accepted x.2) eqn:Hx.
  - rewrite filter_cons_True by done. cbn. lia.
  - rewrite filter_cons_False by (by rewrite Hx). done.
Qed.

(** X13.  [requestKey] on a record without new key, once no delivery was
    found: without leader room it logs two lines and sends nothing;
    otherwise it sends three units of energy to the leader room from the
    ready terminals, in the order of [Game.rooms], until the host accepts
    one transfer (so at most one is accepted), it answers [undefined] when
    some room has a valid terminal, and it logs and answers [NEXT_TICK]
    when none has. *)
Theorem requestKey_sends (w : World) r :
  keyData w = Some r → truthy_str (newKey r) = false →
  readKeyFromTransactions w = (w, Returns false) →
  let rs := imap pair (rooms (host w)) in
  let attempts := (fun ir => (ir.1, str_of (leaderRoom r)))
                    <$> filter (fun ir => ready ir.2 = true) (visited rs) in
  (truthy_str (leaderRoom r) = false →
     requestKey w
     = (set_host (console_log LogLeaderRoomHint)
          (set_host (console_log LogLeaderRoomUndefined) w), Returns NEXT_TICK))
  ∧ (truthy_str (leaderRoom r) = true →
       requestKey w
       = if existsb (fun ir => bool_decide (is_Some (getValidTerminal ir.2))) rs
         then (set_host (add_sent attempts) w, Returns Undefined)
         else (set_host (console_log LogNoValidTerminal) (set_host (add_sent attempts) w),
               Returns NEXT_TICK))
  ∧ (length (filter (fun ir => accepted ir.2 = true) (visited rs)) ≤ 1)%nat.
Proof.
  intros Hr Hn Hscan rs attempts.
  assert (Hreq : requestKey w
    = if negb (truthy_str (leaderRoom r))
      then (set_host (console_log LogLeaderRoomHint)
              (set_host (console_log LogLeaderRoomUndefined) w), Returns NEXT_TICK)
      else bind (send_request (str_of (leaderRoom r)) rs false)
             (fun hasValidTerminal =>
                if negb hasValidTerminal
                then bind (modify (set_host (console_log LogNoValidTerminal)))
                       (fun _ => ret NEXT_TICK)
                else ret Undefined) w).
  { unfold requestKey. unfold bind at 1. rewrite (the_keyData_loaded w r Hr). rewrite Hn.
    unfold bind at 1. rewrite Hscan. unfold bind at 1.
    rewrite (the_keyData_loaded w r Hr).
    by destruct (negb (truthy_str (leaderRoom r))). }
  split; [|split].
  - intros Hl. by rewrite Hreq, Hl.
  - intros Hl. rewrite Hreq, Hl. cbn [negb]. unfold bind at 1.
    rewrite send_request_visited. cbn [orb].
    by destruct (existsb _ rs).
  - apply visited_accepted.
Qed.

(** *** The member's poll of the roster *)

(** X14.  In the last 1000 ticks before [expire], once the new key has
    arrived, [syncMember] does nothing at all and answers [undefined]: the
    roster of the leader is not polled until the key has been replaced. *)
Theorem syncMember_renewal_window (w : World) r :
  keyData w = Some r → truthy_str (key r) = true → truthy_str (newKey r) = true →
  truthy_num (expire r) = true →
  (num_of (expire r) - 1000 <= Game_time (host w) < num_of (expire r) →
     syncMember w = (w, Returns Undefined))
  ∧ ∀ hs, Forall (fun h => num_of (expire r) - 1000 <= Game_time h < num_of (expire r)) hs →
          (sync_ticks hs w).1 = replicate (length hs) (Returns Undefined)
          ∧ keyData (sync_ticks hs w).2 = Some r
          ∧ provider (sync_ticks hs w).2 = provider w
          ∧ manager (sync_ticks hs w).2 = manager w.
Proof.
  intros Hr Hk Hn He.
  assert (Hsync : ∀ w' : World, keyData w' = Some r →
            num_of (expire r) - 1000 <= Game_time (host w') < num_of (expire r) →
            syncMember w' = (w', Returns Undefined)).
  { intros w' Hr' Ht. rewrite (syncMember_loaded w' r Hr').
    - rewrite Hk, He. cbn [negb orb andb]. rewrite geb_true by lia.
      by apply (requestKey_newKey w' r).
    - rewrite Hk, He. cbn [andb]. apply geb_false. lia. }
  split; [by apply Hsync|].
  intros hs. revert w Hr. induction hs as [|h hs IH]; intros w Hr Hhs; [done|].
  apply Forall_cons in Hhs as [Hh Hhs].
  cbn [sync_ticks]. rewrite Hsync by done.
  specialize (IH (set_host (fun _ => h) w) Hr Hhs).
  destruct (sync_ticks hs (set_host (fun _ => h) w)) as [rs w''].
  cbn [fst snd] in *. destruct IH as (-> & ? & ? & ?). done.
Qed.

(** X15.  With a roster it could read, [syncMember] answers the roster;
    when the roster carries [keyExpireTime] or [room], the record gets
    [expire := keyExpireTime || null] and [leaderRoom := room] and is
    persisted if that changes it.  So a roster with [keyExpireTime] and
    without [room] clears the leader room of the record. *)
Theorem syncMember_roster (w : World) r (w1 : World) j :
  keyData w = Some r → truthy_str (key r) = true →
  (truthy_num (expire r) = true → Game_time (host w) < num_of (expire r) - 1000) →
  readEncryptedSegment leaderPlayerName segmentId
    (str_of (if truthy_str (newKey r) && negb (truthy_num (expire r))
             then newKey r else key r)) w
  = (w1, Returns (Value j)) →
  let e := if truthy_num (keyExpireTime j) then keyExpireTime j else null in
  let r' := {| key := key r; newKey := newKey r; expire := e; leaderRoom := room j |} in
  (truthy_num (keyExpireTime j) || truthy_str (room j) = false →
     syncMember w = (w1, Returns (Value j)))
  ∧ (truthy_num (keyExpireTime j) || truthy_str (room j) = true →
       syncMember w
       = (if bool_decide (e = expire r) && bool_decide (room j = leaderRoom r)
          then w1 else persisted r' w1, Returns (Value j)))
  ∧ (truthy_num (keyExpireTime j) = true → room j = undefined →
       leaderRoom <$> keyData (syncMember w).1 = Some undefined).
Proof.
  intros Hr Hk He Hread e r'.
  pose proof (readEncryptedSegment_keyData leaderPlayerName segmentId
                (str_of (if truthy_str (newKey r) && negb (truthy_num (expire r))
                         then newKey r else key r)) w) as Hkd.
  rewrite Hread in Hkd. cbn [fst] in Hkd. rewrite Hr in Hkd.
  assert (Hsync : syncMember w
    = bind (if truthy_num (keyExpireTime j) || truthy_str (room j)
            then setKeyData e (room j) else ret tt)
           (fun _ => ret (Value j)) w1).
  { rewrite (syncMember_loaded w r Hr).
    - rewrite Hk. cbn [negb orb].
      destruct (truthy_num (expire r)) eqn:Hx.
      + rewrite geb_false by by apply He. cbn [andb]. unfold bind at 1. by rewrite Hread.
      + cbn [andb]. unfold bind at 1. by rewrite Hread.
    - rewrite Hk. destruct (truthy_num (expire r)) eqn:Hx; [|done].
      cbn. apply geb_false. specialize (He eq_refl). lia. }
  assert (Hset : setKeyData e (room j) w1
    = (if bool_decide (e = expire r) && bool_decide (room j = leaderRoom r)
       then w1 else persisted r' w1, Returns tt)).
  { unfold setKeyData. unfold bind at 1. rewrite (the_keyData_loaded w1 r Hkd).
    destruct (bool_decide (e = expire r) && bool_decide (room j = leaderRoom r)); done. }
  split; [|split].
  - intros Hf. rewrite Hsync, Hf. done.
  - intros Ht. rewrite Hsync, Ht. unfold bind. by rewrite Hset.
  - intros Ht Hroom. rewrite Hsync, Ht. cbn [orb]. unfold bind. rewrite Hset.
    case_bool_decide as He'; case_bool_decide as Hl; cbn; try by rewrite Hroom.
    rewrite Hkd. cbn. f_equal. congruence.
Qed.

Lemma scan_transactions_returns txs : ∀ i (w : World) r,
  keyData w = Some r → Forall described txs →
  ∃ w' b r', scan_transactions txs i w = (w', Returns b) ∧ keyData w' = Some r'
             ∧ rooms (host w') = rooms (host w).
Proof.
  induction txs as [|t txs IH]; intros i w r Hr Hd.
  - exists w, false, r. done.
  - apply Forall_cons in Hd as [Ht Hd].
    cbn [scan_transactions]. unfold bind at 1, get at 1.
    destruct (Game_time (host w) >? tx_time t + 1000); [by exists w, false, r|].
    assert (Hnext : ∃ w' b r',
      (if i + 1 >=? 30 then ret false else scan_transactions txs (i + 1)) w
      = (w', Returns b) ∧ keyData w' = Some r' ∧ rooms (host w') = rooms (host w)).
    { destruct (i + 1 >=? 30); [by exists w, false, r|]. by apply (IH _ _ r). }
    fold (from_leader t). destruct (from_leader t) eqn:Hf; [|done].
    destruct (Ht Hf) as [d ->].
    case_bool_decide.
    { unfold bind at 1, the_keyData, bind at 1, get at 1. rewrite Hr.
      eexists _, true, _. done. }
    case_bool_decide; [|done].
    unfold bind at 1, the_keyData, bind at 1, get at 1. rewrite Hr.
    eexists _, true, _. done.
Qed.

Lemma requestKey_returns (w : World) r :
  keyData w = Some r → Forall described (incomingTransactions (host w)) →
  ∃ w' res, requestKey w = (w', Returns res).
Proof.
  intros Hr Hd. unfold requestKey. unfold bind at 1.
  rewrite (the_keyData_loaded w r Hr).
  destruct (truthy_str (newKey r)); [by exists w, Undefined|].
  unfold bind at 1, readKeyFromTransactions, bind at 1, get at 1.
  destruct (scan_transactions_returns _ 0 w r Hr Hd) as (w1 & b & r1 & -> & Hr1 & _).
  destruct b; [by exists w1, NEXT_TICK|].
  unfold bind at 1. rewrite (the_keyData_loaded w1 r1 Hr1).
  destruct (negb (truthy_str (leaderRoom r1))); [by eexists _, NEXT_TICK|].
  unfold bind at 1, get at 1. unfold bind at 1.
  rewrite send_request_visited. cbn [orb].
  destruct (existsb _ _); [by eexists _, Undefined|by eexists _, NEXT_TICK].
Qed.

Lemma readKeyFromLocalSegment_returns (w : World) :
  (∀ d, segments (host w) !! keySegmentId = Some d → d ≠ [] →
        JSON_parse_keyData d ≠ None) →
  ∃ w' b, readKeyFromLocalSegment w = (w', Returns b)
          ∧ (b = true → is_Some (keyData w') ∧ host w' = host w).
Proof.
  intros Hparse. unfold readKeyFromLocalSegment, bind at 1, get at 1.
  destruct (segments (host w) !! keySegmentId) as [d|] eqn:Hseg.
  - destruct d as [|c d]; [by eexists _, true|].
    destruct (JSON_parse_keyData (c :: d)) as [[r|]|] eqn:Hp.
    + by eexists _, true.
    + by eexists _, true.
    + by destruct (Hparse (c :: d)).
  - eexists _, false. done.
Qed.

Lemma syncMember_unfold (w : World) :
  syncMember w
  = bind (match keyData w with
          | None => readKeyFromLocalSegment
          | Some _ => ret true
          end)
      (fun loaded => if negb loaded then ret NEXT_TICK else syncMember_loaded_record) w.
Proof. reflexivity. Qed.

Lemma syncMember_loaded_record_returns (w : World) r :
  keyData w = Some r → Forall described (incomingTransactions (host w)) →
  notification_returns →
  ∃ w' res, syncMember_loaded_record w = (w', Returns res).
Proof.
  intros Hr Hd Hnotify. unfold syncMember_loaded_record.
  destruct (truthy_str (key r) && truthy_num (expire r)
            && (Game_time (host w) >=? num_of (expire r))) eqn:Hc.
  - unfold bind at 1. rewrite (updateExpiredKey_fires w r Hr Hc).
    destruct (truthy_str (newKey r)); [|by eexists _, NEXT_TICK].
    destruct onKeyChanged as [notify|] eqn:Hn; [|by eexists _, NEXT_TICK].
    destruct (Hnotify notify
                (persisted {| key := newKey r; newKey := undefined; expire := null;
                              leaderRoom := leaderRoom r |} w) Hn) as [w1 Hw1].
    unfold bind. rewrite Hw1. by eexists _, NEXT_TICK.
  - unfold bind at 1. rewrite (updateExpiredKey_idle w r Hr Hc).
    unfold bind at 1. rewrite (the_keyData_loaded w r Hr).
    unfold bind at 1, get at 1.
    destruct (negb (truthy_str (key r))
              || truthy_num (expire r)
                 && (Game_time (host w) >=? num_of (expire r) - 1000)).
    { by apply (requestKey_returns w r). }
    cbv zeta. set (k := str_of _).
    pose proof (readEncryptedSegment_keyData leaderPlayerName segmentId k w) as Hkd.
    destruct (readEncryptedSegment_returns leaderPlayerName segmentId k w)
      as (w1 & data & Hread).
    unfold bind at 1. rewrite Hread. rewrite Hread in Hkd. cbn [fst] in Hkd.
    rewrite Hr in Hkd.
    destruct data as [| |code|j]; [by eexists _, NEXT_TICK|by eexists _, NEXT_TICK| |].
    + destruct (code =? ERR_JSON_PARSE_FAILED); [by eexists _, Undefined|].
      destruct (code =? ERR_DECRYPTION_FAILED); [|by eexists _, (Failed code)].
      destruct (truthy_str (newKey r) && negb (truthy_num (expire r)));
        [by eexists _, Undefined|by eexists _, NEXT_TICK].
    + destruct (truthy_num (keyExpireTime j) || truthy_str (room j));
        [|by eexists _, (Value j)].
      unfold bind at 1, setKeyData, bind at 1. rewrite (the_keyData_loaded w1 r Hkd).
      destruct (bool_decide _ && bool_decide _); by eexists _, (Value j).
Qed.

(** X16.  [syncMember] returns, and does not raise, whenever the stored key
    record (if it has to be loaded) parses, every transfer of the leader
    carries a description, and the key-changed notification returns. *)
Theorem syncMember_returns (w : World) :
  (keyData w = None →
   ∀ d, segments (host w) !! keySegmentId = Some d → d ≠ [] →
        JSON_parse_keyData d ≠ None) →
  Forall described (incomingTransactions (host w)) →
  notification_returns →
  ∃ w' res, syncMember w = (w', Returns res).
Proof.
  intros Hparse Hd Hnotify. rewrite syncMember_unfold.
  destruct (keyData w) as [r|] eqn:Hr.
  - unfold bind at 1, ret at 1. cbn [negb].
    by apply (syncMember_loaded_record_returns w r).
  - destruct (readKeyFromLocalSegment_returns w (Hparse eq_refl)) as (w1 & b & Hl & Hb).
    unfold bind at 1. rewrite Hl. destruct b; [|by eexists _, NEXT_TICK].
    cbn [negb]. destruct (Hb eq_refl) as [[r1 Hr1] Hh].
    apply (syncMember_loaded_record_returns w1 r1 Hr1); [|done]. by rewrite Hh.
Qed.

(** X26.  [syncMember] before the key record is loaded.  While the key
    segment is not available it asks for the segment and answers
    [NEXT_TICK]; an empty segment yields the record without key and without
    expiry, with which the call goes on; and a segment whose text does not
    parse makes [syncMember] raise a [SyntaxError] with nothing changed, on
    every tick for as long as the host shows that text. *)
Theorem syncMember_unloaded (w : World) :
  keyData w = None →
  (segments (host w) !! keySegmentId = None →
     syncMember w = (set_host (setActiveSegments [keySegmentId]) w, Returns NEXT_TICK))
  ∧ (segments (host w) !! keySegmentId = Some [] →
       syncMember w
       = syncMember_loaded_record
           (set_keyData (Some {| key := undefined; newKey := undefined;
                                 expire := null; leaderRoom := undefined |}) w))
  ∧ (corrupt_key_segment (host w) → syncMember w = (w, Throws SyntaxError))
  ∧ ∀ hs, Forall corrupt_key_segment hs →
          (sync_ticks hs w).1 = replicate (length hs) (Throws SyntaxError)
          ∧ keyData (sync_ticks hs w).2 = None.
Proof.
  intros Hk.
  assert (Hcorrupt : ∀ w0 : World, keyData w0 = None → corrupt_key_segment (host w0) →
            syncMember w0 = (w0, Throws SyntaxError)).
  { intros w0 H0 (c & d & Hseg & Hp). rewrite syncMember_unfold, H0.
    unfold bind at 1, readKeyFromLocalSegment, bind at 1, get at 1.
    by rewrite Hseg, Hp. }
  split; [|split; [|split]].
  - intros Hseg. rewrite syncMember_unfold, Hk.
    unfold bind at 1, readKeyFromLocalSegment, bind at 1, get at 1.
    by rewrite Hseg.
  - intros Hseg. rewrite syncMember_unfold, Hk.
    unfold bind at 1, readKeyFromLocalSegment, bind at 1, get at 1.
    by rewrite Hseg.
  - by apply Hcorrupt.
  - intros hs. revert w Hk. induction hs as [|h hs IH]; intros w Hk Hhs; [done|].
    apply Forall_cons in Hhs as [Hh Hhs].
    cbn [sync_ticks]. rewrite Hcorrupt by done.
    specialize (IH (set_host (fun _ => h) w) Hk Hhs).
    destruct (sync_ticks hs (set_host (fun _ => h) w)) as [rs w''].
    cbn [fst snd] in *. destruct IH as [-> ?]. done.
Qed.

(** *** The peer-data round robin *)

(** X18.  What a cycle of [syncAlliesData] stores for the peer it polled
    with the active key: the parsed data, with [attack] and [player]
    cleared when the peer is a [MEMBER]; and [undefined], replacing what was
    stored before, when the segment is not settled, is an empty object, or
    fails to decrypt or to parse.  The cursor moves on in every case. *)
Theorem syncAlliesData_stores (w w1 : World) r res :
  keyData w = Some r → truthy_str (key r) = true →
  lt_maybe (Game_time (host w)) (nextDataSync (manager w)) = false →
  readEncryptedSegment (polled_peer (manager w)) dataSegmentId (str_of (key r)) w
  = (w1, Returns res) →
  res ≠ NEXT_TICK →
  let m := manager w in
  let p := prop_key (polled_peer m) in
  let stored :=
    match res with
    | Value j =>
        if bool_decide (length (Object_keys j) = 0%nat) then undefined
        else if bool_decide (getAllyStatus m p = val MEMBER)
             then val (clear_attack_player j) else val j
    | _ => undefined
    end in
  alliesData (manager (syncAlliesData w).1) = <[p := stored]> (alliesData m)
  ∧ syncDataIndex (manager (syncAlliesData w).1)
    = next_index (length (syncDataAllies m)) (syncDataIndex m)
  ∧ (∀ code, res = Failed code →
       alliesData (manager (syncAlliesData w).1) !! p = Some undefined).
Proof.
  intros Hr Hk Hgate Hread Hres m p stored.
  assert (Hpoll : ∃ d, readAllyData (polled_peer (manager w)) w = (w1, Returns d)
                       ∧ d ≠ NEXT_TICK
                       ∧ applyPermissions (match d with Value j => val j | _ => undefined end)
                           (getAllyStatus m p) = stored).
  { rewrite (readAllyData_keyed _ w r Hr Hk). unfold bind. rewrite Hread.
    destruct res as [| |code|j]; [done| | |].
    - exists Undefined. done.
    - exists Undefined. done.
    - unfold stored. case_bool_decide.
      + exists Undefined. done.
      + exists (Value j). done. }
  destruct Hpoll as (d & Hd & Hne & Hst).
  rewrite (syncAlliesData_polled w w1 d Hgate Hd Hne). cbn [fst manager set_manager].
  cbn [alliesData syncDataIndex]. fold m p. rewrite Hst.
  split; [done|]. split; [done|].
  intros code ->. unfold stored. apply lookup_insert_eq.
Qed.

(** X19.  With an empty roster, [syncAlliesData] polls the player
    [undefined]: without active key it stores [undefined] under the
    property ["undefined"] of [alliesData] and closes the gate for
    [interval] ticks; with an active key it first subscribes to the data
    segment of the player [undefined]. *)
Theorem syncAlliesData_empty_roster (w : World) r :
  syncDataAllies (manager w) = [] → keyData w = Some r →
  lt_maybe (Game_time (host w)) (nextDataSync (manager w)) = false →
  let m := manager w in
  polled_peer m = undefined
  ∧ (truthy_str (key r) = false →
       syncAlliesData w
       = (set_manager
            {| allies := allies m;
               alliesData := <[lit "undefined" := undefined]> (alliesData m);
               Memory_alliesData_bound := true;
               myUserName := myUserName m;
               syncDataAllies := [];
               syncDataIndex := 0;
               nextDataSync := val (Game_time (host w) + interval) |} w,
          Returns tt))
  ∧ (truthy_str (key r) = true → requested w ≠ (undefined, val dataSegmentId) →
       syncAlliesData w = (retargeted undefined dataSegmentId w, Returns tt)).
Proof.
  intros Hl Hr Hgate m.
  assert (Hp : polled_peer m = undefined) by (unfold polled_peer, m; by rewrite Hl).
  split; [done|]. split.
  - intros Hk.
    assert (Hread : readAllyData (polled_peer (manager w)) w = (w, Returns Undefined)).
    { unfold readAllyData. unfold bind at 1. rewrite (the_keyData_loaded w r Hr).
      by rewrite Hk. }
    rewrite (syncAlliesData_polled w w Undefined Hgate Hread) by done.
    fold m. rewrite Hp. unfold m. rewrite Hl. done.
  - intros Hk Hne. unfold syncAlliesData. unfold bind at 1, get at 1. rewrite Hgate.
    unfold bind at 1. fold m. rewrite Hp.
    rewrite (readAllyData_keyed _ w r Hr Hk). unfold bind at 1.
    unfold readEncryptedSegment, bind at 1.
    rewrite (readSegment_retarget undefined dataSegmentId true w Hne). done.
Qed.

Lemma hasPermissionPublishRequests_true s :
  hasPermissionPublishRequests s = true ↔ s = val COUNCIL ∨ s = val MEMBER.
Proof.
  unfold hasPermissionPublishRequests. rewrite orb_true_iff, !bool_decide_eq_true. done.
Qed.

(** X17.  [updateSyncDataAllies] puts the cursor on 0 and makes the roster
    of exactly the allies other than [myUserName] whose status is
    [COUNCIL] or [MEMBER]; of the stored peer data it keeps that of the
    players with one of these statuses and replaces the rest by
    [undefined].  The peer polled next is not the player itself. *)
Theorem updateSyncDataAllies_roster (w : World) :
  let m := manager w in
  let m' := manager (updateSyncDataAllies w).1 in
  (updateSyncDataAllies w).2 = Returns tt
  ∧ syncDataIndex m' = 0%nat
  ∧ (∀ p, p ∈ syncDataAllies m'
          ↔ p ∈ (allies m).*1 ∧ val p ≠ myUserName m
            ∧ (getAllyStatus m p = val COUNCIL ∨ getAllyStatus m p = val MEMBER))
  ∧ (∀ p, alliesData m' !! p
          = (fun d => if hasPermissionPublishRequests (getAllyStatus m p)
                      then d else undefined) <$> alliesData m !! p)
  ∧ (polled_peer m' ≠ myUserName m' ∨ polled_peer m' = undefined).
Proof.
  intros m m'. unfold m', updateSyncDataAllies, bind, get, modify. cbn. fold m.
  split; [done|]. split; [done|]. split; [|split].
  - intros p. rewrite list_elem_of_filter, hasPermissionPublishRequests_true.
    split; [intros [[? ?] ?]|intros (? & ? & ?)]; done.
  - intros p. rewrite map_lookup_imap. by destruct (alliesData m !! p).
  - unfold polled_peer. cbn.
    destruct (filter _ (allies m).*1) as [|p l] eqn:Hf; [by right|left].
    cbn. assert (Hin : p ∈ filter (fun playerName =>
                   val playerName ≠ myUserName m
                   ∧ hasPermissionPublishRequests (getAllyStatus m playerName) = true)
                 (allies m).*1) by (rewrite Hf; left).
    apply list_elem_of_filter in Hin as [[Hne _] _]. done.
Qed.

(** *** The key record stays loaded *)

Lemma scan_transactions_keeps txs : ∀ i (w : World),
  is_Some (keyData w) → is_Some (keyData (scan_transactions txs i w).1).
Proof.
  induction txs as [|t txs IH]; intros i w [r Hr]; [by exists r|].
  cbn [scan_transactions]. unfold bind at 1, get at 1.
  destruct (Game_time (host w) >? tx_time t + 1000); [by exists r|].
  assert (Hnext : is_Some (keyData
            ((if i + 1 >=? 30 then ret false else scan_transactions txs (i + 1)) w).1)).
  { destruct (i + 1 >=? 30); [by exists r|]. apply IH. by exists r. }
  destruct (_ && _ && _); [|done].
  destruct (tx_description t) as [| |d]; [by exists r|by exists r|].
  case_bool_decide.
  { unfold bind at 1, the_keyData, bind at 1, get at 1. rewrite Hr. by eexists. }
  case_bool_decide; [|done].
  unfold bind at 1, the_keyData, bind at 1, get at 1. rewrite Hr. by eexists.
Qed.

Lemma requestKey_keeps (w : World) :
  is_Some (keyData w) → is_Some (keyData (requestKey w).1).
Proof.
  intros [r Hr]. unfold requestKey. unfold bind at 1.
  rewrite (the_keyData_loaded w r Hr).
  destruct (truthy_str (newKey r)); [by exists r|].
  unfold bind at 1, readKeyFromTransactions, bind at 1, get at 1.
  pose proof (scan_transactions_keeps (incomingTransactions (host w)) 0 w
                (ex_intro _ r Hr)) as [r1 Hr1].
  destruct (scan_transactions _ 0 w) as [w1 [b|e]]; cbn [fst] in Hr1; [|by exists r1].
  destruct b; [by exists r1|].
  unfold bind at 1. rewrite (the_keyData_loaded w1 r1 Hr1).
  destruct (negb (truthy_str (leaderRoom r1))); [by exists r1|].
  unfold bind at 1, get at 1. unfold bind at 1.
  rewrite send_request_visited. cbn [orb].
  destruct (existsb _ _); by exists r1.
Qed.

Lemma syncMember_loaded_record_keeps (w : World) :
  notification_keeps_record →
  is_Some (keyData w) → is_Some (keyData (syncMember_loaded_record w).1).
Proof.
  intros Hnotify [r Hr]. unfold syncMember_loaded_record.
  destruct (truthy_str (key r) && truthy_num (expire r)
            && (Game_time (host w) >=? num_of (expire r))) eqn:Hc.
  - unfold bind at 1. rewrite (updateExpiredKey_fires w r Hr Hc).
    set (w0 := persisted _ w).
    assert (H0 : is_Some (keyData w0)) by (by eexists).
    destruct (truthy_str (newKey r)); [|done].
    destruct onKeyChanged as [notify|] eqn:Hn; [|done].
    pose proof (Hnotify notify w0 Hn H0) as H1.
    unfold bind. by destruct (notify w0) as [w1 [[]|e]].
  - unfold bind at 1. rewrite (updateExpiredKey_idle w r Hr Hc).
    unfold bind at 1. rewrite (the_keyData_loaded w r Hr).
    unfold bind at 1, get at 1.
    destruct (negb (truthy_str (key r))
              || truthy_num (expire r)
                 && (Game_time (host w) >=? num_of (expire r) - 1000)).
    { apply requestKey_keeps. by exists r. }
    cbv zeta. set (k := str_of _).
    pose proof (readEncryptedSegment_keyData leaderPlayerName segmentId k w) as Hkd.
    destruct (readEncryptedSegment_returns leaderPlayerName segmentId k w)
      as (w1 & data & Hread).
    unfold bind at 1. rewrite Hread. rewrite Hread in Hkd. cbn [fst] in Hkd.
    rewrite Hr in Hkd.
    destruct data as [| |code|j]; [by exists r|by exists r| |].
    + destruct (code =? ERR_JSON_PARSE_FAILED); [by exists r|].
      destruct (code =? ERR_DECRYPTION_FAILED); [|by exists r].
      destruct (truthy_str (newKey r) && negb (truthy_num (expire r)));
        [by exists r|by eexists].
    + destruct (truthy_num (keyExpireTime j) || truthy_str (room j)); [|by exists r].
      unfold bind at 1, setKeyData, bind at 1. rewrite (the_keyData_loaded w1 r Hkd).
      destruct (bool_decide _ && bool_decide _); [by exists r|by eexists].
Qed.

Lemma syncMember_keeps (w : World) :
  notification_keeps_record →
  is_Some (keyData w) → is_Some (keyData (syncMember w).1).
Proof.
  intros Hnotify [r Hr]. rewrite syncMember_unfold, Hr. unfold bind at 1, ret at 1.
  cbn [negb]. apply syncMember_loaded_record_keeps; [done|by exists r].
Qed.

(** A result other than [NEXT_TICK] is given on a loaded key record only. *)
Lemma syncMember_settled (w w1 : World) data :
  notification_keeps_record →
  syncMember w = (w1, Returns data) → data ≠ NEXT_TICK → is_Some (keyData w1).
Proof.
  intros Hnotify Hsync Hne.
  destruct (keyData w) as [r|] eqn:Hr.
  - pose proof (syncMember_keeps w Hnotify (ex_intro _ r Hr)) as H.
    by rewrite Hsync in H.
  - rewrite syncMember_unfold, Hr in Hsync. unfold bind at 1 in Hsync.
    unfold readKeyFromLocalSegment, bind at 1, get at 1 in Hsync.
    assert (Hrest : ∀ w0 : World, is_Some (keyData w0) →
              syncMember_loaded_record w0 = (w1, Returns data) → is_Some (keyData w1)).
    { intros w0 H0 Hs.
      pose proof (syncMember_loaded_record_keeps w0 Hnotify H0) as H.
      by rewrite Hs in H. }
    destruct (segments (host w) !! keySegmentId) as [d|].
    + destruct d as [|c d].
      * unfold bind at 1, modify at 1, ret at 1 in Hsync. cbn [negb] in Hsync.
        eapply Hrest; [|exact Hsync]. by eexists.
      * destruct (JSON_parse_keyData (c :: d)) as [[r|]|]; [| |done];
          unfold bind at 1, modify at 1, ret at 1 in Hsync; cbn [negb] in Hsync;
          (eapply Hrest; [|exact Hsync]); by eexists.
    + cbn in Hsync. by injection Hsync as _ <-.
Qed.

Lemma readAllyData_returns p (w : World) :
  is_Some (keyData w) →
  ∃ w' d, readAllyData p w = (w', Returns d) ∧ keyData w' = keyData w.
Proof.
  intros [r Hr]. unfold readAllyData. unfold bind at 1.
  rewrite (the_keyData_loaded w r Hr).
  destruct (negb (truthy_str (key r))); [by eexists _, _|].
  pose proof (readEncryptedSegment_keyData p dataSegmentId (str_of (key r)) w) as Hkd.
  destruct (readEncryptedSegment_returns p dataSegmentId (str_of (key r)) w)
    as (w1 & data & Hread).
  unfold bind. rewrite Hread. rewrite Hread in Hkd. cbn [fst] in Hkd.
  destruct data as [| |code|j]; try by eexists _, _.
  case_bool_decide; by eexists _, _.
Qed.

Lemma syncAlliesData_returns (w : World) :
  is_Some (keyData w) →
  ∃ w', syncAlliesData w = (w', Returns tt) ∧ keyData w' = keyData w.
Proof.
  intros Hk. unfold syncAlliesData. unfold bind at 1, get at 1.
  destruct (lt_maybe _ _); [by exists w|].
  destruct (readAllyData_returns (polled_peer (manager w)) w Hk) as (w1 & d & Hread & Hkd).
  unfold bind at 1. rewrite Hread.
  destruct d as [| |e|j]; [by exists w1| |destruct e|];
    unfold bind, get, modify; by eexists.
Qed.

End SyncMore.

(** ** The write path and the entry points *)

Section EntryFacts.

Context {Json : Type} `{!Env Json} `{!Publish Json} `{!Roster Json}.

Abbreviation World := (World Json).

(** X22.  What a member publishes with [writeMyData] under a key, a peer
    holding the same key reads back with [readAllyData]: for data that is
    not empty and whose serialization starts with a brace, the data segment
    receives a text from which the peer, once the segment is settled on its
    side, gets the parsed serialization (or [undefined] if that has no
    keys). *)
Theorem writeMyData_readAllyData (ww : World) rw K data s j :
  keyData ww = Some rw → key rw = val K → K ≠ [] → (length K < 72)%nat →
  isEmptyObject data = false → JSON_stringify data = Returns (Some s) →
  representable s → not_brace s = false → List.last s 0 ≠ 32 →
  JSON_parse s = Some j →
  ∃ c, writeMyData data ww
       = Wrote (set_host (write_segment dataSegmentId (Some c)) ww)
       ∧ segments (host (set_host (write_segment dataSegmentId (Some c)) ww))
           !! dataSegmentId = Some c
       ∧ ∀ (wr : World) rr writer,
           keyData wr = Some rr → key rr = val K →
           foreignSegment (host wr)
           = Some {| fs_username := writer; fs_id := dataSegmentId; fs_data := c |} →
           requested wr = (val writer, val dataSegmentId) →
           readAllyData (val writer) wr
           = (stored_raw c wr,
              Returns (if bool_decide (length (Object_keys j) = 0%nat)
                       then Undefined else Value j)).
Proof.
  intros Hkw HK HKne HKlen Hne Hstr Hrep Hbrace Hlast Hparse.
  destruct (decrypt_encrypt_stripped s K Hrep HKlen) as (c & Henc & Hdec).
  assert (Hstripped : stripped s = s).
  { unfold stripped. rewrite decide_False; [done|]. intros [_ ?]. done. }
  rewrite Hstripped in Hdec.
  assert (Hs : ∃ a s', s = a :: s').
  { destruct s as [|a s']; [done|eauto]. }
  destruct Hs as (a & s' & ->).
  assert (Hc : c ≠ []).
  { intros ->. by rewrite decrypt_nil in Hdec. }
  assert (Htruthy : truthy_str (val K) = true) by (destruct K; done).
  exists c. split; [|split].
  - unfold writeMyData. rewrite Hkw, HK, Htruthy, Hne. cbn [negb].
    unfold writeEncryptedSegment, stringify. by rewrite Hstr, Henc.
  - apply lookup_insert_eq.
  - intros wr rr writer Hkr HKr Hfs Hreq.
    assert (Hset : settled wr = Some c).
    { unfold settled. rewrite Hfs. cbn [fs_username fs_id fs_data].
      injection Hreq as <- <-.
      rewrite !bool_decide_eq_false_2 by (intros Hx; by apply Hx).
      destruct c; done. }
    rewrite (readAllyData_keyed _ wr rr Hkr) by (by rewrite HKr).
    unfold bind. rewrite HKr. cbn [str_of].
    rewrite (readEncryptedSegment_settled _ _ K c wr Hset Hreq).
    rewrite Hdec, Hbrace, Hparse. by case_bool_decide.
Qed.

(** X23.  Publishing empty data withdraws what was published: with an
    active key, [writeMyData] of data without truthy property sets the data
    segment to the empty string, which a peer reads as [undefined]. *)
Theorem writeMyData_empty (ww : World) rw data :
  keyData ww = Some rw → truthy_str (key rw) = true → isEmptyObject data = true →
  writeMyData data ww = Wrote (set_host (write_segment dataSegmentId (Some [])) ww)
  ∧ ∀ (wr : World) rr writer,
      keyData wr = Some rr →
      foreignSegment (host wr)
      = Some {| fs_username := writer; fs_id := dataSegmentId; fs_data := [] |} →
      requested wr = (val writer, val dataSegmentId) →
      readAllyData (val writer) wr = (wr, Returns Undefined).
Proof.
  intros Hkw Hk He. split.
  - unfold writeMyData. by rewrite Hkw, Hk, He.
  - intros wr rr writer Hkr Hfs Hreq.
    unfold readAllyData. unfold bind at 1. rewrite (the_keyData_loaded wr rr Hkr).
    destruct (truthy_str (key rr)); [|done]. cbn [negb]. unfold bind.
    rewrite readEncryptedSegment_unsettled; [done| |done].
    unfold settled. rewrite Hfs. cbn. by rewrite !orb_true_r.
Qed.

(** X24.  Publishing without a key: before the key record is loaded both
    [writeMyData] and [publishAllies] raise a [TypeError]; on a loaded
    record without active key [writeMyData] does nothing, while
    [publishAllies] raises a [TypeError] for data with a non-empty
    serialization and sets the roster segment to the empty string for data
    without serialization. *)
Theorem publishing_without_key (w : World) :
  (keyData w = None →
     ∀ data d, writeMyData data w = Raises TypeError
               ∧ publishAllies d w = Raises TypeError)
  ∧ (∀ r data, keyData w = Some r → truthy_str (key r) = false →
       writeMyData data w = Wrote w)
  ∧ (∀ r d c s, keyData w = Some r → (∀ k, key r ≠ val k) →
       stringify d = Returns (Some (c :: s)) →
       publishAllies d w = Raises TypeError)
  ∧ (∀ r d, keyData w = Some r → stringify d = Returns None →
       publishAllies d w = Wrote (set_host (write_segment segmentId (Some [])) w)).
Proof.
  split; [|split; [|split]].
  - intros Hk data d. unfold writeMyData, publishAllies. by rewrite Hk.
  - intros r data Hk Hf. unfold writeMyData. by rewrite Hk, Hf.
  - intros r d c s Hk Hkey Hs. unfold publishAllies, writeEncryptedSegment.
    rewrite Hk, Hs. destruct (key r) as [| |k]; [done|done|]. by destruct (Hkey k).
  - intros r d Hk Hs. unfold publishAllies, writeEncryptedSegment. by rewrite Hk, Hs.
Qed.

(** X20.  The rate limit of [AllianceDataSync.sync]: before
    [nextSyncTime] it does nothing and answers [undefined]; otherwise it
    answers what [syncMember] answers, leaves [nextSyncTime] as it is when
    that is [NEXT_TICK] (the next call polls again), and else moves it
    [interval] ticks ahead, so that the calls before then do nothing.  An
    interval option that is missing or 0 stands for 100 ticks. *)
Theorem sync_schedule option_interval nextSyncTime (w : World) :
  (Game_time (host w) < nextSyncTime →
     sync option_interval nextSyncTime w = (w, Returns (Undefined, nextSyncTime)))
  ∧ (∀ w1 data, nextSyncTime <= Game_time (host w) →
       syncMember w = (w1, Returns data) →
       let next := match data with
                   | NEXT_TICK => nextSyncTime
                   | _ => Game_time (host w1) + sync_interval option_interval
                   end in
       sync option_interval nextSyncTime w = (w1, Returns (data, next))
       ∧ (data ≠ NEXT_TICK →
            ∀ w2 : World,
              Game_time (host w2) < Game_time (host w1) + sync_interval option_interval →
              sync option_interval next w2 = (w2, Returns (Undefined, next))))
  ∧ (truthy_num option_interval = false → sync_interval option_interval = 100).
Proof.
  assert (Hgate : ∀ n (w0 : World), Game_time (host w0) < n →
            sync option_interval n w0 = (w0, Returns (Undefined, n))).
  { intros n w0 Hlt. unfold sync, bind, get.
    by rewrite (proj2 (Z.ltb_lt _ _) Hlt). }
  split; [apply Hgate|]. split.
  - intros w1 data Hge Hsync next. split.
    + unfold sync. unfold bind at 1, get at 1.
      rewrite (proj2 (Z.ltb_ge _ _) Hge). unfold bind at 1. rewrite Hsync. done.
    + intros Hne w2 Hlt. apply Hgate. unfold next. by destruct data.
  - intros Hf. unfold sync_interval. by rewrite Hf.
Qed.

(** X21.  [AllianceManager.sync] polls peer data on a loaded key record
    only: as long as the key record is loaded before the gate of [sync]
    first closes (as it is after construction), every exception of
    [AllianceManager.sync] is one raised by [syncMember] itself, and the
    condition holds again afterwards, also when the host moves the clock
    forward. *)
Theorem manager_sync_safe option_interval nextSyncTime (w : World) :
  notification_keeps_record → loaded_before nextSyncTime w →
  (∀ w' e, manager_sync option_interval nextSyncTime w = (w', Throws e) →
     nextSyncTime <= Game_time (host w) ∧ syncMember w = (w', Throws e))
  ∧ (∀ w' next, manager_sync option_interval nextSyncTime w = (w', Returns next) →
       loaded_before next w'
       ∧ ∀ h, Game_time (host w') <= Game_time h →
              loaded_before next (set_host (fun _ => h) w')).
Proof.
  intros Hnotify Hinv.
  assert (Hstep : ∀ next (w' : World), loaded_before next w' →
            loaded_before next w'
            ∧ ∀ h, Game_time (host w') <= Game_time h →
                   loaded_before next (set_host (fun _ => h) w')).
  { intros next w' H. split; [done|]. intros h Hh Hk. specialize (H Hk). cbn. lia. }
  assert (Hsome : ∀ next (w' : World), is_Some (keyData w') → loaded_before next w').
  { intros next w' [r Hr] Hk. congruence. }
  (* the poll and the bookkeeping after a settled roster poll *)
  assert (Hafter : ∀ (w1 : World) (data : Polled Z Json) next,
            is_Some (keyData w1) → data ≠ NEXT_TICK →
            ∃ w2, bind (match data with
                        | NEXT_TICK => ret (false, next)
                        | Value j =>
                            match data_allies j with
                            | Some a =>
                                bind get (fun w =>
                                bind (modify (set_manager (set_allies a (manager w))))
                                  (fun _ => bind updateSyncDataAllies
                                              (fun _ => ret (true, next))))
                            | None => ret (true, next)
                            end
                        | _ => ret (true, next)
                        end)
                    (fun synced : bool * Z =>
                       if negb synced.1 then ret synced.2
                       else bind syncAlliesData (fun _ => ret synced.2)) w1
                  = (w2, Returns next) ∧ is_Some (keyData w2)).
  { intros w1 data next Hk Hne.
    assert (Hpoll : ∀ w0 : World, is_Some (keyData w0) →
              ∃ w2, bind syncAlliesData (fun _ => ret next) w0 = (w2, Returns next)
                    ∧ is_Some (keyData w2)).
    { intros w0 H0. destruct (syncAlliesData_returns w0 H0) as (w2 & Hs & Hkd).
      exists w2. unfold bind. rewrite Hs. split; [done|]. by rewrite Hkd. }
    destruct data as [| |code|j]; [done| | |].
    - unfold bind at 1, ret at 1. cbn [negb fst snd]. by apply Hpoll.
    - unfold bind at 1, ret at 1. cbn [negb fst snd]. by apply Hpoll.
    - destruct (data_allies j) as [a|].
      + unfold bind at 1. unfold bind at 1, get at 1. unfold bind at 1, modify at 1.
        unfold bind at 1, updateSyncDataAllies, bind at 1, get at 1, modify at 1.
        unfold ret at 1. cbn [negb fst snd]. by apply Hpoll.
      + unfold bind at 1, ret at 1. cbn [negb fst snd]. by apply Hpoll. }
  assert (Hmain : ∃ w' o,
            manager_sync option_interval nextSyncTime w = (w', o)
            ∧ match o with
              | Returns next => loaded_before next w'
              | Throws e =>
                  nextSyncTime <= Game_time (host w) ∧ syncMember w = (w', Throws e)
              end).
  { unfold manager_sync.
    destruct (negb (truthy_str leaderPlayerName)); [by eexists _, _|].
    unfold syncAllies. unfold bind at 1. unfold bind at 1. unfold sync.
    unfold bind at 1, get at 1.
    destruct (Game_time (host w) <? nextSyncTime) eqn:Hgate.
    - apply Z.ltb_lt in Hgate.
      assert (Hk : is_Some (keyData w)).
      { destruct (keyData w) eqn:E; [by eexists|]. specialize (Hinv E). lia. }
      unfold ret at 1. cbn [fst snd].
      destruct (Hafter w Undefined nextSyncTime Hk) as (w2 & Hw2 & Hk2); [done|].
      unfold bind at 1 in Hw2. unfold ret at 1. cbn [negb fst snd] in *.
      unfold ret at 1 in Hw2. cbn [negb fst snd] in Hw2. rewrite Hw2.
      eexists _, _. split; [done|]. by apply Hsome.
    - apply Z.ltb_ge in Hgate. unfold bind at 1.
      destruct (syncMember w) as [w1 [data|e]] eqn:Hsync.
      + unfold bind at 1, get at 1, ret at 1. cbn [fst snd].
        assert (Hdec : data = NEXT_TICK ∨ data ≠ NEXT_TICK)
          by (destruct data; (by left) || (by right)).
        destruct Hdec as [->|Hne].
        * unfold ret at 1. cbn [negb fst snd]. unfold ret.
          eexists _, _. split; [done|].
          intros Hk1.
          (* the key record is still missing: only the load was tried *)
          destruct (keyData w) as [r|] eqn:Hr.
          { pose proof (syncMember_keeps w Hnotify (ex_intro _ r Hr)) as [r1 H1].
            rewrite Hsync in H1. cbn [fst] in H1. congruence. }
          specialize (Hinv Hr).
          rewrite syncMember_unfold, Hr in Hsync. unfold bind at 1 in Hsync.
          unfold readKeyFromLocalSegment, bind at 1, get at 1 in Hsync.
          assert (Hrest : ∀ w0 : World, is_Some (keyData w0) →
                    syncMember_loaded_record w0 = (w1, Returns NEXT_TICK) → False).
          { intros w0 H0 Hs.
            pose proof (syncMember_loaded_record_keeps w0 Hnotify H0) as [r1 H1].
            rewrite Hs in H1. cbn [fst] in H1. congruence. }
          destruct (segments (host w) !! keySegmentId) as [d|].
          -- exfalso. destruct d as [|c d].
             ++ unfold bind at 1, modify at 1, ret at 1 in Hsync. cbn [negb] in Hsync.
                eapply Hrest; [|exact Hsync]. by eexists.
             ++ destruct (JSON_parse_keyData (c :: d)) as [[r|]|]; [| |done];
                  unfold bind at 1, modify at 1, ret at 1 in Hsync; cbn [negb] in Hsync;
                  (eapply Hrest; [|exact Hsync]); by eexists.
          -- cbn in Hsync. injection Hsync as <-. cbn. lia.
        * pose proof (syncMember_settled w w1 data Hnotify Hsync Hne) as Hk1.
          set (next := match data with
                       | NEXT_TICK => nextSyncTime
                       | _ => Game_time (host w1) + sync_interval option_interval
                       end).
          destruct (Hafter w1 data next Hk1 Hne) as (w2 & Hw2 & Hk2).
          unfold bind at 1 in Hw2. rewrite Hw2. eexists _, _. split; [done|]. by apply Hsome.
      + by eexists _, _. }
  destruct Hmain as (w0 & o & Hm & Ho). rewrite Hm. split.
  - intros w' e [= <- ->]. done.
  - intros w' next [= <- ->]. by apply Hstep.
Qed.


End EntryFacts.

(** ** The concrete runs *)

Existing Instance ex_env.

Example hexStringToUint32Array_key64 :
  hexStringToUint32Array key64
  = [66051; 67438087; 134810123; 202182159; 3735928559; 19088743; 2309737967; 1].
Proof. by vm_compute. Qed.

Example parseInt16_forms :
  parseInt16 (lit "0000ff") = Some 255 ∧ parseInt16 (lit " -0x1F") = Some (-31)
  ∧ parseInt16 (lit "12zz") = Some 18 ∧ parseInt16 (lit "zz") = None.
Proof. by vm_compute. Qed.

(** C1, counterexample: the two code units ["a "] come back as ["a"]. *)
Lemma roundtrip_loses_trailing_space :
  representable (lit "a ") ∧ length key32 = 32%nat
  ∧ ∃ c, encrypt (lit "a ") key32 = Some c ∧ decrypt c key32 = lit "a"
         ∧ decrypt c key32 ≠ lit "a ".
Proof.
  split; [split; [repeat constructor; vm_compute; intuition discriminate | by vm_compute]|].
  split; [done|]. eexists. split; [vm_compute; reflexivity|].
  split; [by vm_compute|]. vm_compute. discriminate.
Qed.

Lemma decrypt_encrypt_roundtrip_witness :
  ∃ c, encrypt (lit "{}") key64 = Some c ∧ decrypt c key64 = lit "{}".
Proof.
  apply (decrypt_encrypt_roundtrip (lit "{}") key64).
  - split; [repeat constructor; vm_compute; intuition discriminate | by vm_compute].
  - vm_compute. lia.
  - vm_compute. intros [_ H]. discriminate H.
Defined.

(** C4, counterexample: a message of 53 words gets 16 rounds, in both
    directions. *)
Lemma sixteen_rounds_for_53_words :
  length (encryptUint32Array_rounds (replicate 53 0%Z) key32).2 = 16%nat
  ∧ length (decryptUint32Array_rounds (replicate 53 0%Z) key32).2 = 16%nat
  ∧ ¬ (17 ≤ length (encryptUint32Array_rounds (replicate 53 0%Z) key32).2)%nat.
Proof.
  assert (H : length (encryptUint32Array_rounds (replicate 53 0%Z) key32).2 = 16%nat)
    by by vm_compute.
  split; [done|]. split; [by vm_compute|]. rewrite H. lia.
Qed.

Lemma rounds_schedule_witness :
  length (encryptUint32Array_rounds [1; 2; 3; 4; 5] key32).2 = 26%nat
  ∧ length (decryptUint32Array_rounds [1; 2; 3; 4; 5] key32).2 = 26%nat.
Proof.
  destruct (rounds_schedule [1; 2; 3; 4; 5] key32) as (_ & _ & He & Hd & _).
  - cbn. lia.
  - split; [exact He | exact Hd].
Defined.

(** C2, counterexample: the key the leader delivers has 64 digits and
    parses to eight words. *)
Lemma delivered_key_has_64_digits :
  ∃ w', readKeyFromTransactions ex_delivery = (w', Returns true)
        ∧ key <$> keyData w' = Some (val key64)
        ∧ length key64 = 64%nat ∧ length key64 ≠ 32%nat
        ∧ length (hexStringToUint32Array key64) = 8%nat
        ∧ length (hexStringToUint32Array key64) ≠ 4%nat.
Proof.
  eexists. split; [vm_compute; reflexivity|].
  split; [by vm_compute|]. split; [by vm_compute|].
  split; [vm_compute; lia|]. split; [by vm_compute|]. vm_compute. lia.
Qed.

Lemma delivered_key_is_eight_words_witness :
  ∃ K, length K = 64%nat ∧ length (hexStringToUint32Array K) = 8%nat.
Proof.
  destruct (delivered_key_is_eight_words ex_delivery
              (readKeyFromTransactions ex_delivery).1)
    as (r & K & _ & HK & _ & H8 & _).
  - vm_compute. reflexivity.
  - exists K. split; [exact HK | exact H8].
Defined.

(** C3, counterexample: the poll with the active key fails to decrypt, and
    the new key of the record is gone afterwards. *)
Lemma syncMember_drops_newKey :
  (readEncryptedSegment (val (lit "leader")) 66 key64 ex_garbled).2
  = Returns (Failed ERR_DECRYPTION_FAILED)
  ∧ ∃ w', syncMember ex_garbled = (w', Returns NEXT_TICK)
          ∧ newKey <$> keyData ex_garbled = Some (val other64)
          ∧ newKey <$> keyData w' = Some undefined
          ∧ newKey <$> keyData w' ≠ newKey <$> keyData ex_garbled.
Proof.
  split; [by vm_compute|]. eexists. split; [vm_compute; reflexivity|].
  split; [by vm_compute|]. split; [by vm_compute|]. vm_compute. discriminate.
Qed.

Lemma syncMember_decryption_failed_witness :
  (syncMember ex_stale).2 = Returns NEXT_TICK
  ∧ key <$> keyData (syncMember ex_stale).1 = Some undefined.
Proof.
  destruct (syncMember_decryption_failed
              ex_stale (ex_record (val key64) undefined (val 5000))
              (stored_raw (lit "not a ciphertext") ex_stale))
    as (Hs & _ & _).
  - reflexivity.
  - reflexivity.
  - intros _. vm_compute. reflexivity.
  - reflexivity.
  - vm_compute. reflexivity.
  - rewrite Hs. split; reflexivity.
Defined.

Lemma readEncryptedSegment_tag_mismatch_witness :
  (readEncryptedSegment (val (lit "leader")) 66 key64 ex_garbled).2
  = Returns (Failed ERR_DECRYPTION_FAILED).
Proof.
  destruct (readEncryptedSegment_tag_mismatch (val (lit "leader")) 66 key64
              (lit "not a ciphertext") ex_garbled) as (Hr & _ & _).
  - vm_compute. reflexivity.
  - reflexivity.
  - exists 0%nat, 3735928559. split; [vm_compute; reflexivity|].
    vm_compute. intros H. discriminate H.
  - rewrite Hr. reflexivity.
Defined.

(** C6, counterexample: [expire] has passed but there is no active key;
    nothing happens, and [newKey] is not promoted. *)
Lemma updateExpiredKey_needs_active_key :
  (expire <$> keyData ex_gap = Some (val 100) ∧ Game_time (host ex_gap) = 100)
  ∧ updateExpiredKey ex_gap = (ex_gap, Returns false)
  ∧ key <$> keyData (updateExpiredKey ex_gap).1 = Some undefined
  ∧ newKey <$> keyData (updateExpiredKey ex_gap).1 = Some (val other64).
Proof. repeat split; by vm_compute. Qed.

Lemma updateExpiredKey_boundary_witness :
  updateExpiredKey ex_due
  = (persisted (ex_record (val other64) undefined null) ex_due, Returns true)
  ∧ updateExpiredKey ex_gap = (ex_gap, Returns false).
Proof.
  split.
  - destruct (updateExpiredKey_boundary ex_due
                (ex_record (val key64) (val other64) (val 100))) as [Hkeyed _].
    + reflexivity.
    + destruct Hkeyed as [Hat _]; [reflexivity|reflexivity|].
      destruct Hat as [Hfire _]; [vm_compute; discriminate|]. exact Hfire.
  - destruct (updateExpiredKey_boundary ex_gap
                (ex_record undefined (val other64) (val 100))) as [_ Hidle].
    + reflexivity.
    + apply Hidle. reflexivity.
Defined.

Lemma readSegment_single_slot_witness :
  readSegment (val (lit "ally")) 67 true ex_garbled
  = (retargeted (val (lit "ally")) 67 ex_garbled, Returns NEXT_TICK).
Proof.
  destruct (readSegment_single_slot (val (lit "ally")) 67 true ex_garbled) as [Hr _].
  - vm_compute. intros H. discriminate H.
  - exact Hr.
Defined.

Lemma stuck_without_key_witness :
  syncMember ex_gap = (ex_gap, Returns Undefined).
Proof.
  destruct (stuck_without_key ex_gap (ex_record undefined (val other64) (val 100)))
    as (_ & _ & Hs & _).
  - reflexivity.
  - reflexivity.
  - reflexivity.
  - exact Hs.
Defined.

Lemma readEncryptedSegment_first_character_witness :
  readEncryptedSegment (val (lit "leader")) 66 key64 ex_array
  = (stored_raw ex_cipher ex_array, Returns (Failed ERR_DECRYPTION_FAILED)).
Proof.
  destruct (readEncryptedSegment_first_character (val (lit "leader")) 66 key64
              ex_cipher ex_array) as [_ Hs].
  - vm_compute. reflexivity.
  - reflexivity.
  - apply (Hs (lit "[1,2]")).
    + split; [repeat constructor; vm_compute; intuition discriminate | by vm_compute].
    + vm_compute. lia.
    + vm_compute. reflexivity.
    + vm_compute. reflexivity.
Defined.

(** ** Concrete runs of the further properties *)

Existing Instance ex_publish.
Existing Instance ex_roster.
Existing Instance ex_text_env.
Existing Instance ex_text_publish.
Existing Instance ex_text_roster.

(** A call of [syncAlliesData] on a concrete state is a cycle. *)
Ltac concrete_cycle :=
  split; [vm_compute; reflexivity|];
  split; [eexists; split; [vm_compute; reflexivity|vm_compute; reflexivity]|];
  eexists _, _; split; [vm_compute; reflexivity|discriminate].



Lemma block_cipher_inverse_witness :
  decryptUint32Array (encryptUint32Array [1; 2; 3] [7]) [7] = [1; 2; 3].
Proof.
  destruct (block_cipher_inverse [1; 2; 3] [7]) as [H _].
  - cbn. lia.
  - repeat (constructor; [unfold is_word; lia|]). constructor.
  - exact H.
Defined.

Lemma stringToUint32Array_uint32ArrayToString_witness :
  stringToUint32Array (uint32ArrayToString [6881312]) = [6881312].
Proof.
  apply (stringToUint32Array_uint32ArrayToString [6881312]).
  - repeat (constructor; [unfold is_word; lia|]). constructor.
  - cbn. lia.
Defined.

Lemma encrypt_raises_witness : encrypt [] (replicate 72 48) = None.
Proof.
  destruct (encrypt_raises [] (replicate 72 48)) as [[_ H] _].
  - cbn. lia.
  - vm_compute. reflexivity.
  - apply H. vm_compute. lia.
Defined.

Lemma encrypt_length_witness :
  (2 * ((length (lit "[1,2]") + 1) / 2 + 4) ≤ length ex_cipher
   ≤ 4 * ((length (lit "[1,2]") + 1) / 2 + 4))%nat.
Proof.
  apply (encrypt_length (lit "[1,2]") key64 ex_cipher).
  - vm_compute. reflexivity.
  - vm_compute. reflexivity.
Defined.

Lemma hexStringToUint32Array_hex8_witness :
  hexStringToUint32Array (concat (hex8 false <$> [3735928559; 1]) ++ lit "zz")
  = [3735928559; 1].
Proof.
  apply (hexStringToUint32Array_hex8 false [3735928559; 1] (lit "zz")).
  - repeat (constructor; [unfold is_word; lia|]). constructor.
  - cbn. lia.
  - cbn. lia.
Defined.

Lemma readKeyFromTransactions_first_30_witness :
  readKeyFromTransactions
    (ex_transfers (replicate 30 ex_other_transfer ++ [ex_key_transfer]))
  = (ex_transfers (replicate 30 ex_other_transfer ++ [ex_key_transfer]), Returns false).
Proof.
  apply (readKeyFromTransactions_first_30 _ (replicate 30 ex_other_transfer)
           [ex_key_transfer]).
  - reflexivity.
  - reflexivity.
  - apply Forall_replicate. left. vm_compute. reflexivity.
Defined.

Lemma readKeyFromTransactions_stale_witness :
  readKeyFromTransactions (ex_transfers [ex_old_transfer; ex_key_transfer])
  = (ex_transfers [ex_old_transfer; ex_key_transfer], Returns false).
Proof.
  apply (readKeyFromTransactions_stale _ [] ex_old_transfer [ex_key_transfer]).
  - reflexivity.
  - constructor.
  - vm_compute. reflexivity.
Defined.

Lemma readKeyFromTransactions_accepts_witness :
  readKeyFromTransactions (ex_transfers [ex_other_transfer; ex_key_transfer])
  = (persisted (ex_record (val key64) undefined null)
       (ex_transfers [ex_other_transfer; ex_key_transfer]), Returns true).
Proof.
  destruct (readKeyFromTransactions_accepts
              (ex_transfers [ex_other_transfer; ex_key_transfer])
              (ex_record undefined undefined null)
              [ex_other_transfer] ex_key_transfer [] key64) as [H _].
  - reflexivity.
  - reflexivity.
  - constructor; [left; vm_compute; reflexivity|constructor].
  - constructor; [vm_compute; discriminate|constructor].
  - cbn. lia.
  - vm_compute. discriminate.
  - vm_compute. reflexivity.
  - reflexivity.
  - apply H. vm_compute. reflexivity.
Defined.

Lemma readKeyFromTransactions_no_description_witness :
  readKeyFromTransactions (ex_transfers [ex_blank_transfer])
  = (ex_transfers [ex_blank_transfer], Throws TypeError).
Proof.
  apply (readKeyFromTransactions_no_description _ [] ex_blank_transfer []).
  - reflexivity.
  - constructor.
  - constructor.
  - cbn. lia.
  - vm_compute. discriminate.
  - vm_compute. reflexivity.
  - intros d H. discriminate H.
Defined.

Lemma requestKey_sends_witness :
  requestKey ex_terminals
  = (set_host (add_sent [(0%nat, lit "W1N1")]) ex_terminals, Returns Undefined).
Proof.
  destruct (requestKey_sends ex_terminals (ex_record undefined undefined null))
    as (_ & H & _).
  - reflexivity.
  - reflexivity.
  - vm_compute. reflexivity.
  - apply H. reflexivity.
Defined.

Lemma syncMember_renewal_window_witness :
  syncMember ex_window = (ex_window, Returns Undefined).
Proof.
  destruct (syncMember_renewal_window ex_window
              (ex_record (val key64) (val other64) (val 5000))) as [H _].
  - reflexivity.
  - reflexivity.
  - reflexivity.
  - reflexivity.
  - apply H. vm_compute. split; [discriminate|reflexivity].
Defined.

Lemma syncMember_roster_witness :
  leaderRoom <$> keyData ex_roster_read = Some (val (lit "W1N1"))
  ∧ leaderRoom <$> keyData (syncMember ex_roster_read).1 = Some undefined.
Proof.
  split; [reflexivity|].
  destruct (syncMember_roster ex_roster_read (ex_record (val key64) undefined null)
              (stored_raw ex_braces ex_roster_read) (lit "{}")) as (_ & _ & H).
  - reflexivity.
  - reflexivity.
  - intros H. discriminate H.
  - vm_compute. reflexivity.
  - apply H; reflexivity.
Defined.

Lemma syncMember_returns_witness :
  ∃ w' res, syncMember ex_gap = (w', Returns res).
Proof.
  apply (syncMember_returns ex_gap).
  - intros H. discriminate H.
  - constructor.
  - intros notify w H. discriminate H.
Defined.

Lemma syncAlliesData_stores_witness :
  alliesData (manager (syncAlliesData ex_peer_garbled).1) !! lit "a" = Some undefined.
Proof.
  destruct (syncAlliesData_stores ex_peer_garbled
              (stored_raw (lit "not a ciphertext") ex_peer_garbled)
              (ex_record (val key64) undefined null)
              (Failed ERR_DECRYPTION_FAILED)) as (_ & _ & H).
  - reflexivity.
  - reflexivity.
  - reflexivity.
  - vm_compute. reflexivity.
  - discriminate.
  - apply (H ERR_DECRYPTION_FAILED). reflexivity.
Defined.

Lemma syncAlliesData_empty_roster_witness :
  polled_peer (manager ex_gap) = undefined
  ∧ alliesData (manager (syncAlliesData ex_gap).1) !! lit "undefined" = Some undefined.
Proof.
  destruct (syncAlliesData_empty_roster ex_gap
              (ex_record undefined (val other64) (val 100))) as (Hp & H & _).
  - reflexivity.
  - reflexivity.
  - reflexivity.
  - split; [exact Hp|]. rewrite H by reflexivity. apply lookup_insert_eq.
Defined.

Lemma manager_sync_safe_witness :
  loaded_before 200 (manager_sync (val 100) 0 ex_gap).1.
Proof.
  destruct (manager_sync_safe (val 100) 0 ex_gap) as [_ H].
  - intros notify w H. discriminate H.
  - intros H. discriminate H.
  - destruct (H (manager_sync (val 100) 0 ex_gap).1 200) as [Hl _].
    + vm_compute. reflexivity.
    + exact Hl.
Defined.

Lemma writeMyData_readAllyData_witness :
  ∃ c, writeMyData (lit "{}") ex_roster_read
       = Wrote (set_host (write_segment 67 (Some c)) ex_roster_read).
Proof.
  destruct (writeMyData_readAllyData ex_roster_read
              (ex_record (val key64) undefined null) key64 (lit "{}") (lit "{}")
              (lit "{}")) as (c & H & _).
  - reflexivity.
  - reflexivity.
  - discriminate.
  - vm_compute. lia.
  - reflexivity.
  - reflexivity.
  - split; [repeat constructor; vm_compute; intuition discriminate | by vm_compute].
  - vm_compute. reflexivity.
  - vm_compute. discriminate.
  - reflexivity.
  - exists c. exact H.
Defined.

Lemma writeMyData_empty_witness :
  writeMyData tt ex_stale = Wrote (set_host (write_segment 67 (Some [])) ex_stale).
Proof.
  destruct (writeMyData_empty ex_stale (ex_record (val key64) undefined (val 5000)) tt)
    as [H _].
  - reflexivity.
  - reflexivity.
  - reflexivity.
  - exact H.
Defined.

Lemma syncMember_unloaded_witness :
  syncMember ex_corrupt = (ex_corrupt, Throws SyntaxError).
Proof.
  destruct (syncMember_unloaded ex_corrupt) as (_ & _ & H & _).
  - reflexivity.
  - apply H. exists 103, (lit "arbage"). split; vm_compute; reflexivity.
Defined.
